(** * CorpusUtils: vocabulary construction and training-example sampling

    A shallow embedding of [nlp/CorpusUtils.py] (vocabulary builder, Huffman
    code tree, negative-sampling and phrase tables, phrase and negative
    samplers), followed by the properties proved about it.

    Conventions of the embedding.
    - Python integers are [Z]; [uint32] cells keep their wrap-around
      ([wrap32]).
    - Python exceptions are the [Raise] branch of [result].
    - A [dict] is an insertion-ordered association list with unique keys:
      iteration order decides the key every word receives.
    - Python floats and numpy [float64] are the binary64 numbers of
      [PrimFloat].
    - Draws of [numpy.random] are inputs of the functions that consume them. *)

From Stdlib Require Import ZArith List Lia ZifyNat Bool Permutation Finite.
From Stdlib Require String Ascii Uint63.
From Stdlib Require Import PrimFloat.
Import ListNotations String.StringSyntax.

Abbreviation string := String.string.
Delimit Scope string_scope with string.

Open Scope Z_scope.

(** ** Exceptions *)

Inductive PyError : Type :=
| KeyError
| IndexError
| AttributeError
| ValueError
| ZeroDivisionError
| AssertionError.

Inductive result (A : Type) : Type :=
| Ok (a : A)
| Raise (e : PyError).

Arguments Ok {A} a.
Arguments Raise {A} e.

Definition bind {A B : Type} (c : result A) (k : A -> result B) : result B :=
  match c with
  | Ok a => k a
  | Raise e => Raise e
  end.

Notation "x <- c ;; k" := (bind c (fun x => k))
  (at level 61, c at next level, right associativity).
Notation "' p <- c ;; k" := (bind c (fun p => k))
  (at level 61, p pattern, c at next level, right associativity).

(** [seq[i]] for a non-negative position; [err] is what the container raises
    out of range ([IndexError] for lists and arrays, [KeyError] for dicts). *)
Definition lookup {A : Type} (err : PyError) (l : list A) (i : Z) : result A :=
  if i <? 0 then Raise err
  else match nth_error l (Z.to_nat i) with
       | Some a => Ok a
       | None => Raise err
       end.

(** [seq[i] = x]: the list with cell [i] replaced; out of range it is left
    as it is (every use is guarded by a [lookup] or a length test). *)
Fixpoint set_nth {A : Type} (l : list A) (i : nat) (x : A) : list A :=
  match l, i with
  | [], _ => []
  | _ :: t, O => x :: t
  | a :: t, S j => a :: set_nth t j x
  end.

Definition store {A : Type} (err : PyError) (l : list A) (i : Z) (x : A)
  : result (list A) :=
  if (i <? 0) || (Z.of_nat (length l) <=? i) then Raise err
  else Ok (set_nth l (Z.to_nat i) x).

Definition len {A : Type} (l : list A) : Z := Z.of_nat (length l).

Definition wrap32 (z : Z) : Z := z mod 2 ^ 32.

Definition sumZ (l : list Z) : Z := fold_right Z.add 0 l.

(** ** Dictionaries *)

Section Dict.
Context {K V : Type} (eqb : K -> K -> bool).

Definition dict : Type := list (K * V).

Fixpoint dict_get (d : dict) (k : K) : option V :=
  match d with
  | [] => None
  | (k', v) :: d' => if eqb k' k then Some v else dict_get d' k
  end.

(** [d[k] = v]: an existing key keeps its place, a new one goes last. *)
Fixpoint dict_set (d : dict) (k : K) (v : V) : dict :=
  match d with
  | [] => [(k, v)]
  | (k', v') :: d' =>
      if eqb k' k then (k', v) :: d' else (k', v') :: dict_set d' k v
  end.

Definition dict_mem (d : dict) (k : K) : bool :=
  match dict_get d k with Some _ => true | None => false end.

Definition dict_keys (d : dict) : list K := map fst d.
Definition dict_values (d : dict) : list V := map snd d.

Definition dict_lookup (d : dict) (k : K) : result V :=
  match dict_get d k with
  | Some v => Ok v
  | None => Raise KeyError
  end.

End Dict.

Arguments dict : clear implicits.

(** ** Floating point *)

(** [float(z)] for [|z| < 2^63] (exact below [2^53]). *)
Definition Z2f (z : Z) : float :=
  if z <? 0 then PrimFloat.opp (PrimFloat.of_uint63 (Uint63.of_Z (- z)))
  else PrimFloat.of_uint63 (Uint63.of_Z z).

Definition fzero : float := Z2f 0.
Definition fone : float := Z2f 1.

(** Python's [x / y] on floats raises where IEEE would give inf or nan. *)
Definition py_fdiv (x y : float) : result float :=
  if PrimFloat.eqb y fzero then Raise ZeroDivisionError
  else Ok (PrimFloat.div x y).

(** Python 3's [a / b] on integers (true division). *)
Definition py_truediv (a b : Z) : result float :=
  if b =? 0 then Raise ZeroDivisionError
  else Ok (PrimFloat.div (Z2f a) (Z2f b)).

(** The builtin [min(a, b)]: [b] when [b < a], otherwise [a]. *)
Definition py_min (a b : float) : float :=
  if PrimFloat.ltb b a then b else a.

Definition fsum (l : list float) : float := fold_left PrimFloat.add l fzero.

(** ** Vocabulary items *)

Definition UNK : string := "*UNK*"%string.

(** A [Vocab] object of the final vocabulary: [count], the LUT key [index],
    and [sample_prob] once [_precalc_downsampling] has run.  The objects of
    [raw_vocab] carry a count only and are kept as bare counts. *)
Record Vocab : Type := mkVocab {
  count : Z;
  index : Z;
  sample_prob : option float
}.

(** A node of the Huffman heap: a vocabulary item, or the object line 244
    creates with [count], [index], [left] and [right]. *)
Inductive HNode : Type :=
| Word (v : Vocab)
| Inner (cnt : Z) (idx : Z) (left right : HNode).

Definition node_count (n : HNode) : Z :=
  match n with
  | Word v => count v
  | Inner c _ _ _ => c
  end.

Definition node_index (n : HNode) : Z :=
  match n with
  | Word v => index v
  | Inner _ i _ _ => i
  end.

(** [Vocab.__lt__]: nodes compare by [count]. *)
Definition vocab_lt (a b : HNode) : bool := node_count a <? node_count b.

(** ** build_vocab: the scan of the corpus (lines 77-92) *)

Definition raw_count (raw_vocab : dict string Z) (word : string)
  : dict string Z :=
  match dict_get String.eqb raw_vocab word with
  | Some c => dict_set String.eqb raw_vocab word (c + 1)
  | None => dict_set String.eqb raw_vocab word 1
  end.

Definition scan_sentence (st : dict string Z * Z) (sentence : list string)
  : dict string Z * Z :=
  fold_left (fun st word => (raw_count (fst st) word, snd st + 1)) sentence st.

(** The pair [(raw_vocab, total_words)] after the loop over the sentences. *)
Definition scan_corpus (sentences : list (list string)) : dict string Z * Z :=
  fold_left scan_sentence sentences ([], 0).

(** ** build_vocab: key assignment (lines 105-126) *)

Record index_state : Type := mkIndexState {
  st_w2v : dict string Vocab;
  st_w2k : dict string Z;
  st_k2w : dict Z string;
  st_idx : Z;
  st_unk : Z
}.

Definition index_step (min_count : Z) (st : index_state) (item : string * Z)
  : index_state :=
  let (word, c) := item in
  if (c >=? min_count) || String.eqb word UNK then
    mkIndexState
      (dict_set String.eqb (st_w2v st) word (mkVocab c (st_idx st) None))
      (dict_set String.eqb (st_w2k st) word (st_idx st))
      (dict_set Z.eqb (st_k2w st) (st_idx st) word)
      (st_idx st + 1)
      (st_unk st)
  else
    mkIndexState (st_w2v st) (st_w2k st) (st_k2w st) (st_idx st)
      (st_unk st + c).

Definition index_loop (min_count : Z) (raw_vocab : dict string Z)
  : index_state :=
  fold_left (index_step min_count) raw_vocab (mkIndexState [] [] [] 0 0).

(** Lines 119-126: the unknown word takes the dropped counts. *)
Definition add_unk (raw_vocab : dict string Z) (st : index_state)
  : result index_state :=
  if dict_mem String.eqb raw_vocab UNK then
    v <- dict_lookup String.eqb (st_w2v st) UNK ;;
    Ok (mkIndexState
          (dict_set String.eqb (st_w2v st) UNK
             (mkVocab (count v + st_unk st) (index v) (sample_prob v)))
          (st_w2k st) (st_k2w st) (st_idx st) (st_unk st))
  else
    Ok (mkIndexState
          (dict_set String.eqb (st_w2v st) UNK
             (mkVocab (st_unk st) (st_idx st) None))
          (dict_set String.eqb (st_w2k st) UNK (st_idx st))
          (dict_set Z.eqb (st_k2w st) (st_idx st) UNK)
          (st_idx st) (st_unk st)).

Definition build_index (sentences : list (list string)) (min_count : Z)
  : result index_state :=
  let raw_vocab := fst (scan_corpus sentences) in
  add_unk raw_vocab (index_loop min_count raw_vocab).

(** ** _precalc_downsampling (lines 188-202) *)

(** The literal [1e-8]. *)
Definition sample_threshold : float := 0x1.5798ee2308c3ap-27%float.

Definition retention (sample : bool) (down_sample : float) (total_words : Z)
  (v : Vocab) : result float :=
  prob <- (if sample then
             rel <- py_truediv (count v) total_words ;;
             q <- py_fdiv down_sample rel ;;
             Ok (PrimFloat.sqrt q)
           else Ok fone) ;;
  Ok (py_min prob fone).

Fixpoint precalc_loop (sample : bool) (down_sample : float) (total_words : Z)
  (w2v : dict string Vocab) : result (dict string Vocab) :=
  match w2v with
  | [] => Ok []
  | (word, v) :: rest =>
      p <- retention sample down_sample total_words v ;;
      rest' <- precalc_loop sample down_sample total_words rest ;;
      Ok ((word, mkVocab (count v) (index v) (Some p)) :: rest')
  end.

Definition _precalc_downsampling (w2v : dict string Vocab) (down_sample : float)
  : result (dict string Vocab) :=
  if negb (PrimFloat.leb fzero down_sample) then Raise AssertionError
  else
    let sample := PrimFloat.ltb sample_threshold down_sample in
    let total_words := sumZ (map count (dict_values w2v)) in
    precalc_loop sample down_sample total_words w2v.

(** ** heapq

    The standard library's binary heap on a Python list, as
    [_create_binary_tree] drives it.  Positions are list positions; the
    order is the items' [__lt__]. *)

Module heapq.
Section Heap.
Context {A : Type} (lt : A -> A -> bool).

(** The loop of [_siftdown(heap, startpos, pos)]: [newitem] climbs towards
    [startpos] while it is smaller than its parent.  [pos] itself bounds the
    number of rounds. *)
Fixpoint siftdown_loop (fuel : nat) (heap : list A) (startpos pos : nat)
  (newitem : A) : list A :=
  match fuel with
  | O => set_nth heap pos newitem
  | S fuel' =>
      if (startpos <? pos)%nat then
        let parentpos := Nat.div2 (pos - 1) in
        match nth_error heap parentpos with
        | Some parent =>
            if lt newitem parent then
              siftdown_loop fuel' (set_nth heap pos parent) startpos parentpos
                newitem
            else set_nth heap pos newitem
        | None => set_nth heap pos newitem
        end
      else set_nth heap pos newitem
  end.

Definition _siftdown (heap : list A) (startpos pos : nat) : list A :=
  match nth_error heap pos with
  | Some newitem => siftdown_loop pos heap startpos pos newitem
  | None => heap
  end.

(** The smaller child of the hole: the right one when it exists and the left
    one is not smaller. *)
Definition smaller_child (heap : list A) (endpos childpos : nat) : nat :=
  let rightpos := (childpos + 1)%nat in
  if (rightpos <? endpos)%nat then
    match nth_error heap childpos, nth_error heap rightpos with
    | Some l, Some r => if lt l r then childpos else rightpos
    | _, _ => childpos
    end
  else childpos.

(** The loop of [_siftup(heap, pos)]: the hole sinks to a leaf, each time
    pulling up the smaller child.  Returns the heap and the final hole. *)
Fixpoint siftup_loop (fuel : nat) (heap : list A) (endpos pos : nat)
  : list A * nat :=
  match fuel with
  | O => (heap, pos)
  | S fuel' =>
      let childpos := (2 * pos + 1)%nat in
      if (childpos <? endpos)%nat then
        let childpos := smaller_child heap endpos childpos in
        match nth_error heap childpos with
        | Some c => siftup_loop fuel' (set_nth heap pos c) endpos childpos
        | None => (heap, pos)
        end
      else (heap, pos)
  end.

Definition _siftup (heap : list A) (pos : nat) : list A :=
  match nth_error heap pos with
  | Some newitem =>
      let (heap', pos') :=
        siftup_loop (length heap) heap (length heap) pos in
      _siftdown (set_nth heap' pos' newitem) pos pos'
  | None => heap
  end.

Definition heappush (heap : list A) (item : A) : list A :=
  let heap := heap ++ [item] in
  _siftdown heap 0 (length heap - 1).

(** [heap.pop()]: the list without its last item, and that item. *)
Fixpoint pop_last (heap : list A) : option (list A * A) :=
  match heap with
  | [] => None
  | x :: t =>
      match pop_last t with
      | None => Some ([], x)
      | Some (t', y) => Some (x :: t', y)
      end
  end.

Definition heappop (heap : list A) : result (A * list A) :=
  match pop_last heap with
  | None => Raise IndexError
  | Some (heap', lastelt) =>
      match heap' with
      | [] => Ok (lastelt, [])
      | returnitem :: _ => Ok (returnitem, _siftup (set_nth heap' 0 lastelt) 0)
      end
  end.

(** [for i in reversed(range(n//2)): _siftup(x, i)]. *)
Definition heapify (x : list A) : list A :=
  fold_left _siftup (rev (seq 0 (length x / 2))) x.

End Heap.
End heapq.

(** ** _create_binary_tree (lines 231-284) *)

Definition MAX_HSM_KEY : Z := 12345678.

(** A code under construction is a Python list (the empty path the root
    starts with) or a numpy array (every extended path). *)
Inductive pyseq : Type :=
| PyList (l : list Z)
| NdArray (l : list Z).

(** [list(s)]. *)
Definition to_list (s : pyseq) : list Z :=
  match s with
  | PyList l => l
  | NdArray l => l
  end.

(** [s.size]: an attribute of arrays only. *)
Definition size (s : pyseq) : result Z :=
  match s with
  | PyList _ => Raise AttributeError
  | NdArray l => Ok (len l)
  end.

(** Lines 242-245: pop the two lightest nodes, push their parent. *)
Fixpoint merge_loop (n : Z) (rounds : nat) (i : Z) (heap : list HNode)
  : result (list HNode) :=
  match rounds with
  | O => Ok heap
  | S rounds' =>
      '(min1, heap) <- heapq.heappop vocab_lt heap ;;
      '(min2, heap) <- heapq.heappop vocab_lt heap ;;
      merge_loop n rounds' (i + 1)
        (heapq.heappush vocab_lt heap
           (Inner (node_count min1 + node_count min2) (i + n) min1 min2))
  end.

Definition build_heap (w2v : dict string Vocab) : result (list HNode) :=
  let n := len w2v in
  let heap := heapq.heapify vocab_lt (map Word (dict_values w2v)) in
  merge_loop n (Z.to_nat (n - 1)) 0 heap.

Fixpoint node_size (t : HNode) : nat :=
  match t with
  | Word _ => 1
  | Inner _ _ l r => S (node_size l + node_size r)
  end.

Definition stack_size (stack : list (HNode * pyseq * pyseq)) : nat :=
  fold_right (fun e acc => (node_size (fst (fst e)) + acc)%nat) O stack.

(** Lines 251-261, the [while stack] loop; the top of the stack is the head
    of the list.  Every round pops one node, so the number of nodes on the
    stack bounds the rounds. *)
Fixpoint walk (fuel : nat) (n : Z) (stack : list (HNode * pyseq * pyseq))
  (key_dict sign_dict : dict Z pyseq) : result (dict Z pyseq * dict Z pyseq) :=
  match fuel with
  | O => Ok (key_dict, sign_dict)
  | S fuel' =>
      match stack with
      | [] => Ok (key_dict, sign_dict)
      | (node, signs, keys) :: stack =>
          if node_index node <? n then
            walk fuel' n stack
              (dict_set Z.eqb key_dict (node_index node) keys)
              (dict_set Z.eqb sign_dict (node_index node) signs)
          else
            match node with
            | Word _ => Raise AttributeError
            | Inner _ idx lft rgt =>
                let keys := NdArray (to_list keys ++ [wrap32 (idx - n)]) in
                walk fuel' n
                  ((rgt, NdArray (to_list signs ++ [1]), keys)
                   :: (lft, NdArray (to_list signs ++ [-1]), keys)
                   :: stack)
                  key_dict sign_dict
            end
      end
  end.

(** Lines 239-261: the heap, then the codes of the leaves.  The pair is
    [(key_dict, sign_dict)]. *)
Definition huffman_codes (w2v : dict string Vocab)
  : result (dict Z pyseq * dict Z pyseq) :=
  heap <- build_heap w2v ;;
  match heap with
  | [] => Ok ([], [])
  | root :: _ => walk (node_size root) (len w2v) [(root, PyList [], PyList [])] [] []
  end.

(** [np.max] of a one-dimensional integer array. *)
Definition np_max (l : list Z) : result Z :=
  match l with
  | [] => Raise ValueError
  | x :: t => Ok (fold_left Z.max t x)
  end.

Fixpoint map_result {A B : Type} (f : A -> result B) (l : list A)
  : result (list B) :=
  match l with
  | [] => Ok []
  | a :: t => b <- f a ;; t' <- map_result f t ;; Ok (b :: t')
  end.

Record hsm_tree : Type := mkHsmTree {
  keys_to_code_keys : list (list Z);
  keys_to_code_signs : list (list Z);
  max_code_key : Z
}.

(** Lines 271-278 for one key [k]: the row of keys, the row of signs and the
    running [max_code_key]. *)
Fixpoint fill_row (js : list Z) (c_len : Z) (ks ss : pyseq)
  (krow srow : list Z) (max_key : Z) : result (list Z * list Z * Z) :=
  match js with
  | [] => Ok (krow, srow, max_key)
  | j :: js' =>
      if j >=? c_len then
        krow <- store IndexError krow j (wrap32 (MAX_HSM_KEY + 1)) ;;
        fill_row js' c_len ks ss krow srow max_key
      else
        key <- lookup IndexError (to_list ks) j ;;
        sign <- lookup IndexError (to_list ss) j ;;
        krow <- store IndexError krow j (wrap32 key) ;;
        srow <- store IndexError srow j sign ;;
        fill_row js' c_len ks ss krow srow
          (if wrap32 key >? max_key then wrap32 key else max_key)
  end.

Definition zrange (n : Z) : list Z := map Z.of_nat (seq 0 (Z.to_nat n)).

Fixpoint fill_rows (keys : list Z) (key_dict sign_dict : dict Z pyseq)
  (max_code_len : Z) (t : hsm_tree) : result hsm_tree :=
  match keys with
  | [] => Ok t
  | k :: keys' =>
      ks <- dict_lookup Z.eqb key_dict k ;;
      c_len <- size ks ;;
      ss <- dict_lookup Z.eqb sign_dict k ;;
      krow <- lookup IndexError (keys_to_code_keys t) k ;;
      srow <- lookup IndexError (keys_to_code_signs t) k ;;
      '(krow, srow, mk) <-
         fill_row (zrange max_code_len) c_len ks ss krow srow (max_code_key t) ;;
      code_keys <- store IndexError (keys_to_code_keys t) k krow ;;
      code_signs <- store IndexError (keys_to_code_signs t) k srow ;;
      fill_rows keys' key_dict sign_dict max_code_len
        (mkHsmTree code_keys code_signs mk)
  end.

Definition zeros (rows cols : Z) : list (list Z) :=
  repeat (repeat 0 (Z.to_nat cols)) (Z.to_nat rows).

(** Lines 262-284. *)
Definition code_matrices (key_dict sign_dict : dict Z pyseq) : result hsm_tree :=
  sizes <- map_result size (dict_values key_dict) ;;
  max_code_len <- np_max sizes ;;
  max_word_key <- np_max (dict_keys key_dict) ;;
  fill_rows (dict_keys key_dict) key_dict sign_dict max_code_len
    (mkHsmTree (zeros (max_word_key + 1) max_code_len)
       (zeros (max_word_key + 1) max_code_len) 0).

Definition _create_binary_tree (w2v : dict string Vocab) : result hsm_tree :=
  '(key_dict, sign_dict) <- huffman_codes w2v ;;
  code_matrices key_dict sign_dict.

(** ** The sampling tables (lines 204-228 and 367-385) *)

(** The sweep both [_make_table] functions run: [table[tidx] = widx], then
    the cursor moves on when [float(tidx) / table_size] has passed [d1], the
    share of the new cursor is read and added, and only then is the cursor
    clamped to [size - 1].  [share_at] is the read of the cursor's share. *)
Fixpoint sweep (share_at : Z -> result float) (size table_size : Z)
  (rounds : nat) (tidx widx : Z) (d1 : float) : result (list Z) :=
  match rounds with
  | O => Ok []
  | S rounds' =>
      progress <- py_fdiv (Z2f tidx) (Z2f table_size) ;;
      '(widx', d1') <-
         (if PrimFloat.ltb d1 progress then
            s <- share_at (widx + 1) ;;
            Ok (widx + 1, PrimFloat.add d1 s)
          else Ok (widx, d1)) ;;
      let widx' := if widx' >=? size then size - 1 else widx' in
      rest <- sweep share_at size table_size rounds' (tidx + 1) widx' d1' ;;
      Ok (wrap32 widx :: rest)
  end.

Definition DEFAULT_TABLE_SIZE : Z := 20000000.

(** [0.75], the default [power]. *)
Definition DEFAULT_POWER : float := 0x1.8p-1%float.

Section NegTable.

(** [c ** power] for an integer [c] and a float [power]: the C library's
    [pow], which the embedding takes as given. *)
Variable py_pow : Z -> float -> float.

Definition neg_share (w2v : dict string Vocab) (k2w : dict Z string)
  (power power_sum : float) (widx : Z) : result float :=
  word <- dict_lookup Z.eqb k2w widx ;;
  v <- dict_lookup String.eqb w2v word ;;
  py_fdiv (py_pow (count v) power) power_sum.

Definition _make_table (w2v : dict string Vocab) (k2w : dict Z string)
  (w2k : dict string Z) (table_size : Z) (power : float) : result (list Z) :=
  let vocab_size := len k2w in
  if table_size <? 0 then Raise ValueError
  else
    let power_sum :=
      fsum (map (fun v => py_pow (count v) power) (dict_values w2v)) in
    d1 <- neg_share w2v k2w power power_sum 0 ;;
    sweep (neg_share w2v k2w power power_sum) vocab_size table_size
      (Z.to_nat table_size) 0 0 d1.

(** ** build_vocab (lines 71-186) *)

Record vocab_result : Type := mkVocabResult {
  words_to_vocabs : dict string Vocab;
  words_to_keys : dict string Z;
  keys_to_words : dict Z string;
  unk_word : string;
  hs_tree : option hsm_tree;
  ns_table : option (list Z)
}.

Definition build_vocab (sentences : list (list string)) (min_count : Z)
  (compute_hs_tree compute_ns_table : bool) (down_sample : float)
  : result vocab_result :=
  st <- build_index sentences min_count ;;
  w2v <- _precalc_downsampling (st_w2v st) down_sample ;;
  hs <- (if compute_hs_tree then
           t <- _create_binary_tree w2v ;; Ok (Some t)
         else Ok None) ;;
  ns <- (if compute_ns_table then
           t <- _make_table w2v (st_k2w st) (st_w2k st) DEFAULT_TABLE_SIZE
                  DEFAULT_POWER ;;
           Ok (Some t)
         else Ok None) ;;
  Ok (mkVocabResult w2v (st_w2k st) (st_k2w st) UNK hs ns).

End NegTable.

(** ** Training-example sampling (lines 305-350) *)

(** Python's [a % b] on integers. *)
Definition py_mod (a b : Z) : result Z :=
  if b =? 0 then Raise ZeroDivisionError else Ok (a mod b).

(** Lines 321-324: [c_idx] starts at [a_idx], so the body runs at least
    once; every round reads one entry of the pool, which bounds the rounds
    (reading past the pool is an [IndexError]). *)
Fixpoint resample (fuel : nat) (rand_pool : list Z) (a_idx c_min c_span : Z)
  (ri : Z) : result (Z * Z) :=
  match fuel with
  | O => Raise IndexError
  | S fuel' =>
      x <- lookup IndexError rand_pool ri ;;
      m <- py_mod x c_span ;;
      let c_idx := c_min + m in
      let ri := wrap32 (ri + 1) in
      if c_idx =? a_idx then resample fuel' rand_pool a_idx c_min c_span ri
      else Ok (c_idx, ri)
  end.

(** Lines 310-324 for one [r]: the anchor position, the window radius, the
    context position and the cursor of the pool. *)
Definition pair_draw (phrase : list Z) (max_window : Z) (rand_pool : list Z)
  (ri : Z) : result (Z * Z * Z * Z) :=
  let phrase_len := len phrase in
  x <- lookup IndexError rand_pool ri ;;
  a_idx <- py_mod x phrase_len ;;
  let ri := wrap32 (ri + 1) in
  y <- lookup IndexError rand_pool ri ;;
  w <- py_mod y max_window ;;
  let red_win := w + 1 in
  let ri := wrap32 (ri + 1) in
  let c_min := a_idx - red_win in
  let c_min := if c_min <? 0 then 0 else c_min in
  let c_max := a_idx + red_win in
  let c_max := if c_max >=? phrase_len then phrase_len - 1 else c_max in
  let c_span := c_max - c_min + 1 in
  '(c_idx, ri) <-
     resample (length rand_pool) rand_pool a_idx c_min c_span ri ;;
  Ok (a_idx, red_win, c_idx, ri).

(** [fast_pair_sample]: the state is [(anc_keys, pos_keys, ri[0])]. *)
Fixpoint fast_pair_loop (rounds : nat) (r : Z) (phrase : list Z)
  (max_window i : Z) (anc_keys pos_keys rand_pool : list Z) (ri : Z)
  : result (list Z * list Z * Z) :=
  match rounds with
  | O => Ok (anc_keys, pos_keys, ri)
  | S rounds' =>
      let j := i + r in
      '(a_idx, _, c_idx, ri) <- pair_draw phrase max_window rand_pool ri ;;
      a <- lookup IndexError phrase a_idx ;;
      anc_keys <- store IndexError anc_keys j a ;;
      c <- lookup IndexError phrase c_idx ;;
      pos_keys <- store IndexError pos_keys j c ;;
      fast_pair_loop rounds' (r + 1) phrase max_window i anc_keys pos_keys
        rand_pool ri
  end.

Definition fast_pair_sample (phrase : list Z) (max_window i repeats : Z)
  (anc_keys pos_keys rand_pool : list Z) (ri : Z)
  : result (list Z * list Z * Z) :=
  fast_pair_loop (Z.to_nat repeats) 0 phrase max_window i anc_keys pos_keys
    rand_pool ri.

(** Lines 337-340: the stop position and the cursor of the pool. *)
Definition seq_draw (phrase : list Z) (rand_pool : list Z) (ri : Z)
  : result (Z * Z) :=
  x <- lookup IndexError rand_pool ri ;;
  m <- py_mod x (len phrase - 1) ;;
  Ok (m + 1, wrap32 (ri + 1)).

(** [m[j, c] = x] on a two-dimensional array. *)
Definition store2 (m : list (list Z)) (j c : Z) (x : Z)
  : result (list (list Z)) :=
  row <- lookup IndexError m j ;;
  row <- store IndexError row c x ;;
  store IndexError m j row.

(** Lines 342-349: the [while cur_pos < gram_n] loop. *)
Fixpoint seq_fill (rounds : nat) (cur_pos : Z) (phrase pad_key : list Z)
  (start_idx j : Z) (key_seqs : list (list Z)) : result (list (list Z)) :=
  match rounds with
  | O => Ok key_seqs
  | S rounds' =>
      key <- (if start_idx + cur_pos <? 0 then lookup IndexError pad_key 0
              else lookup IndexError phrase (start_idx + cur_pos)) ;;
      key_seqs <- store2 key_seqs j cur_pos key ;;
      seq_fill rounds' (cur_pos + 1) phrase pad_key start_idx j key_seqs
  end.

(** [fast_seq_sample]: the state is [(key_seqs, ri[0])]. *)
Fixpoint fast_seq_loop (rounds : nat) (r : Z) (phrase : list Z) (gram_n : Z)
  (pad_key : list Z) (i : Z) (key_seqs : list (list Z)) (rand_pool : list Z)
  (ri : Z) : result (list (list Z) * Z) :=
  match rounds with
  | O => Ok (key_seqs, ri)
  | S rounds' =>
      let j := i + r in
      '(stop_idx, ri) <- seq_draw phrase rand_pool ri ;;
      let start_idx := stop_idx - gram_n + 1 in
      key_seqs <-
        seq_fill (Z.to_nat gram_n) 0 phrase pad_key start_idx j key_seqs ;;
      fast_seq_loop rounds' (r + 1) phrase gram_n pad_key i key_seqs
        rand_pool ri
  end.

Definition fast_seq_sample (phrase : list Z) (gram_n : Z) (pad_key : list Z)
  (i repeats : Z) (key_seqs : list (list Z)) (rand_pool : list Z) (ri : Z)
  : result (list (list Z) * Z) :=
  fast_seq_loop (Z.to_nat repeats) 0 phrase gram_n pad_key i key_seqs
    rand_pool ri.

(** ** PhraseSampler (lines 352-434) *)

Record PhraseSampler : Type := mkPhraseSampler {
  max_window : Z;
  phrase_list : list (list Z);
  phrase_table : list Z;
  max_phrase_key : Z;
  pt_size : Z
}.

(** [phrase_lens[widx] / len_sum] on numpy floats: no exception on a zero
    divisor, an [IndexError] past the array. *)
Definition phrase_share (phrase_lens : list float) (len_sum : float) (widx : Z)
  : result float :=
  l <- lookup IndexError phrase_lens widx ;;
  Ok (PrimFloat.div l len_sum).

Definition PhraseSampler_make_table (p_list : list (list Z)) (table_size : Z)
  : result (list Z) :=
  let phrase_count := len p_list in
  let phrase_lens := map (fun p : list Z => Z2f (len p)) p_list in
  let len_sum := fsum phrase_lens in
  if table_size <? 0 then Raise ValueError
  else
    d1 <- phrase_share phrase_lens len_sum 0 ;;
    sweep (phrase_share phrase_lens len_sum) phrase_count table_size
      (Z.to_nat table_size) 0 0 d1.

(** The body of [__init__] for a table of [table_size] entries. *)
Definition PhraseSampler_new (table_size : Z) (phrase_list : list (list Z))
  (max_window max_phrase_key : Z) : result PhraseSampler :=
  table <- PhraseSampler_make_table phrase_list table_size ;;
  Ok (mkPhraseSampler max_window phrase_list table
        (Z.min (len phrase_list) max_phrase_key) (len table)).

(** [__init__]: the table has its default size. *)
Definition PhraseSampler_init : list (list Z) -> Z -> Z -> result PhraseSampler :=
  PhraseSampler_new DEFAULT_TABLE_SIZE.

(** Lines 398-400: the largest group size below 6 that divides
    [sample_count]. *)
Fixpoint shrink_repeats (fuel : nat) (sample_count repeats : Z) : Z :=
  match fuel with
  | O => repeats
  | S fuel' =>
      if sample_count mod repeats =? 0 then repeats
      else shrink_repeats fuel' sample_count (repeats - 1)
  end.

Definition group_size (sample_count : Z) : Z := shrink_repeats 4 sample_count 5.

(** [a[i:i+n] = x]. *)
Fixpoint fill_slice {A : Type} (a : list A) (i n : nat) (x : A) : list A :=
  match a, i, n with
  | [], _, _ => []
  | _, O, O => a
  | _ :: t, O, S n' => x :: fill_slice t O n' x
  | h :: t, S i', _ => h :: fill_slice t i' n x
  end.

(** [np.minimum(self.max_phrase_key, phrase_keys).astype(np.uint32)]. *)
Definition cap_keys (max_phrase_key : Z) (phrase_keys : list Z) : list Z :=
  map (fun k => wrap32 (Z.min max_phrase_key k)) phrase_keys.

(** Lines 401-406; the state is [(anc_keys, pos_keys, phrase_keys, ri[0])]. *)
Fixpoint pairs_loop (rounds : nat) (self : PhraseSampler) (i repeats : Z)
  (anc_keys pos_keys phrase_keys rand_pool : list Z) (ri : Z)
  : result (list Z * list Z * list Z) :=
  match rounds with
  | O => Ok (anc_keys, pos_keys, phrase_keys)
  | S rounds' =>
      pt_idx <- lookup IndexError rand_pool ri ;;
      let ri := wrap32 (ri + 1) in
      key <- lookup IndexError (phrase_table self) pt_idx ;;
      let phrase_keys :=
        fill_slice phrase_keys (Z.to_nat i) (Z.to_nat repeats) key in
      pk <- lookup IndexError phrase_keys i ;;
      phrase <- lookup IndexError (phrase_list self) pk ;;
      '(anc_keys, pos_keys, ri) <-
         fast_pair_sample phrase (max_window self) i repeats anc_keys pos_keys
           rand_pool ri ;;
      pairs_loop rounds' self (i + repeats) repeats anc_keys pos_keys
        phrase_keys rand_pool ri
  end.

(** [sample_pairs]; [rand_pool] is the outcome of
    [npr.randint(0, high=self.pt_size, size=(10*sample_count,))]. *)
Definition sample_pairs (self : PhraseSampler) (sample_count : Z)
  (rand_pool : list Z) : result (list Z * list Z * list Z) :=
  if sample_count <? 0 then Raise ValueError
  else
    let anc_keys := repeat 0 (Z.to_nat sample_count) in
    let pos_keys := repeat 0 (Z.to_nat sample_count) in
    let phrase_keys := repeat 0 (Z.to_nat sample_count) in
    let rand_pool := map wrap32 rand_pool in
    let repeats := group_size sample_count in
    '(anc_keys, pos_keys, phrase_keys) <-
       pairs_loop (Z.to_nat (sample_count / repeats)) self 0 repeats anc_keys
         pos_keys phrase_keys rand_pool 0 ;;
    Ok (anc_keys, pos_keys, cap_keys (max_phrase_key self) phrase_keys).

(** Lines 426-431; the state is [(key_seqs, phrase_keys, ri[0])]. *)
Fixpoint ngrams_loop (rounds : nat) (self : PhraseSampler) (i repeats : Z)
  (gram_n : Z) (pad_key : list Z) (key_seqs : list (list Z))
  (phrase_keys rand_pool : list Z) (ri : Z)
  : result (list (list Z) * list Z) :=
  match rounds with
  | O => Ok (key_seqs, phrase_keys)
  | S rounds' =>
      pt_idx <- lookup IndexError rand_pool ri ;;
      let ri := wrap32 (ri + 1) in
      key <- lookup IndexError (phrase_table self) pt_idx ;;
      let phrase_keys :=
        fill_slice phrase_keys (Z.to_nat i) (Z.to_nat repeats) key in
      pk <- lookup IndexError phrase_keys i ;;
      phrase <- lookup IndexError (phrase_list self) pk ;;
      '(key_seqs, ri) <-
         fast_seq_sample phrase gram_n pad_key i repeats key_seqs rand_pool
           ri ;;
      ngrams_loop rounds' self (i + repeats) repeats gram_n pad_key key_seqs
        phrase_keys rand_pool ri
  end.

(** [sample_ngrams] with an integer [pad_key]. *)
Definition sample_ngrams (self : PhraseSampler) (sample_count gram_n : Z)
  (pad_key : Z) (rand_pool : list Z) : result (list (list Z) * list Z) :=
  if (sample_count <? 0) || (gram_n <? 0) then Raise ValueError
  else
    let key_seqs := zeros sample_count gram_n in
    let phrase_keys := repeat 0 (Z.to_nat sample_count) in
    let pad_key := [wrap32 pad_key] in
    let rand_pool := map wrap32 rand_pool in
    let repeats := group_size sample_count in
    '(key_seqs, phrase_keys) <-
       ngrams_loop (Z.to_nat (sample_count / repeats)) self 0 repeats gram_n
         pad_key key_seqs phrase_keys rand_pool 0 ;;
    Ok (key_seqs, cap_keys (max_phrase_key self) phrase_keys).

(** ** NegSampler (lines 436-455) *)

Record NegSampler : Type := mkNegSampler {
  neg_table : list Z;
  neg_table_size : Z;
  neg_count : Z
}.

Definition NegSampler_init (neg_table : list Z) (neg_count : Z) : NegSampler :=
  mkNegSampler neg_table (len neg_table) neg_count.

(** [m[:, i] = col]. *)
Fixpoint set_column (m : list (list Z)) (i : Z) (col : list Z)
  : result (list (list Z)) :=
  match m, col with
  | [], _ => Ok []
  | _ :: _, [] => Raise ValueError
  | row :: m', x :: col' =>
      row <- store IndexError row i x ;;
      m' <- set_column m' i col' ;;
      Ok (row :: m')
  end.

(** Lines 452-453; [neg_idx] is the matrix of drawn table positions. *)
Fixpoint neg_columns (self : NegSampler) (cols : list Z)
  (neg_idx neg_keys : list (list Z)) : result (list (list Z)) :=
  match cols with
  | [] => Ok neg_keys
  | i :: cols' =>
      col <- map_result
               (fun row => p <- lookup IndexError row i ;;
                           lookup IndexError (neg_table self) p)
               neg_idx ;;
      neg_keys <- set_column neg_keys i col ;;
      neg_columns self cols' neg_idx neg_keys
  end.

(** [sample], [requested] being its argument [neg_count]; [neg_idx] is the
    outcome of
    [npr.randint(0, high=self.neg_table_size, size=neg_keys.shape)], which
    raises when [high] is not positive. *)
Definition sample (self : NegSampler) (sample_count requested : Z)
  (neg_idx : list (list Z)) : result (list (list Z)) :=
  let neg_count := if requested =? 0 then neg_count self else requested in
  if (sample_count <? 0) || (neg_count <? 0) then Raise ValueError
  else
    let neg_keys := zeros sample_count neg_count in
    if neg_table_size self <=? 0 then Raise ValueError
    else
      neg_keys <- neg_columns self (zrange neg_count) neg_idx neg_keys ;;
      Ok (map (map wrap32) neg_keys).

(** * Vocabulary of the properties *)

(** The number of raw token occurrences of a corpus. *)
Definition corpus_tokens (sentences : list (list string)) : Z :=
  len (concat sentences).

(** The summed [count] of a vocabulary. *)
Definition total_count (w2v : dict string Vocab) : Z :=
  sumZ (map count (dict_values w2v)).

(** The retention probability as the specification words it:
    [min(1, sqrt(down_sample / (count / total_count)))]. *)
Definition stated_prob (down_sample : float) (c total : Z) : float :=
  py_min fone
    (PrimFloat.sqrt (PrimFloat.div down_sample (PrimFloat.div (Z2f c) (Z2f total)))).

(** What line 201 computes when sampling is on. *)
Definition sampled_prob (down_sample : float) (c total : Z) : float :=
  py_min
    (PrimFloat.sqrt (PrimFloat.div down_sample (PrimFloat.div (Z2f c) (Z2f total))))
    fone.

(** The state of the key-assignment loop once the items [processed] of
    [raw_vocab] have been visited. *)
Definition index_inv (processed : dict string Z) (st : index_state) : Prop :=
  NoDup (dict_keys (st_w2v st))
  /\ incl (dict_keys (st_w2v st)) (dict_keys processed)
  /\ (In UNK (dict_keys processed) -> In UNK (dict_keys (st_w2v st)))
  /\ st_w2k st = map (fun e => (fst e, index (snd e))) (st_w2v st)
  /\ st_k2w st = map (fun e => (index (snd e), fst e)) (st_w2v st)
  /\ map (fun e => index (snd e)) (st_w2v st) = zrange (st_idx st)
  /\ 0 <= st_idx st
  /\ total_count (st_w2v st) + st_unk st = sumZ (dict_values processed).

(** The three maps [build_vocab] returns, for a corpus of [total] tokens. *)
Definition vocab_inv (total : Z) (w2v : dict string Vocab)
  (w2k : dict string Z) (k2w : dict Z string) : Prop :=
  NoDup (dict_keys w2v)
  /\ In UNK (dict_keys w2v)
  /\ w2k = map (fun e => (fst e, index (snd e))) w2v
  /\ k2w = map (fun e => (index (snd e), fst e)) w2v
  /\ map (fun e => index (snd e)) w2v = zrange (len w2v)
  /\ total_count w2v = total.

(** How often [w] occurs in a list of tokens. *)
Definition occurrences (tokens : list string) (w : string) : Z :=
  Z.of_nat (count_occ String.string_dec tokens w).

(** A dictionary of counts holds exactly the words that occurred. *)
Definition counts_of (tokens : list string) (rv : dict string Z) : Prop :=
  forall w,
    dict_get String.eqb rv w
    = if occurrences tokens w =? 0 then None else Some (occurrences tokens w).

(** Retained words other than the unknown word keep their raw count, which
    meets the threshold; every raw word that meets it is retained. *)
Definition counts_inv (min_count : Z) (raw : dict string Z)
  (w2v : dict string Vocab) : Prop :=
  (forall w v, In (w, v) w2v -> w <> UNK ->
     In (w, count v) raw /\ min_count <= count v)
  /\ (forall w c, In (w, c) raw -> min_count <= c -> In w (dict_keys w2v)).

(** What [_precalc_downsampling] does to one item. *)
Definition downsampled (sample : bool) (down_sample : float) (total : Z)
  (a b : string * Vocab) : Prop :=
  fst b = fst a /\ count (snd b) = count (snd a)
  /\ index (snd b) = index (snd a)
  /\ exists p, retention sample down_sample total (snd a) = Ok p
               /\ sample_prob (snd b) = Some p.

(** A small corpus: "the" three times, "cat" twice, "dog" once. *)
Definition example_corpus : list (list string) :=
  [["the"; "cat"; "the"]; ["dog"; "the"; "cat"]]%string.

(** A stand-in for the C library's [pow] where its values do not matter. *)
Definition pow_stub (c : Z) (power : float) : float := Z2f c.

(** The literals [1e-3] and [1e-9]. *)
Definition f1e3 : float := 0x1.0624dd2f1a9fcp-10%float.
Definition f1e9 : float := 0x1.12e0be826d695p-30%float.

(** An outcome of [npr.randint(0, high, size=(rows, cols))]. *)
Definition randint_matrix (high rows cols : Z) (m : list (list Z)) : Prop :=
  len m = rows
  /\ Forall (fun row => len row = cols /\ Forall (fun x => 0 <= x < high) row) m.

(** The values a [uint32] array can hold. *)
Definition is_uint32 (x : Z) : Prop := 0 <= x < 2 ^ 32.

(** The stop position [fast_seq_sample] derives from the pool entry [x]. *)
Definition stop_of (phrase : list Z) (x : Z) : Z := x mod (len phrase - 1) + 1.

(** The row of an n-gram that stops at [stop_idx]: position [pos] holds
    [pad] where [start_idx + pos] is negative and the phrase key at
    [start_idx + pos] elsewhere. *)
Definition ngram (phrase : list Z) (pad gram_n stop_idx : Z) : list Z :=
  map (fun pos =>
         let e := stop_idx - gram_n + 1 + pos in
         if e <? 0 then pad else nth (Z.to_nat e) phrase 0)
      (zrange gram_n).

(** Twenty draws of [npr.randint(0, high=8, ...)], the pool of a call
    [sample_pairs(2)] on a sampler whose table has eight entries. *)
Definition example_pool : list Z :=
  [7; 0; 1; 1; 0; 3; 1; 6; 2; 5; 4; 0; 7; 3; 2; 6; 1; 5; 0; 4].

(** Two phrases: five keys and two keys. *)
Definition example_phrases : list (list Z) := [[10; 11; 12; 13; 14]; [3; 4]].

(** ** The heap order *)

(** An order given by an integer key, as [Vocab.__lt__] is by [count]. *)
Definition key_lt {A : Type} (key : A -> Z) (a b : A) : bool := key a <? key b.

(** [c] is a child position of [p]. *)
Definition child (p c : nat) : Prop :=
  c = (2 * p + 1)%nat \/ c = (2 * p + 2)%nat.

(** The item at [p], if any, is not above the item at [c], if any. *)
Definition le_at {A : Type} (key : A -> Z) (h : list A) (p c : nat) : Prop :=
  forall x y, nth_error h p = Some x -> nth_error h c = Some y -> key x <= key y.

(** The heap invariant on every parent position from [s] on; at [s = 0] it
    is heapq's invariant [heap[k] <= heap[2*k+1]] and [heap[k] <= heap[2*k+2]]. *)
Definition heap_from {A : Type} (key : A -> Z) (s : nat) (h : list A) : Prop :=
  forall p c, (s <= p)%nat -> child p c -> le_at key h p c.

(** The positions of the subtree rooted at [s]. *)
Inductive desc (s : nat) : nat -> Prop :=
| desc_root : desc s s
| desc_left (p : nat) : desc s p -> desc s (2 * p + 1)
| desc_right (p : nat) : desc s p -> desc s (2 * p + 2).

(** [_siftdown] at work: [x] is to be placed, the hole is at [pos]; every
    pair that avoids the hole is in order, [x] is not above the children of
    the hole, and the parent of the hole is not above these children. *)
Definition up_inv {A : Type} (key : A -> Z) (s : nat) (h : list A) (pos : nat)
  (x : A) : Prop :=
  (pos < length h)%nat
  /\ (forall p c, (s <= p)%nat -> child p c -> c <> pos -> p <> pos ->
        le_at key h p c)
  /\ (forall c y, child pos c -> nth_error h c = Some y -> key x <= key y)
  /\ (forall p c, (s <= p)%nat -> child p pos -> child pos c -> le_at key h p c).

(** [_siftup] at work, the hole at [pos] still holding its old item: every
    pair is in order, those under [s] itself only once the hole has left
    [s]. *)
Definition down_inv {A : Type} (key : A -> Z) (s : nat) (h : list A)
  (pos : nat) : Prop :=
  (pos < length h)%nat
  /\ desc s pos
  /\ (forall p c, (s <= p)%nat -> child p c -> (p = s -> pos <> s) ->
        le_at key h p c).

(** ** Codes and their cost *)

(** The multisets of leaf depths of the binary trees in which every inner
    node has two children. *)
Inductive valid : list nat -> Prop :=
| valid_leaf : valid [O]
| valid_node (l1 l2 : list nat) :
    valid l1 -> valid l2 -> valid (map S l1 ++ map S l2)
| valid_perm (l l' : list nat) : valid l -> Permutation l l' -> valid l'.

(** The cost of giving each weight a depth. *)
Definition pcost (P : list (Z * nat)) : Z :=
  sumZ (map (fun e => fst e * Z.of_nat (snd e)) P).

(** [a] is a prefix of [b]. *)
Definition is_prefix {A : Type} (a b : list A) : Prop := exists c, b = a ++ c.

(** A binary prefix code: no codeword is a prefix of another one. *)
Definition prefix_code (codes : list (list bool)) : Prop :=
  forall i j a b,
    nth_error codes i = Some a -> nth_error codes j = Some b -> i <> j ->
    ~ is_prefix a b.

(** The same, by recursion on the list. *)
Fixpoint pfree (codes : list (list bool)) : Prop :=
  match codes with
  | [] => True
  | c :: rest =>
      Forall (fun c' => ~ is_prefix c c' /\ ~ is_prefix c' c) rest /\ pfree rest
  end.

(** The total weighted length of a code for the vocabulary items taken in
    order. *)
Definition code_cost (counts : list Z) (codes : list (list bool)) : Z :=
  sumZ (map (fun e => fst e * len (snd e)) (combine counts codes)).

(** The weighted codewords that start with [b], without that first bit. *)
Fixpoint split_bit (b : bool) (cs : list (Z * list bool))
  : list (Z * list bool) :=
  match cs with
  | [] => []
  | (_, []) :: t => split_bit b t
  | (w, x :: c) :: t =>
      if Bool.eqb x b then (w, c) :: split_bit b t else split_bit b t
  end.

Definition total_len (cs : list (Z * list bool)) : nat :=
  fold_right (fun e acc => (length (snd e) + acc)%nat) O cs.

(** ** Huffman trees *)

(** The vocabulary items at the leaves, in the order the walk visits them. *)
Fixpoint leaves (t : HNode) : list Vocab :=
  match t with
  | Word v => [v]
  | Inner _ _ l r => leaves r ++ leaves l
  end.

(** The weighted path length below a node that sits at depth [d]. *)
Fixpoint cost_at (d : Z) (t : HNode) : Z :=
  match t with
  | Word v => count v * d
  | Inner _ _ l r => cost_at (d + 1) l + cost_at (d + 1) r
  end.

(** The nodes the merge loop builds for a vocabulary of [n] items: items
    carry an index below [n], merged nodes an index from [n] on and the sum
    of the counts of their children. *)
Fixpoint node_ok (n : Z) (t : HNode) : Prop :=
  match t with
  | Word v => index v < n
  | Inner c i l r =>
      c = node_count l + node_count r /\ n <= i /\ node_ok n l /\ node_ok n r
  end.

(** The paths the walk assigns below a node reached with [signs] and
    [keys], in the order of the visits. *)
Fixpoint codes_at (n : Z) (t : HNode) (signs keys : pyseq)
  : list (Vocab * (pyseq * pyseq)) :=
  match t with
  | Word v => [(v, (signs, keys))]
  | Inner _ idx l r =>
      let keys' := NdArray (to_list keys ++ [wrap32 (idx - n)]) in
      codes_at n r (NdArray (to_list signs ++ [1])) keys'
      ++ codes_at n l (NdArray (to_list signs ++ [-1])) keys'
  end.

(** What the tree builder needs of a vocabulary: distinct indexes below its
    size, as [build_vocab] assigns them, and counts that are not negative. *)
Definition tree_input (w2v : dict string Vocab) : Prop :=
  NoDup (map index (dict_values w2v))
  /\ Forall (fun v => 0 <= index v < len w2v /\ 0 <= count v) (dict_values w2v).

(** The length of the code of a vocabulary item. *)
Definition code_length (key_dict : dict Z pyseq) (v : Vocab) : Z :=
  match dict_get Z.eqb key_dict (index v) with
  | Some keys => len (to_list keys)
  | None => 0
  end.

(** Sigma count_i * code_length_i. *)
Definition weighted_path_length (w2v : dict string Vocab)
  (key_dict : dict Z pyseq) : Z :=
  sumZ (map (fun v => count v * code_length key_dict v) (dict_values w2v)).

(** The paths the walk assigns to what is on its stack. *)
Definition stack_codes (n : Z) (stack : list (HNode * pyseq * pyseq))
  : list (Vocab * (pyseq * pyseq)) :=
  flat_map (fun e => codes_at n (fst (fst e)) (snd (fst e)) (snd e)) stack.

(** The two dictionaries after the stores of a list of paths. *)
Definition store_keys (codes : list (Vocab * (pyseq * pyseq)))
  (key_dict : dict Z pyseq) : dict Z pyseq :=
  fold_left (fun d e => dict_set Z.eqb d (index (fst e)) (snd (snd e)))
    codes key_dict.

Definition store_signs (codes : list (Vocab * (pyseq * pyseq)))
  (sign_dict : dict Z pyseq) : dict Z pyseq :=
  fold_left (fun d e => dict_set Z.eqb d (index (fst e)) (fst (snd e)))
    codes sign_dict.

(** The sign sequence of a vocabulary item. *)
Definition sign_code (sign_dict : dict Z pyseq) (v : Vocab) : list Z :=
  match dict_get Z.eqb sign_dict (index v) with
  | Some signs => to_list signs
  | None => []
  end.

(** The counts of the textbook example, keyed in order. *)
Definition textbook : dict string Vocab :=
  [("a", mkVocab 5 0 None); ("b", mkVocab 9 1 None); ("c", mkVocab 12 2 None);
   ("d", mkVocab 13 3 None); ("e", mkVocab 16 4 None); ("f", mkVocab 45 5 None)
  ]%string.

(** The code lengths in the padded matrix: the entries of a row that are not
    the padding key [MAX_HSM_KEY + 1]. *)
Definition padded_lengths (t : hsm_tree) : list Z :=
  map (fun row => len (filter (fun k => negb (k =? MAX_HSM_KEY + 1)) row))
    (keys_to_code_keys t).

(** A row of the key matrix: the keys of a code, then the padding key up to
    the width of the matrix. *)
Definition padded_row (keys : list Z) (width : Z) : list Z :=
  keys ++ repeat (MAX_HSM_KEY + 1) (Z.to_nat (width - len keys)).

(** The cell [fill_row] writes at column [j] of the row of [ks]. *)
Definition key_cell (ks : pyseq) (j : nat) : Z :=
  match nth_error (to_list ks) j with
  | Some k => wrap32 k
  | None => wrap32 (MAX_HSM_KEY + 1)
  end.

(** The two matrices have [rows] rows of [width] cells. *)
Definition matrix_shape (rows width : nat) (t : hsm_tree) : Prop :=
  length (keys_to_code_keys t) = rows
  /\ length (keys_to_code_signs t) = rows
  /\ Forall (fun r => length r = width) (keys_to_code_keys t)
  /\ Forall (fun r => length r = width) (keys_to_code_signs t).

(** The codes of key [k] fit a matrix of [rows] rows of [width] cells. *)
Definition row_ready (key_dict sign_dict : dict Z pyseq) (rows width : nat)
  (k : Z) : Prop :=
  exists ksl ss,
    dict_get Z.eqb key_dict k = Some (NdArray ksl)
    /\ dict_get Z.eqb sign_dict k = Some ss
    /\ length (to_list ss) = length ksl
    /\ (length ksl <= width)%nat
    /\ 0 <= k < Z.of_nat rows.

(** The key sequence of a vocabulary item. *)
Definition key_code (key_dict : dict Z pyseq) (v : Vocab) : list Z :=
  match dict_get Z.eqb key_dict (index v) with
  | Some keys => to_list keys
  | None => []
  end.

(** ** sample_phrases (lines 286-299) *)

(** Lines 291-294: the key of a word, the key of [unk_word] for a word that
    is not in [words_to_keys]. *)
Definition word_key (words_to_keys : dict string Z) (unk_word word : string)
  : result Z :=
  if dict_mem String.eqb words_to_keys word
  then dict_lookup String.eqb words_to_keys word
  else dict_lookup String.eqb words_to_keys unk_word.

(** The loop over [enumerate(text_blob)], storing into the [uint32] array
    [p_keys]. *)
Fixpoint encode_blob (words_to_keys : dict string Z) (unk_word : string)
  (text_blob : list string) (i : Z) (p_keys : list Z) : result (list Z) :=
  match text_blob with
  | [] => Ok p_keys
  | word :: rest =>
      k <- word_key words_to_keys unk_word word ;;
      p_keys <- store IndexError p_keys i (wrap32 k) ;;
      encode_blob words_to_keys unk_word rest (i + 1) p_keys
  end.

(** The loop over [text_stream]; the limit is tested after the append. *)
Fixpoint sample_phrases_loop (text_stream : list (list string))
  (words_to_keys : dict string Z) (unk_word : string) (max_phrases : Z)
  (phrases : list (list Z)) : result (list (list Z)) :=
  match text_stream with
  | [] => Ok phrases
  | text_blob :: rest =>
      p_keys <- encode_blob words_to_keys unk_word text_blob 0
                  (repeat 0 (length text_blob)) ;;
      let phrases := phrases ++ [p_keys] in
      if len phrases >=? max_phrases then Ok phrases
      else sample_phrases_loop rest words_to_keys unk_word max_phrases phrases
  end.

Definition sample_phrases (text_stream : list (list string))
  (words_to_keys : dict string Z) (unk_word : string) (max_phrases : Z)
  : result (list (list Z)) :=
  sample_phrases_loop text_stream words_to_keys unk_word max_phrases [].

(** ** Encoded phrases *)

(** The key [sample_phrases] writes for a word when it writes one. *)
Definition key_of (words_to_keys : dict string Z) (unk_word word : string) : Z :=
  match dict_get String.eqb words_to_keys word with
  | Some k => k
  | None =>
      match dict_get String.eqb words_to_keys unk_word with
      | Some k => k
      | None => 0
      end
  end.

(** The blobs [sample_phrases] reads before it stops: all of them under the
    limit, and never less than one. *)
Definition blobs_read (text_stream : list (list string)) (max_phrases : Z)
  : list (list string) :=
  firstn (Z.to_nat (Z.max 1 max_phrases)) text_stream.

(** The word a key stands for after [build_vocab]: the word itself when it
    was kept, the unknown word otherwise. *)
Definition decoded (words_to_keys : dict string Z) (word : string) : string :=
  if dict_mem String.eqb words_to_keys word then word else UNK.

(** ** More on the Huffman tree *)

(** The items at the leaves with their depths, below a node at depth [d],
    in the order the walk visits them. *)
Fixpoint depths_at (d : nat) (t : HNode) : list (Vocab * nat) :=
  match t with
  | Word v => [(v, d)]
  | Inner _ _ l r => depths_at (S d) r ++ depths_at (S d) l
  end.

(** A profile of weighted depths from items with depths. *)
Definition profile (D : list (Vocab * nat)) : list (Z * nat) :=
  map (fun e => (count (fst e), snd e)) D.

(** Every merged node of [t] carries an index below [m] and below the
    index of its parent. *)
Fixpoint below (m : Z) (t : HNode) : Prop :=
  match t with
  | Word _ => True
  | Inner _ idx l r => idx < m /\ below idx l /\ below idx r
  end.

(** Keys that fall strictly from under [b], none negative. *)
Fixpoint decreasing_from (b : Z) (l : list Z) : Prop :=
  match l with
  | [] => True
  | x :: l' => 0 <= x < b /\ decreasing_from x l'
  end.

(** A row of the sign matrix: the signs of a code, then zeros up to the
    width of the matrix. *)
Definition padded_signs (signs : list Z) (width : Z) : list Z :=
  signs ++ repeat 0 (Z.to_nat (width - len signs)).

(** The cell [fill_row] leaves at column [j] of a sign row that was [old]. *)
Definition sign_cell (ss : pyseq) (M : nat) (old : option Z) (j : nat)
  : option Z :=
  match nth_error (to_list ss) j with
  | Some s => if (j <? M)%nat then Some s else None
  | None => old
  end.

(** ** Sampling tables *)

(** Entries that go on from [x] by steps of zero or one. *)
Fixpoint climbs (x : Z) (l : list Z) : Prop :=
  match l with
  | [] => True
  | y :: l' => (y = x \/ y = x + 1) /\ climbs y l'
  end.

(** A table that starts at key 0 and climbs by steps of zero or one: it is
    sorted and skips no key below its last entry. *)
Definition staircase (table : list Z) : Prop :=
  match table with
  | [] => True
  | x :: rest => x = 0 /\ climbs 0 rest
  end.

(** A vocabulary of two words, three and one occurrences. *)
Definition two_words : dict string Vocab :=
  [("a", mkVocab 3 0 None); ("b", mkVocab 1 1 None)]%string.

(** ** Samples *)

(** The keys [a] and [c] stand at two different positions of the phrase, no
    more than [mw] apart. *)
Definition pair_in (phrase : list Z) (mw : Z) (a c : Z) : Prop :=
  exists a_idx c_idx,
    0 <= a_idx < len phrase
    /\ 0 <= c_idx < len phrase
    /\ c_idx <> a_idx
    /\ a_idx - mw <= c_idx <= a_idx + mw
    /\ a = nth (Z.to_nat a_idx) phrase 0
    /\ c = nth (Z.to_nat c_idx) phrase 0.

(** The row is the n-gram of the phrase at position [key] of the list that
    stops somewhere after the first position of the phrase, and [pkey] is
    that position capped at [cap]. *)
Definition ngram_of (phrases : list (list Z)) (pad gram_n cap : Z)
  (row : list Z) (pkey : Z) : Prop :=
  exists key phrase stop,
    lookup IndexError phrases key = Ok phrase
    /\ pkey = wrap32 (Z.min cap key)
    /\ 1 <= stop <= len phrase - 1
    /\ row = ngram phrase pad gram_n stop.

(** * Part II: properties *)

(** ** The result monad *)

Lemma bind_ok {A B : Type} (c : result A) (k : A -> result B) (b : B) :
  bind c k = Ok b -> exists a, c = Ok a /\ k a = Ok b.
Proof.
  destruct c as [a|e]; simpl; intros H; [exists a; auto | discriminate].
Qed.

(** Splits a successful run at its outermost binds. *)
Ltac inv_ok H :=
  repeat match type of H with
  | bind ?c ?k = Ok ?b =>
      let a := fresh "a" in
      let Ha := fresh "Ha" in
      apply bind_ok in H; destruct H as [a [Ha H]]
  | Ok _ = Ok _ => injection H as H
  | Raise _ = Ok _ => discriminate H
  end.

Lemma len_nonneg {A : Type} (l : list A) : 0 <= len l.
Proof. unfold len; lia. Qed.

Lemma len_app {A : Type} (l1 l2 : list A) : len (l1 ++ l2) = len l1 + len l2.
Proof. unfold len; rewrite length_app; lia. Qed.

Lemma len_cons {A : Type} (a : A) (l : list A) : len (a :: l) = len l + 1.
Proof. unfold len; simpl length; lia. Qed.

Lemma sumZ_app (l1 l2 : list Z) : sumZ (l1 ++ l2) = sumZ l1 + sumZ l2.
Proof. induction l1; simpl; lia. Qed.

Lemma zrange_succ (n : Z) : 0 <= n -> zrange (n + 1) = zrange n ++ [n].
Proof.
  intros Hn. unfold zrange.
  replace (Z.to_nat (n + 1)) with (S (Z.to_nat n)) by lia.
  rewrite seq_S, map_app. simpl. f_equal. f_equal. lia.
Qed.

Lemma zrange_succ' (n : Z) :
  0 <= n -> zrange (n + 1) = 0 :: map (fun t => 1 + t) (zrange n).
Proof.
  intros Hn. unfold zrange.
  replace (Z.to_nat (n + 1)) with (S (Z.to_nat n)) by lia.
  cbn [seq map]. f_equal. rewrite <- seq_shift, !map_map.
  apply map_ext. intros a. lia.
Qed.

Lemma in_zrange (n k : Z) : In k (zrange n) <-> 0 <= k < n.
Proof.
  unfold zrange. rewrite in_map_iff. split.
  - intros [x [<- Hx]]. apply in_seq in Hx. lia.
  - intros Hk. exists (Z.to_nat k). split; [lia|]. apply in_seq. lia.
Qed.

Lemma length_zrange (n : Z) : length (zrange n) = Z.to_nat n.
Proof. unfold zrange. now rewrite length_map, length_seq. Qed.

Lemma NoDup_zrange (n : Z) : NoDup (zrange n).
Proof.
  unfold zrange. apply Finite.Injective_map_NoDup.
  - intros a b H. lia.
  - apply seq_NoDup.
Qed.

(** ** Dictionaries *)

Section DictFacts.
Context {K V : Type} (eqb : K -> K -> bool).

Lemma sum_dict_set_some (f : V -> Z) (d : dict K V) k v v0 :
  dict_get eqb d k = Some v0 ->
  sumZ (map f (dict_values (dict_set eqb d k v)))
  = sumZ (map f (dict_values d)) - f v0 + f v.
Proof.
  unfold dict_values.
  induction d as [|[k' v'] d IH]; simpl; [discriminate|].
  destruct (eqb k' k); simpl.
  - intros [= ->]. lia.
  - intros H. rewrite (IH H). lia.
Qed.

Lemma sum_dict_set_none (f : V -> Z) (d : dict K V) k v :
  dict_get eqb d k = None ->
  sumZ (map f (dict_values (dict_set eqb d k v)))
  = sumZ (map f (dict_values d)) + f v.
Proof.
  unfold dict_values.
  induction d as [|[k' v'] d IH]; simpl; [lia|].
  destruct (eqb k' k); simpl; [discriminate|].
  intros H. rewrite (IH H). lia.
Qed.

Hypothesis eqb_eq : forall a b, eqb a b = true <-> a = b.

Lemma eqb_false_iff a b : eqb a b = false <-> a <> b.
Proof.
  rewrite <- eqb_eq. destruct (eqb a b); split; congruence.
Qed.

Lemma dict_get_none (d : dict K V) k :
  dict_get eqb d k = None <-> ~ In k (dict_keys d).
Proof.
  induction d as [|[k' v'] d IH]; simpl; [tauto|].
  destruct (eqb k' k) eqn:E.
  - apply eqb_eq in E. split; [discriminate | intros H; exfalso; auto].
  - apply eqb_false_iff in E. rewrite IH. tauto.
Qed.

Lemma dict_get_some_in (d : dict K V) k v :
  dict_get eqb d k = Some v -> In (k, v) d.
Proof.
  induction d as [|[k' v'] d IH]; simpl; [discriminate|].
  destruct (eqb k' k) eqn:E.
  - apply eqb_eq in E. intros [= ->]. left. congruence.
  - auto.
Qed.

Lemma dict_in_get (d : dict K V) k v :
  NoDup (dict_keys d) -> In (k, v) d -> dict_get eqb d k = Some v.
Proof.
  induction d as [|[k' v'] d IH]; simpl; [tauto|].
  intros Hnd. inversion Hnd as [|? ? Hni Hnd']; subst.
  intros [H|H].
  - injection H as -> ->. now rewrite (proj2 (eqb_eq k k) eq_refl).
  - destruct (eqb k' k) eqn:E.
    + apply eqb_eq in E. subst. exfalso. apply Hni.
      apply (in_map fst) in H. exact H.
    + auto.
Qed.

Lemma dict_set_new (d : dict K V) k v :
  ~ In k (dict_keys d) -> dict_set eqb d k v = d ++ [(k, v)].
Proof.
  induction d as [|[k' v'] d IH]; simpl; [reflexivity|].
  intros H. destruct (eqb k' k) eqn:E.
  - apply eqb_eq in E. exfalso. auto.
  - f_equal. apply IH. tauto.
Qed.

Lemma dict_set_keys_old (d : dict K V) k v :
  In k (dict_keys d) -> dict_keys (dict_set eqb d k v) = dict_keys d.
Proof.
  induction d as [|[k' v'] d IH]; simpl; [tauto|].
  intros H. destruct (eqb k' k) eqn:E; simpl; [reflexivity|].
  apply eqb_false_iff in E. f_equal. apply IH. tauto.
Qed.

Lemma dict_set_NoDup (d : dict K V) k v :
  NoDup (dict_keys d) -> NoDup (dict_keys (dict_set eqb d k v)).
Proof.
  intros Hnd. destruct (in_dec (fun a b =>
    match eqb a b as x return (eqb a b = x -> {a = b} + {a <> b}) with
    | true => fun E => left (proj1 (eqb_eq a b) E)
    | false => fun E => right (proj1 (eqb_false_iff a b) E)
    end eq_refl) k (dict_keys d)) as [Hin|Hni].
  - now rewrite dict_set_keys_old.
  - rewrite dict_set_new by assumption. unfold dict_keys. rewrite map_app.
    simpl. apply NoDup_app; [exact Hnd | repeat constructor; simpl; tauto |].
    intros a Ha [<-|[]]. auto.
Qed.

End DictFacts.

Lemma Zeqb_eq (a b : Z) : (a =? b) = true <-> a = b.
Proof. apply Z.eqb_eq. Qed.

(** ** The scan of the corpus *)

Lemma raw_count_sum (rv : dict string Z) (w : string) :
  sumZ (dict_values (raw_count rv w)) = sumZ (dict_values rv) + 1.
Proof.
  unfold raw_count.
  destruct (dict_get String.eqb rv w) as [c|] eqn:E.
  - pose proof (sum_dict_set_some String.eqb (fun x => x) rv w (c + 1) c E) as H.
    rewrite !map_id in H. lia.
  - pose proof (sum_dict_set_none String.eqb (fun x => x) rv w 1 E) as H.
    rewrite !map_id in H. lia.
Qed.

Lemma raw_count_NoDup (rv : dict string Z) (w : string) :
  NoDup (dict_keys rv) -> NoDup (dict_keys (raw_count rv w)).
Proof.
  intros H. unfold raw_count.
  destruct (dict_get String.eqb rv w); apply dict_set_NoDup;
    auto using String.eqb_eq.
Qed.

Definition scan_inv (st : dict string Z * Z) : Prop :=
  NoDup (dict_keys (fst st)) /\ sumZ (dict_values (fst st)) = snd st.

Lemma scan_sentence_inv (sentence : list string) (st : dict string Z * Z) :
  scan_inv st ->
  scan_inv (scan_sentence st sentence)
  /\ snd (scan_sentence st sentence) = snd st + len sentence.
Proof.
  unfold scan_sentence. revert st.
  induction sentence as [|w ws IH]; intros st [Hnd Hsum]; simpl.
  - split; [split; assumption | unfold len; simpl; lia].
  - destruct (IH (raw_count (fst st) w, snd st + 1)) as [Hinv Hsnd].
    + split; simpl; [now apply raw_count_NoDup | rewrite raw_count_sum; lia].
    + split; [exact Hinv|]. rewrite Hsnd. simpl. rewrite len_cons. lia.
Qed.

Lemma scan_corpus_from (sentences : list (list string)) (st : dict string Z * Z) :
  scan_inv st ->
  scan_inv (fold_left scan_sentence sentences st)
  /\ snd (fold_left scan_sentence sentences st)
     = snd st + corpus_tokens sentences.
Proof.
  revert st. induction sentences as [|s ss IH]; intros st Hinv; simpl.
  - split; [exact Hinv | unfold corpus_tokens, len; simpl; lia].
  - destruct (scan_sentence_inv s st Hinv) as [Hinv' Hsnd'].
    destruct (IH _ Hinv') as [Hinv'' Hsnd''].
    split; [exact Hinv''|]. rewrite Hsnd'', Hsnd'.
    unfold corpus_tokens. simpl. rewrite len_app. lia.
Qed.

Lemma scan_corpus_spec (sentences : list (list string)) :
  NoDup (dict_keys (fst (scan_corpus sentences)))
  /\ sumZ (dict_values (fst (scan_corpus sentences))) = corpus_tokens sentences
  /\ snd (scan_corpus sentences) = corpus_tokens sentences.
Proof.
  destruct (scan_corpus_from sentences ([], 0)) as [[Hnd Hsum] Hsnd].
  - split; simpl; [constructor | reflexivity].
  - unfold scan_corpus. repeat split; auto; simpl in *; lia.
Qed.

(** ** Key assignment *)

Lemma dict_set_same_proj {K V B : Type} (eqb : K -> K -> bool)
  (eqb_eq : forall a b, eqb a b = true <-> a = b)
  (h : K * V -> B) (d : dict K V) k v v0 :
  dict_get eqb d k = Some v0 -> h (k, v) = h (k, v0) ->
  map h (dict_set eqb d k v) = map h d.
Proof.
  intros Hget Hh. induction d as [|[k' v'] d IH]; simpl in *; [discriminate|].
  destruct (eqb k' k) eqn:E; simpl.
  - apply eqb_eq in E. subst k'. injection Hget as ->. now rewrite Hh.
  - f_equal. auto.
Qed.

Lemma total_count_app (d1 d2 : dict string Vocab) :
  total_count (d1 ++ d2) = total_count d1 + total_count d2.
Proof.
  unfold total_count, dict_values. now rewrite !map_app, sumZ_app.
Qed.

Lemma zrange_len_eq {A : Type} (f : A -> Z) (l : list A) (n : Z) :
  0 <= n -> map f l = zrange n -> len l = n.
Proof.
  intros Hn H. apply (f_equal (@length Z)) in H.
  rewrite length_map, length_zrange in H. unfold len. lia.
Qed.

Lemma index_step_inv (min_count : Z) (processed : dict string Z)
  (st : index_state) (word : string) (c : Z) :
  index_inv processed st ->
  ~ In word (dict_keys processed) ->
  index_inv (processed ++ [(word, c)]) (index_step min_count st (word, c)).
Proof.
  intros (Hnd & Hincl & Hunk & Hw2k & Hk2w & Hidx & Hpos & Hsum) Hnew.
  assert (Hnw : ~ In word (dict_keys (st_w2v st))) by (intros H; auto).
  assert (Hkeys : dict_keys (processed ++ [(word, c)])
                  = dict_keys processed ++ [word])
    by (unfold dict_keys; now rewrite map_app).
  assert (Hvals : sumZ (dict_values (processed ++ [(word, c)]))
                  = sumZ (dict_values processed) + c)
    by (unfold dict_values; rewrite map_app, sumZ_app; simpl; lia).
  unfold index_inv, index_step.
  destruct ((c >=? min_count) || String.eqb word UNK) eqn:E; simpl.
  - rewrite (dict_set_new String.eqb String.eqb_eq) by exact Hnw.
    rewrite (dict_set_new String.eqb String.eqb_eq (st_w2k st)).
    2:{ rewrite Hw2k. unfold dict_keys. rewrite map_map. exact Hnw. }
    rewrite (dict_set_new Z.eqb Zeqb_eq (st_k2w st)).
    2:{ rewrite Hk2w. unfold dict_keys. rewrite map_map. simpl.
        rewrite Hidx, in_zrange. lia. }
    rewrite Hkeys, Hvals.
    repeat split.
    + unfold dict_keys. rewrite map_app. simpl.
      apply NoDup_app; [exact Hnd | repeat constructor; simpl; tauto |].
      intros a Ha [<-|[]]. auto.
    + unfold dict_keys. rewrite map_app. simpl.
      intros a Ha. apply in_app_or in Ha. apply in_or_app.
      destruct Ha as [Ha|Ha]; [left; auto | right; exact Ha].
    + intros H. unfold dict_keys. rewrite map_app. apply in_or_app.
      apply in_app_or in H. destruct H as [H|H]; [left; auto | right; exact H].
    + rewrite map_app, Hw2k. reflexivity.
    + rewrite map_app, Hk2w. reflexivity.
    + rewrite map_app, Hidx, zrange_succ by exact Hpos. reflexivity.
    + lia.
    + rewrite total_count_app. unfold total_count at 2. simpl. lia.
  - apply orb_false_iff in E. destruct E as [_ E].
    rewrite Hkeys, Hvals. repeat split; auto.
    + intros a Ha. apply in_or_app. left. auto.
    + intros H. apply in_app_or in H. destruct H as [H|[H|[]]]; [auto|].
      subst word. now rewrite String.eqb_refl in E.
    + lia.
Qed.

Lemma index_fold_inv (min_count : Z) (rest processed : dict string Z)
  (st : index_state) :
  NoDup (dict_keys (processed ++ rest)) ->
  index_inv processed st ->
  index_inv (processed ++ rest) (fold_left (index_step min_count) rest st).
Proof.
  revert processed st.
  induction rest as [|[word c] rest IH]; intros processed st Hnd Hinv; simpl.
  - now rewrite app_nil_r.
  - replace (processed ++ (word, c) :: rest)
      with ((processed ++ [(word, c)]) ++ rest) in *
      by (now rewrite <- app_assoc).
    apply IH; [exact Hnd|].
    apply index_step_inv; [exact Hinv|].
    unfold dict_keys in Hnd. rewrite !map_app in Hnd. simpl in Hnd.
    apply NoDup_app_remove_r in Hnd. apply NoDup_remove_2 in Hnd.
    rewrite app_nil_r in Hnd. exact Hnd.
Qed.

Lemma index_loop_inv (min_count : Z) (raw_vocab : dict string Z) :
  NoDup (dict_keys raw_vocab) ->
  index_inv raw_vocab (index_loop min_count raw_vocab).
Proof.
  intros Hnd. apply (index_fold_inv min_count raw_vocab []); [exact Hnd|].
  unfold index_inv; simpl. repeat split; try constructor; try lia; auto.
  intros a [].
Qed.

Lemma dict_mem_in (d : dict string Z) (k : string) :
  dict_mem String.eqb d k = true <-> In k (dict_keys d).
Proof.
  unfold dict_mem.
  pose proof (dict_get_none String.eqb String.eqb_eq d k) as H.
  destruct (dict_get String.eqb d k); split; intros H'; try congruence.
  - destruct (in_dec String.string_dec k (dict_keys d)) as [?|n]; auto.
    apply H in n. discriminate.
  - apply H in H'; [contradiction | reflexivity].
Qed.

Lemma add_unk_spec (raw_vocab : dict string Z) (st : index_state) :
  index_inv raw_vocab st ->
  exists st',
    add_unk raw_vocab st = Ok st'
    /\ vocab_inv (sumZ (dict_values raw_vocab))
         (st_w2v st') (st_w2k st') (st_k2w st').
Proof.
  intros (Hnd & Hincl & Hunk & Hw2k & Hk2w & Hidx & Hpos & Hsum).
  pose proof (zrange_len_eq _ _ _ Hpos Hidx) as Hlen.
  unfold add_unk.
  destruct (dict_mem String.eqb raw_vocab UNK) eqn:E.
  - apply dict_mem_in in E. specialize (Hunk E).
    destruct (dict_get String.eqb (st_w2v st) UNK) as [v|] eqn:Hget.
    2:{ apply (dict_get_none String.eqb String.eqb_eq) in Hget. contradiction. }
    unfold dict_lookup. rewrite Hget. simpl.
    eexists. split; [reflexivity|]. unfold vocab_inv; simpl.
    assert (Hk : dict_keys (dict_set String.eqb (st_w2v st) UNK
                   (mkVocab (count v + st_unk st) (index v) (sample_prob v)))
                 = dict_keys (st_w2v st))
      by (apply (dict_set_keys_old String.eqb String.eqb_eq); exact Hunk).
    repeat split.
    + now rewrite Hk.
    + now rewrite Hk.
    + rewrite (dict_set_same_proj String.eqb String.eqb_eq _ _ _ _ _ Hget);
        [exact Hw2k | reflexivity].
    + rewrite (dict_set_same_proj String.eqb String.eqb_eq _ _ _ _ _ Hget);
        [exact Hk2w | reflexivity].
    + rewrite (dict_set_same_proj String.eqb String.eqb_eq _ _ _ _ _ Hget)
        by reflexivity.
      rewrite Hidx. f_equal. unfold len. unfold dict_keys in Hk.
      apply (f_equal (@length string)) in Hk. rewrite !length_map in Hk.
      unfold len in Hlen. lia.
    + unfold total_count in *.
      rewrite (sum_dict_set_some String.eqb count _ _ _ _ Hget). simpl. lia.
  - assert (Hni : ~ In UNK (dict_keys (st_w2v st))).
    { intros H. apply Hincl in H. apply dict_mem_in in H. congruence. }
    eexists. split; [reflexivity|]. unfold vocab_inv; simpl.
    rewrite (dict_set_new String.eqb String.eqb_eq) by exact Hni.
    rewrite (dict_set_new String.eqb String.eqb_eq (st_w2k st)).
    2:{ rewrite Hw2k. unfold dict_keys. rewrite map_map. exact Hni. }
    rewrite (dict_set_new Z.eqb Zeqb_eq (st_k2w st)).
    2:{ rewrite Hk2w. unfold dict_keys. rewrite map_map. simpl.
        rewrite Hidx, in_zrange. lia. }
    repeat split.
    + unfold dict_keys. rewrite map_app. simpl.
      apply NoDup_app; [exact Hnd | repeat constructor; simpl; tauto |].
      intros a Ha [<-|[]]. auto.
    + unfold dict_keys. rewrite map_app. apply in_or_app. right. now left.
    + rewrite map_app, Hw2k. reflexivity.
    + rewrite map_app, Hk2w. reflexivity.
    + rewrite map_app, Hidx, len_app. simpl.
      replace (len [(UNK, mkVocab (st_unk st) (st_idx st) None)]) with 1
        by reflexivity.
      rewrite Hlen. now rewrite zrange_succ by exact Hpos.
    + rewrite total_count_app. unfold total_count at 2. simpl. lia.
Qed.

Lemma build_index_spec (sentences : list (list string)) (min_count : Z) :
  exists st,
    build_index sentences min_count = Ok st
    /\ vocab_inv (corpus_tokens sentences)
         (st_w2v st) (st_w2k st) (st_k2w st).
Proof.
  destruct (scan_corpus_spec sentences) as (Hnd & Hsum & _).
  unfold build_index. rewrite <- Hsum.
  apply add_unk_spec. now apply index_loop_inv.
Qed.

(** ** Counts *)

Section DictGetSet.
Context {K V : Type} (eqb : K -> K -> bool).
Hypothesis eqb_eq : forall a b, eqb a b = true <-> a = b.

Lemma dict_get_set_same (d : dict K V) k v :
  dict_get eqb (dict_set eqb d k v) k = Some v.
Proof.
  induction d as [|[k' v'] d IH]; simpl.
  - now rewrite (proj2 (eqb_eq k k) eq_refl).
  - destruct (eqb k' k) eqn:E; simpl; now rewrite E.
Qed.

Lemma dict_get_set_other (d : dict K V) k k0 v :
  k <> k0 -> dict_get eqb (dict_set eqb d k v) k0 = dict_get eqb d k0.
Proof.
  intros Hne. induction d as [|[k' v'] d IH]; simpl.
  - destruct (eqb k k0) eqn:E; [apply eqb_eq in E; contradiction | reflexivity].
  - destruct (eqb k' k) eqn:E; simpl.
    + apply eqb_eq in E. subst k'.
      destruct (eqb k k0) eqn:E'; [apply eqb_eq in E'; contradiction|].
      reflexivity.
    + now rewrite IH.
Qed.

Lemma dict_set_in_other (d : dict K V) k k0 v v0 :
  k <> k0 -> (In (k0, v0) (dict_set eqb d k v) <-> In (k0, v0) d).
Proof.
  intros Hne. induction d as [|[k' v'] d IH]; simpl.
  - split; [intros [H|[]]; congruence | tauto].
  - destruct (eqb k' k) eqn:E; simpl.
    + apply eqb_eq in E. subst k'. split; intros [H|H]; auto; congruence.
    + rewrite IH. tauto.
Qed.

End DictGetSet.

Lemma occurrences_nonneg tokens w : 0 <= occurrences tokens w.
Proof. unfold occurrences. lia. Qed.

Lemma occurrences_snoc tokens w w' :
  occurrences (tokens ++ [w]) w'
  = occurrences tokens w' + (if String.eqb w w' then 1 else 0).
Proof.
  unfold occurrences. rewrite count_occ_app. simpl.
  destruct (String.string_dec w w') as [->|Hne].
  - rewrite String.eqb_refl. lia.
  - apply String.eqb_neq in Hne. rewrite Hne. lia.
Qed.

Lemma raw_count_counts tokens rv w :
  counts_of tokens rv -> counts_of (tokens ++ [w]) (raw_count rv w).
Proof.
  intros H w'. rewrite occurrences_snoc. unfold raw_count.
  pose proof (occurrences_nonneg tokens w') as Hn.
  destruct (String.eqb w w') eqn:E.
  - apply String.eqb_eq in E. subst w'. rewrite (H w).
    destruct (occurrences tokens w =? 0) eqn:E0.
    + rewrite (dict_get_set_same String.eqb String.eqb_eq).
      apply Z.eqb_eq in E0. rewrite E0. reflexivity.
    + rewrite (dict_get_set_same String.eqb String.eqb_eq).
      apply Z.eqb_neq in E0.
      destruct (occurrences tokens w + 1 =? 0) eqn:E1; [lia | reflexivity].
  - apply String.eqb_neq in E.
    assert (Hs : forall c, dict_get String.eqb
                   (dict_set String.eqb rv w c) w' = dict_get String.eqb rv w')
      by (intros c; now apply (dict_get_set_other String.eqb String.eqb_eq)).
    rewrite Z.add_0_r.
    destruct (dict_get String.eqb rv w); rewrite Hs; apply H.
Qed.

Lemma scan_sentence_counts sentence tokens st :
  counts_of tokens (fst st) ->
  counts_of (tokens ++ sentence) (fst (scan_sentence st sentence)).
Proof.
  unfold scan_sentence. revert tokens st.
  induction sentence as [|w ws IH]; intros tokens st H; simpl.
  - now rewrite app_nil_r.
  - replace (tokens ++ w :: ws) with ((tokens ++ [w]) ++ ws)
      by (now rewrite <- app_assoc).
    apply IH. simpl. now apply raw_count_counts.
Qed.

Lemma scan_corpus_counts_from sentences tokens st :
  counts_of tokens (fst st) ->
  counts_of (tokens ++ concat sentences)
    (fst (fold_left scan_sentence sentences st)).
Proof.
  revert tokens st. induction sentences as [|s ss IH]; intros tokens st H; simpl.
  - now rewrite app_nil_r.
  - rewrite app_assoc. apply IH. now apply scan_sentence_counts.
Qed.

Lemma scan_corpus_counts sentences :
  counts_of (concat sentences) (fst (scan_corpus sentences)).
Proof.
  apply (scan_corpus_counts_from sentences [] ([], 0)). intros w. reflexivity.
Qed.

Lemma index_step_counts (min_count : Z) (processed : dict string Z)
  (st : index_state) (word : string) (c : Z) :
  index_inv processed st ->
  ~ In word (dict_keys processed) ->
  counts_inv min_count processed (st_w2v st) ->
  counts_inv min_count (processed ++ [(word, c)])
    (st_w2v (index_step min_count st (word, c))).
Proof.
  intros (_ & Hincl & _) Hnew [Hkeep Hall].
  assert (Hnw : ~ In word (dict_keys (st_w2v st))) by (intros H; auto).
  unfold index_step.
  destruct ((c >=? min_count) || String.eqb word UNK) eqn:E; simpl.
  - rewrite (dict_set_new String.eqb String.eqb_eq) by exact Hnw. split.
    + intros w v Hin Hne. apply in_app_or in Hin. destruct Hin as [Hin|[Hin|[]]].
      * destruct (Hkeep w v Hin Hne). split; [apply in_or_app; now left | lia].
      * injection Hin as <- <-. simpl. split; [apply in_or_app; right; now left|].
        apply orb_true_iff in E. destruct E as [E|E]; [lia|].
        apply String.eqb_eq in E. contradiction.
    + intros w c' Hin Hc. unfold dict_keys. rewrite map_app. apply in_or_app.
      apply in_app_or in Hin. destruct Hin as [Hin|[Hin|[]]].
      * left. eapply Hall; eauto.
      * injection Hin as <- <-. right. now left.
  - apply orb_false_iff in E. destruct E as [E _]. split.
    + intros w v Hin Hne. destruct (Hkeep w v Hin Hne).
      split; [apply in_or_app; now left | lia].
    + intros w c' Hin Hc. apply in_app_or in Hin.
      destruct Hin as [Hin|[Hin|[]]]; [eapply Hall; eauto|].
      injection Hin as <- <-. lia.
Qed.

Lemma index_fold_counts (min_count : Z) (rest processed : dict string Z)
  (st : index_state) :
  NoDup (dict_keys (processed ++ rest)) ->
  index_inv processed st ->
  counts_inv min_count processed (st_w2v st) ->
  counts_inv min_count (processed ++ rest)
    (st_w2v (fold_left (index_step min_count) rest st)).
Proof.
  revert processed st.
  induction rest as [|[word c] rest IH]; intros processed st Hnd Hinv Hc; simpl.
  - now rewrite app_nil_r.
  - replace (processed ++ (word, c) :: rest)
      with ((processed ++ [(word, c)]) ++ rest) in *
      by (now rewrite <- app_assoc).
    assert (Hnew : ~ In word (dict_keys processed)).
    { unfold dict_keys in Hnd. rewrite !map_app in Hnd. simpl in Hnd.
      apply NoDup_app_remove_r in Hnd. apply NoDup_remove_2 in Hnd.
      rewrite app_nil_r in Hnd. exact Hnd. }
    apply IH; [exact Hnd | now apply index_step_inv |].
    now apply index_step_counts.
Qed.

Lemma index_loop_counts (min_count : Z) (raw_vocab : dict string Z) :
  NoDup (dict_keys raw_vocab) ->
  counts_inv min_count raw_vocab (st_w2v (index_loop min_count raw_vocab)).
Proof.
  intros Hnd. apply (index_fold_counts min_count raw_vocab []); [exact Hnd | |].
  - unfold index_inv; simpl. repeat split; try constructor; try lia; auto.
    intros a [].
  - split; simpl; intros; contradiction.
Qed.

Lemma add_unk_counts (min_count : Z) (raw_vocab : dict string Z)
  (st st' : index_state) :
  add_unk raw_vocab st = Ok st' ->
  counts_inv min_count raw_vocab (st_w2v st) ->
  counts_inv min_count raw_vocab (st_w2v st').
Proof.
  assert (Hne : forall w, w <> UNK -> UNK <> w) by (intros; congruence).
  unfold add_unk. intros H [Hkeep Hall].
  destruct (dict_mem String.eqb raw_vocab UNK) eqn:E.
  - inv_ok H. subst st'. simpl. split.
    + intros w v Hin Hw.
      apply (dict_set_in_other String.eqb String.eqb_eq) in Hin; auto.
    + intros w c Hin Hc.
      destruct (String.string_dec w UNK) as [->|Hw].
      * unfold dict_lookup in Ha.
        destruct (dict_get String.eqb (st_w2v st) UNK) eqn:G; [|discriminate].
        rewrite (dict_set_keys_old String.eqb String.eqb_eq);
          [eapply Hall; eauto | eapply Hall; eauto].
      * specialize (Hall w c Hin Hc). unfold dict_keys in *.
        apply in_map_iff in Hall. destruct Hall as [[w' v] [Hw' Hin']].
        simpl in Hw'. subst w'. apply in_map_iff. exists (w, v). split; auto.
        apply (dict_set_in_other String.eqb String.eqb_eq); auto.
  - injection H as <-. simpl. split.
    + intros w v Hin Hw.
      apply (dict_set_in_other String.eqb String.eqb_eq) in Hin; auto.
    + intros w c Hin Hc.
      assert (Hw : w <> UNK).
      { intros ->. apply (in_map fst) in Hin. apply dict_mem_in in Hin.
        simpl in Hin. congruence. }
      specialize (Hall w c Hin Hc). unfold dict_keys in *.
      apply in_map_iff in Hall. destruct Hall as [[w' v] [Hw' Hin']].
      simpl in Hw'. subst w'.
      assert (Hin2 : In (w, v) (dict_set String.eqb (st_w2v st) UNK
                       (mkVocab (st_unk st) (st_idx st) None)))
        by (apply (dict_set_in_other String.eqb String.eqb_eq); auto).
      apply (in_map fst) in Hin2. exact Hin2.
Qed.

(** ** Downsampling and the assembled vocabulary *)

Lemma precalc_loop_spec sample ds total w2v w2v' :
  precalc_loop sample ds total w2v = Ok w2v' ->
  Forall2 (downsampled sample ds total) w2v w2v'.
Proof.
  revert w2v'. induction w2v as [|[w v] rest IH]; intros w2v' H; simpl in H.
  - injection H as <-. constructor.
  - inv_ok H. subst w2v'. constructor; [|now apply IH].
    unfold downsampled; simpl. repeat split. eauto.
Qed.

Lemma precalc_loop_total ds total w2v :
  exists w2v', precalc_loop false ds total w2v = Ok w2v'.
Proof.
  induction w2v as [|[w v] rest [rest' IH]]; simpl; [eauto|].
  rewrite IH. simpl. eauto.
Qed.

Lemma downsampled_map {B : Type} (h : string * Vocab -> B) sample ds total
  w2v w2v' :
  (forall a b, downsampled sample ds total a b -> h b = h a) ->
  Forall2 (downsampled sample ds total) w2v w2v' ->
  map h w2v' = map h w2v.
Proof.
  intros Hh H. induction H; simpl; [reflexivity|]. f_equal; auto.
Qed.

Lemma downsampled_in sample ds total w2v w2v' w v' :
  Forall2 (downsampled sample ds total) w2v w2v' ->
  In (w, v') w2v' ->
  exists v, In (w, v) w2v /\ downsampled sample ds total (w, v) (w, v').
Proof.
  intros H. induction H as [|[wa va] [wb vb] l l' Hd H IH]; simpl; [tauto|].
  intros [Hin|Hin].
  - injection Hin as -> ->. destruct Hd as (Hw & Hrest). simpl in Hw. subst wa.
    exists va. split; [now left|]. split; [reflexivity | exact Hrest].
  - destruct (IH Hin) as [v [Hv Hd']]. exists v. split; [now right | exact Hd'].
Qed.

Lemma downsampled_keys sample ds total w2v w2v' :
  Forall2 (downsampled sample ds total) w2v w2v' ->
  dict_keys w2v' = dict_keys w2v.
Proof.
  apply downsampled_map. now intros a b (H & _).
Qed.

Lemma downsampled_total sample ds total w2v w2v' :
  Forall2 (downsampled sample ds total) w2v w2v' ->
  total_count w2v' = total_count w2v.
Proof.
  intros H. unfold total_count, dict_values. rewrite !map_map. f_equal.
  revert H. apply downsampled_map. now intros a b (_ & H & _).
Qed.

Lemma downsampled_vocab_inv sample ds total n w2v w2v' w2k k2w :
  Forall2 (downsampled sample ds total) w2v w2v' ->
  vocab_inv n w2v w2k k2w -> vocab_inv n w2v' w2k k2w.
Proof.
  intros H (Hnd & Hunk & Hw2k & Hk2w & Hidx & Hsum).
  pose proof (downsampled_keys _ _ _ _ _ H) as Hk.
  unfold vocab_inv. rewrite Hk. repeat split; auto.
  - rewrite Hw2k. symmetry. revert H. apply downsampled_map.
    intros a b (H1 & _ & H2 & _). now rewrite H1, H2.
  - rewrite Hk2w. symmetry. revert H. apply downsampled_map.
    intros a b (H1 & _ & H2 & _). now rewrite H1, H2.
  - replace (len w2v') with (len w2v).
    + rewrite <- Hidx. revert H. apply downsampled_map.
      now intros a b (_ & _ & H2 & _).
    + unfold len. apply (f_equal (@length string)) in Hk.
      unfold dict_keys in Hk. rewrite !length_map in Hk. lia.
  - now rewrite (downsampled_total _ _ _ _ _ H).
Qed.

Lemma downsampled_counts_inv sample ds total min_count raw w2v w2v' :
  Forall2 (downsampled sample ds total) w2v w2v' ->
  counts_inv min_count raw w2v -> counts_inv min_count raw w2v'.
Proof.
  intros H [Hkeep Hall]. split.
  - intros w v' Hin Hw.
    destruct (downsampled_in _ _ _ _ _ _ _ H Hin) as [v [Hv (_ & Hc & _)]].
    simpl in Hc. rewrite Hc. now apply Hkeep.
  - intros w c Hin Hc. rewrite (downsampled_keys _ _ _ _ _ H). eauto.
Qed.

(** What a successful [build_vocab] went through. *)
Lemma build_vocab_ok py_pow sentences min_count hs ns ds r :
  build_vocab py_pow sentences min_count hs ns ds = Ok r ->
  exists st,
    build_index sentences min_count = Ok st
    /\ _precalc_downsampling (st_w2v st) ds = Ok (words_to_vocabs r)
    /\ words_to_keys r = st_w2k st
    /\ keys_to_words r = st_k2w st.
Proof.
  unfold build_vocab. intros H. inv_ok H. subst r. simpl.
  exists a. repeat split; assumption.
Qed.

Lemma precalc_ok w2v ds w2v' :
  _precalc_downsampling w2v ds = Ok w2v' ->
  Forall2 (downsampled (PrimFloat.ltb sample_threshold ds) ds (total_count w2v))
    w2v w2v'.
Proof.
  unfold _precalc_downsampling.
  destruct (negb (PrimFloat.leb fzero ds)); [discriminate|].
  apply precalc_loop_spec.
Qed.

Lemma build_vocab_inv py_pow sentences min_count hs ns ds r :
  build_vocab py_pow sentences min_count hs ns ds = Ok r ->
  vocab_inv (corpus_tokens sentences) (words_to_vocabs r) (words_to_keys r)
    (keys_to_words r)
  /\ counts_inv min_count (fst (scan_corpus sentences)) (words_to_vocabs r).
Proof.
  intros H. destruct (build_vocab_ok _ _ _ _ _ _ _ H) as (st & Hst & Hp & -> & ->).
  destruct (build_index_spec sentences min_count) as (st' & Hst' & Hinv).
  rewrite Hst in Hst'. injection Hst' as <-.
  apply precalc_ok in Hp. split.
  - eapply downsampled_vocab_inv; eauto.
  - eapply downsampled_counts_inv; [exact Hp|].
    unfold build_index in Hst.
    eapply add_unk_counts; [exact Hst|].
    apply index_loop_counts. apply scan_corpus_spec.
Qed.

Lemma build_vocab_total py_pow sentences min_count :
  exists r, build_vocab py_pow sentences min_count false false fzero = Ok r.
Proof.
  unfold build_vocab.
  destruct (build_index_spec sentences min_count) as (st & -> & _). simpl.
  unfold _precalc_downsampling.
  replace (negb (PrimFloat.leb fzero fzero)) with false by reflexivity.
  replace (PrimFloat.ltb sample_threshold fzero) with false by reflexivity.
  destruct (precalc_loop_total fzero (sumZ (map count (dict_values (st_w2v st))))
              (st_w2v st)) as [w2v' ->].
  simpl. eauto.
Qed.

(** *** Conservation of the token mass *)

(** C2. For every corpus and every [min_count], [build_vocab] returns (with
    the tree, the table and downsampling switched off it always does), and
    whenever it returns, the counts of the final vocabulary, the unknown
    word included, add up to the number of token occurrences of the corpus;
    a retained word other than the unknown word keeps the count of its
    occurrences, which meets [min_count], and a word below [min_count] other
    than the unknown word has no entry, so its occurrences are part of the
    unknown word's count. *)
Theorem build_vocab_conserves_counts (py_pow : Z -> float -> float)
  (sentences : list (list string)) (min_count : Z) :
  (exists r, build_vocab py_pow sentences min_count false false fzero = Ok r)
  /\ forall hs ns ds r,
       build_vocab py_pow sentences min_count hs ns ds = Ok r ->
       total_count (words_to_vocabs r) = corpus_tokens sentences
       /\ In UNK (dict_keys (words_to_vocabs r))
       /\ (forall w v,
             w <> UNK ->
             dict_get String.eqb (words_to_vocabs r) w = Some v ->
             count v = occurrences (concat sentences) w
             /\ min_count <= count v)
       /\ (forall w,
             w <> UNK ->
             occurrences (concat sentences) w < min_count ->
             dict_get String.eqb (words_to_vocabs r) w = None)
       /\ (forall w,
             0 < occurrences (concat sentences) w ->
             min_count <= occurrences (concat sentences) w ->
             In w (dict_keys (words_to_vocabs r))).
Proof.
  split; [apply build_vocab_total|].
  intros hs ns ds r H.
  destruct (build_vocab_inv _ _ _ _ _ _ _ H)
    as [(Hnd & Hunk & _ & _ & _ & Hsum) [Hkeep Hall]].
  destruct (scan_corpus_spec sentences) as (Hrnd & _ & _).
  pose proof (scan_corpus_counts sentences) as Hocc.
  assert (Hraw : forall w c, In (w, c) (fst (scan_corpus sentences)) ->
                 c = occurrences (concat sentences) w /\ 0 < c).
  { intros w c Hin.
    apply (dict_in_get String.eqb String.eqb_eq _ _ _ Hrnd) in Hin.
    rewrite (Hocc w) in Hin.
    pose proof (occurrences_nonneg (concat sentences) w).
    destruct (occurrences (concat sentences) w =? 0) eqn:E; [discriminate|].
    apply Z.eqb_neq in E. injection Hin as <-. lia. }
  assert (H3 : forall w v, w <> UNK ->
            dict_get String.eqb (words_to_vocabs r) w = Some v ->
            count v = occurrences (concat sentences) w /\ min_count <= count v).
  { intros w v Hw Hget.
    apply (dict_get_some_in String.eqb String.eqb_eq) in Hget.
    destruct (Hkeep w v Hget Hw) as [Hin Hmin].
    split; [apply Hraw, Hin | exact Hmin]. }
  split; [exact Hsum|]. split; [exact Hunk|]. split; [exact H3|]. split.
  - intros w Hw Hlt.
    destruct (dict_get String.eqb (words_to_vocabs r) w) as [v|] eqn:G;
      [|reflexivity].
    destruct (H3 w v Hw G). lia.
  - intros w Hpos Hmin.
    assert (Hin : In (w, occurrences (concat sentences) w)
                    (fst (scan_corpus sentences))).
    { apply (dict_get_some_in String.eqb String.eqb_eq). rewrite (Hocc w).
      destruct (occurrences (concat sentences) w =? 0) eqn:E;
        [apply Z.eqb_eq in E; lia | reflexivity]. }
    eapply Hall; eauto.
Qed.

Lemma build_vocab_conserves_counts_witness :
  exists r,
    build_vocab pow_stub example_corpus 2 true false f1e3 = Ok r
    /\ total_count (words_to_vocabs r) = 6.
Proof.
  destruct (build_vocab pow_stub example_corpus 2 true false f1e3)
    as [r|e] eqn:E; [|vm_compute in E; discriminate E].
  exists r. split; [reflexivity|].
  exact (proj1 (proj2 (build_vocab_conserves_counts pow_stub example_corpus 2)
                  true false f1e3 r E)).
Defined.

(** *** Keys and words *)

(** C9. Whenever [build_vocab] returns, [words_to_keys] and [keys_to_words]
    are inverse to each other, every retained word is mapped to the [index]
    of its vocabulary item, and the keys handed out are exactly
    [0, 1, ..., size - 1], in the order of the vocabulary. *)
Theorem build_vocab_keys_roundtrip (py_pow : Z -> float -> float)
  (sentences : list (list string)) (min_count : Z) (hs ns : bool) (ds : float)
  (r : vocab_result) :
  build_vocab py_pow sentences min_count hs ns ds = Ok r ->
  (forall w k,
     dict_get String.eqb (words_to_keys r) w = Some k ->
     dict_get Z.eqb (keys_to_words r) k = Some w)
  /\ (forall k w,
        dict_get Z.eqb (keys_to_words r) k = Some w ->
        dict_get String.eqb (words_to_keys r) w = Some k)
  /\ (forall w v,
        dict_get String.eqb (words_to_vocabs r) w = Some v ->
        dict_get String.eqb (words_to_keys r) w = Some (index v))
  /\ dict_keys (words_to_keys r) = dict_keys (words_to_vocabs r)
  /\ dict_values (words_to_keys r) = zrange (len (words_to_vocabs r))
  /\ dict_keys (keys_to_words r) = zrange (len (words_to_vocabs r)).
Proof.
  intros H.
  destruct (build_vocab_inv _ _ _ _ _ _ _ H)
    as [(Hnd & _ & Hw2k & Hk2w & Hidx & _) _].
  assert (Hkk : dict_keys (words_to_keys r) = dict_keys (words_to_vocabs r))
    by (rewrite Hw2k; unfold dict_keys; now rewrite map_map).
  assert (Hkv : dict_keys (keys_to_words r) = zrange (len (words_to_vocabs r)))
    by (rewrite Hk2w; unfold dict_keys; now rewrite map_map).
  assert (Hnd1 : NoDup (dict_keys (words_to_keys r))) by now rewrite Hkk.
  assert (Hnd2 : NoDup (dict_keys (keys_to_words r)))
    by (rewrite Hkv; apply NoDup_zrange).
  repeat split; auto.
  - intros w k Hget.
    apply (dict_get_some_in String.eqb String.eqb_eq) in Hget.
    rewrite Hw2k in Hget. apply in_map_iff in Hget.
    destruct Hget as [[w' v] [Heq Hin]]. injection Heq as <- <-.
    apply (dict_in_get Z.eqb Zeqb_eq _ _ _ Hnd2).
    rewrite Hk2w. apply in_map_iff. exists (w', v). auto.
  - intros k w Hget.
    apply (dict_get_some_in Z.eqb Zeqb_eq) in Hget.
    rewrite Hk2w in Hget. apply in_map_iff in Hget.
    destruct Hget as [[w' v] [Heq Hin]]. injection Heq as <- <-.
    apply (dict_in_get String.eqb String.eqb_eq _ _ _ Hnd1).
    rewrite Hw2k. apply in_map_iff. exists (w', v). auto.
  - intros w v Hget.
    apply (dict_get_some_in String.eqb String.eqb_eq) in Hget.
    apply (dict_in_get String.eqb String.eqb_eq _ _ _ Hnd1).
    rewrite Hw2k. apply in_map_iff. exists (w, v). auto.
  - rewrite Hw2k. unfold dict_values. now rewrite map_map.
Qed.

Lemma build_vocab_keys_roundtrip_witness :
  exists r,
    build_vocab pow_stub example_corpus 2 true false fzero = Ok r
    /\ dict_keys (keys_to_words r) = zrange (len (words_to_vocabs r)).
Proof.
  destruct (build_vocab pow_stub example_corpus 2 true false fzero)
    as [r|e] eqn:E; [|vm_compute in E; discriminate E].
  exists r. split; [reflexivity|].
  exact (proj2 (proj2 (proj2 (proj2 (proj2
    (build_vocab_keys_roundtrip pow_stub example_corpus 2 true false fzero r E)))))).
Defined.

(** *** Retention probabilities *)

Lemma retention_value sample ds total v p :
  retention sample ds total v = Ok p ->
  p = if sample then sampled_prob ds (count v) total else fone.
Proof.
  unfold retention, sampled_prob. destruct sample; intros H.
  - destruct (py_truediv (count v) total) as [rel|] eqn:E1; simpl in H;
      [|discriminate].
    destruct (py_fdiv ds rel) as [q|] eqn:E2; simpl in H; [|discriminate].
    injection H as <-.
    unfold py_truediv in E1. destruct (total =? 0); [discriminate|].
    injection E1 as <-.
    unfold py_fdiv in E2. destruct (PrimFloat.eqb _ fzero); [discriminate|].
    injection E2 as <-. reflexivity.
  - simpl in H. injection H as <-. reflexivity.
Qed.

(** C5, as the code has it. Whenever [build_vocab] returns, every item of the
    returned vocabulary has [sample_prob] equal to
    [min(sqrt(down_sample / (count / total_count)), 1)] when [down_sample]
    exceeds [1e-8], and equal to [1] otherwise (for [down_sample = 0] and for
    every other [down_sample] up to [1e-8]); [total_count] is the summed
    count of the returned vocabulary. *)
Theorem build_vocab_sample_prob (py_pow : Z -> float -> float)
  (sentences : list (list string)) (min_count : Z) (hs ns : bool) (ds : float)
  (r : vocab_result) :
  build_vocab py_pow sentences min_count hs ns ds = Ok r ->
  forall w v,
    dict_get String.eqb (words_to_vocabs r) w = Some v ->
    sample_prob v
    = Some (if PrimFloat.ltb sample_threshold ds
            then sampled_prob ds (count v) (total_count (words_to_vocabs r))
            else fone).
Proof.
  intros H w v Hget.
  destruct (build_vocab_ok _ _ _ _ _ _ _ H) as (st & _ & Hp & _).
  apply precalc_ok in Hp.
  apply (dict_get_some_in String.eqb String.eqb_eq) in Hget.
  destruct (downsampled_in _ _ _ _ _ _ _ Hp Hget)
    as [v0 [_ (_ & Hc & _ & p & Hret & Hsp)]].
  simpl in *. rewrite Hsp. f_equal.
  apply retention_value in Hret. rewrite Hret, Hc.
  now rewrite (downsampled_total _ _ _ _ _ Hp).
Qed.

Lemma build_vocab_sample_prob_witness :
  exists r v,
    build_vocab pow_stub example_corpus 2 true false f1e3 = Ok r
    /\ dict_get String.eqb (words_to_vocabs r) "the"%string = Some v
    /\ sample_prob v = Some (sampled_prob f1e3 3 6).
Proof.
  destruct (build_vocab pow_stub example_corpus 2 true false f1e3)
    as [r|e] eqn:E; [|vm_compute in E; discriminate E].
  destruct (dict_get String.eqb (words_to_vocabs r) "the"%string)
    as [v|] eqn:G.
  2:{ vm_compute in E. injection E as <-. vm_compute in G. discriminate G. }
  exists r, v. split; [reflexivity|]. split; [exact G|].
  rewrite (build_vocab_sample_prob pow_stub example_corpus 2 true false f1e3 r E
             "the"%string v G).
  vm_compute in E. injection E as <-. vm_compute in G. injection G as <-.
  reflexivity.
Defined.

(** C5, as the specification states it, fails between [0] and [1e-8]: for
    the one-word corpus [a] and [down_sample = 1e-9] the word "a" is the
    whole mass, the stated value is [sqrt(1e-9)], and the code stores [1]. *)
Lemma build_vocab_sample_prob_counterexample :
  exists r v,
    build_vocab pow_stub [["a"%string]] 1 false false f1e9 = Ok r
    /\ PrimFloat.ltb fzero f1e9 = true
    /\ dict_get String.eqb (words_to_vocabs r) "a"%string = Some v
    /\ sample_prob v
       <> Some (stated_prob f1e9 (count v) (total_count (words_to_vocabs r))).
Proof.
  eexists. eexists. split; [vm_compute; reflexivity|].
  split; [reflexivity|]. split; [vm_compute; reflexivity|].
  intros H.
  apply (f_equal (fun o => match o with
                           | Some x => PrimFloat.ltb x fone
                           | None => false
                           end)) in H.
  vm_compute in H. discriminate H.
Qed.

(** ** Degenerate vocabularies *)

(** C3 fails on the code. On the empty vocabulary [np.max] of an empty array
    raises [ValueError]; on every one-item vocabulary the root is a leaf
    whose code is still the Python list [[]], and [.size] on it raises
    [AttributeError]; [build_vocab] on the empty corpus, whose vocabulary is
    the unknown word alone, therefore raises too. *)
Theorem create_binary_tree_degenerate :
  _create_binary_tree [] = Raise ValueError
  /\ (forall w c p, _create_binary_tree [(w, mkVocab c 0 p)]
                    = Raise AttributeError)
  /\ (forall py_pow min_count ns,
        build_vocab py_pow [] min_count true ns fzero = Raise AttributeError).
Proof.
  split; [reflexivity|]. split; [reflexivity|].
  intros py_pow min_count ns. reflexivity.
Qed.

(** ** Positions of lists *)

Lemma lookup_ok {A : Type} (err : PyError) (l : list A) (i : Z) (a : A) :
  lookup err l i = Ok a <-> 0 <= i /\ nth_error l (Z.to_nat i) = Some a.
Proof.
  unfold lookup. destruct (i <? 0) eqn:E.
  - split; [discriminate | lia].
  - apply Z.ltb_ge in E.
    destruct (nth_error l (Z.to_nat i)); split; intros H;
      try discriminate; try (injection H as ->; auto).
    + destruct H as [_ H]. now injection H as ->.
    + now destruct H.
Qed.

Lemma lookup_in {A : Type} (err : PyError) (l : list A) (i : Z) (a : A) :
  lookup err l i = Ok a -> In a l.
Proof.
  intros H. apply lookup_ok in H. destruct H as [_ H].
  eapply nth_error_In; eauto.
Qed.

Lemma lookup_bound {A : Type} (err : PyError) (l : list A) (i : Z) (a : A) :
  lookup err l i = Ok a -> 0 <= i < len l.
Proof.
  intros H. apply lookup_ok in H. destruct H as [H0 H].
  assert (Hl : (Z.to_nat i < length l)%nat)
    by (apply nth_error_Some; congruence).
  unfold len. lia.
Qed.

Lemma lookup_total {A : Type} (err : PyError) (l : list A) (i : Z) :
  0 <= i < len l -> exists a, lookup err l i = Ok a.
Proof.
  intros H. unfold lookup.
  destruct (i <? 0) eqn:E; [lia|].
  destruct (nth_error l (Z.to_nat i)) eqn:G; [eauto|].
  apply nth_error_None in G. unfold len in H. lia.
Qed.

Lemma length_set_nth {A : Type} (l : list A) (i : nat) (x : A) :
  length (set_nth l i x) = length l.
Proof.
  revert i. induction l as [|a l IH]; intros [|i]; simpl; auto.
Qed.

Lemma nth_error_set_nth {A : Type} (l : list A) (i j : nat) (x : A) :
  nth_error (set_nth l i x) j
  = if (j =? i)%nat then (if (i <? length l)%nat then Some x else None)
    else nth_error l j.
Proof.
  revert i j. induction l as [|a l IH]; intros i j.
  - destruct i, j; simpl; try reflexivity.
    destruct (j =? i)%nat; reflexivity.
  - destruct i, j; simpl; try reflexivity. apply IH.
Qed.

Lemma set_nth_app_mid {A : Type} (l1 l2 : list A) (x y : A) :
  set_nth (l1 ++ x :: l2) (length l1) y = l1 ++ y :: l2.
Proof. induction l1; simpl; congruence. Qed.

Lemma store_ok {A : Type} (err : PyError) (l l' : list A) (i : Z) (x : A) :
  store err l i x = Ok l' <->
  0 <= i < len l /\ l' = set_nth l (Z.to_nat i) x.
Proof.
  unfold store, len.
  destruct ((i <? 0) || (Z.of_nat (length l) <=? i)) eqn:E.
  - apply orb_true_iff in E. split; [discriminate|]. lia.
  - apply orb_false_iff in E. split.
    + intros [= <-]. split; [lia | reflexivity].
    + intros [_ ->]. reflexivity.
Qed.

Lemma store_total {A : Type} (err : PyError) (l : list A) (i : Z) (x : A) :
  0 <= i < len l -> store err l i x = Ok (set_nth l (Z.to_nat i) x).
Proof. intros H. apply store_ok. auto. Qed.

Lemma store_len {A : Type} (err : PyError) (l l' : list A) (i : Z) (x : A) :
  store err l i x = Ok l' -> len l' = len l.
Proof.
  intros H. apply store_ok in H. destruct H as [_ ->].
  unfold len. now rewrite length_set_nth.
Qed.

Lemma lookup_store {A : Type} (err : PyError) (l l' : list A) (i j : Z) (x : A) :
  store err l i x = Ok l' -> 0 <= j ->
  lookup err l' j = if j =? i then Ok x else lookup err l j.
Proof.
  intros H Hj. apply store_ok in H. destruct H as [Hi ->].
  unfold lookup. destruct (j <? 0) eqn:E; [lia|].
  rewrite nth_error_set_nth.
  destruct (j =? i) eqn:E1.
  - apply Z.eqb_eq in E1. subst j. rewrite Nat.eqb_refl.
    unfold len in Hi.
    replace (Z.to_nat i <? length l)%nat with true; [reflexivity|].
    symmetry. apply Nat.ltb_lt. lia.
  - apply Z.eqb_neq in E1.
    replace (Z.to_nat j =? Z.to_nat i)%nat with false; [reflexivity|].
    symmetry. apply Nat.eqb_neq. lia.
Qed.

Lemma wrap32_range (z : Z) : is_uint32 (wrap32 z).
Proof. unfold is_uint32, wrap32. apply Z.mod_pos_bound. lia. Qed.

Lemma wrap32_small (z : Z) : is_uint32 z -> wrap32 z = z.
Proof. unfold is_uint32, wrap32. intros H. now apply Z.mod_small. Qed.

Lemma map_result_ok {A B : Type} (f : A -> result B) (g : A -> B) (l : list A) :
  Forall (fun a => f a = Ok (g a)) l -> map_result f l = Ok (map g l).
Proof.
  induction 1 as [|a l Ha _ IH]; simpl; [reflexivity|].
  now rewrite Ha, IH.
Qed.

Lemma length_zeros_rows (rows cols : Z) :
  length (zeros rows cols) = Z.to_nat rows.
Proof. unfold zeros. apply repeat_length. Qed.

(** ** NegSampler.sample *)

(** The table value at a drawn position. *)
Lemma firstn_snoc_nth {A : Type} (l : list A) (j : nat) (d : A) :
  (j < length l)%nat -> firstn (S j) l = firstn j l ++ [nth j l d].
Proof.
  revert j. induction l as [|a l IH]; intros j Hj; simpl in Hj; [lia|].
  destruct j; simpl; [reflexivity|]. f_equal. apply IH. lia.
Qed.

Lemma set_column_step (table : list Z) (j m : nat)
  (neg_idx neg_keys : list (list Z)) :
  Forall (fun row => length row = (j + S m)%nat) neg_idx ->
  Forall2 (fun irow krow =>
             krow = map (fun p => nth (Z.to_nat p) table 0) (firstn j irow)
                    ++ repeat 0 (S m)) neg_idx neg_keys ->
  exists neg_keys',
    set_column neg_keys (Z.of_nat j)
      (map (fun irow => nth (Z.to_nat (nth j irow 0)) table 0) neg_idx)
    = Ok neg_keys'
    /\ Forall2 (fun irow krow =>
                  krow = map (fun p => nth (Z.to_nat p) table 0)
                           (firstn (S j) irow)
                         ++ repeat 0 m) neg_idx neg_keys'.
Proof.
  intros Hlen H. induction H as [|irow krow idx keys Hrow H IH].
  - exists []. split; [reflexivity | constructor].
  - inversion Hlen as [|? ? Hl Hlen']; subst.
    destruct (IH Hlen') as [keys' [Hset HF]].
    set (tv := fun p => nth (Z.to_nat p) table 0) in *.
    assert (Hj : Z.of_nat j = len (map tv (firstn j irow))).
    { unfold len. rewrite length_map, length_firstn. lia. }
    assert (Hst : store IndexError (map tv (firstn j irow) ++ repeat 0 (S m))
                    (Z.of_nat j) (tv (nth j irow 0))
                  = Ok (map tv (firstn j irow)
                        ++ tv (nth j irow 0) :: repeat 0 m)).
    { rewrite store_total.
      - f_equal. rewrite Hj. unfold len. rewrite Nat2Z.id.
        apply set_nth_app_mid.
      - rewrite len_app. rewrite <- Hj. unfold len. simpl length. lia. }
    cbn [set_column map]. fold tv.
    change (nth (Z.to_nat (nth j irow 0)) table 0) with (tv (nth j irow 0)).
    rewrite Hst. cbn [bind]. rewrite Hset. cbn [bind].
    eexists. split; [reflexivity|]. constructor; [|exact HF].
    rewrite (firstn_snoc_nth irow j 0) by lia.
    rewrite map_app. cbn [map]. now rewrite <- app_assoc.
Qed.

Lemma neg_columns_spec (self : NegSampler) (m j : nat)
  (neg_idx neg_keys : list (list Z)) :
  Forall (fun row => length row = (j + m)%nat
                     /\ Forall (fun x => 0 <= x < len (neg_table self)) row)
    neg_idx ->
  Forall2 (fun irow krow =>
             krow = map (fun p => nth (Z.to_nat p) (neg_table self) 0)
                      (firstn j irow)
                    ++ repeat 0 m) neg_idx neg_keys ->
  neg_columns self (map Z.of_nat (seq j m)) neg_idx neg_keys
  = Ok (map (map (fun p => nth (Z.to_nat p) (neg_table self) 0)) neg_idx).
Proof.
  revert j neg_keys. induction m as [|m IH]; intros j neg_keys Hidx H; simpl.
  - f_equal. induction H as [|irow krow idx keys Hrow H IH']; simpl;
      [reflexivity|].
    inversion Hidx as [|? ? [Hl _] Hidx']; subst.
    rewrite IH' by assumption. f_equal. f_equal.
    rewrite app_nil_r. rewrite firstn_all2 by lia. reflexivity.
  - rewrite (map_result_ok _
      (fun irow => nth (Z.to_nat (nth j irow 0)) (neg_table self) 0)).
    2:{ eapply Forall_impl; [|exact Hidx]. intros row [Hl Hr]. simpl.
        assert (Hlk : lookup IndexError row (Z.of_nat j) = Ok (nth j row 0)).
        { apply lookup_ok. split; [lia|]. rewrite Nat2Z.id.
          apply nth_error_nth'. lia. }
        rewrite Hlk. simpl. apply lookup_ok.
        assert (Hin : In (nth j row 0) row) by (apply nth_In; lia).
        rewrite Forall_forall in Hr. specialize (Hr _ Hin).
        split; [lia|]. apply nth_error_nth'. unfold len in Hr. lia. }
    simpl.
    destruct (set_column_step (neg_table self) j m neg_idx neg_keys)
      as [keys' [Hset HF]]; [|exact H|].
    { eapply Forall_impl; [|exact Hidx]. intros row [Hl _]. exact Hl. }
    rewrite Hset. simpl. apply IH; [|exact HF].
    eapply Forall_impl; [|exact Hidx]. intros row [Hl Hr]. split; [lia|exact Hr].
Qed.

(** C10. For a sampler built over a non-empty [uint32] table, every
    [sample_count >= 1] and every non-negative column request, [sample]
    returns a matrix of [sample_count] rows and [k] columns whose entries are
    all elements of the table; [k] is the request when that is not zero and
    the constructor's [neg_count] otherwise.  A request of [0] gives the very
    result of requesting the constructor's [neg_count], so no request selects
    zero columns: the result has none only if the constructor's [neg_count]
    is zero. *)
Theorem NegSampler_sample_shape (table : list Z) (count0 : Z)
  (sample_count requested : Z) (neg_idx : list (list Z)) :
  let self := NegSampler_init table count0 in
  let k := if requested =? 0 then count0 else requested in
  table <> [] ->
  Forall is_uint32 table ->
  0 <= count0 ->
  1 <= sample_count ->
  0 <= requested ->
  randint_matrix (neg_table_size self) sample_count k neg_idx ->
  exists neg_keys,
    sample self sample_count requested neg_idx = Ok neg_keys
    /\ len neg_keys = sample_count
    /\ Forall (fun row => len row = k /\ Forall (fun x => In x table) row)
         neg_keys
    /\ sample self sample_count 0 neg_idx
       = sample self sample_count count0 neg_idx
    /\ (k = 0 -> count0 = 0).
Proof.
  intros self k Hne Hu32 Hc Hn Hr [Hrows Hidx].
  assert (Hk : 0 <= k) by (unfold k; destruct (requested =? 0); lia).
  assert (Hsize : neg_table_size self = len table) by reflexivity.
  assert (Hpos : 0 < len table).
  { unfold len. destruct table; [contradiction | simpl; lia]. }
  exists (map (map (fun p => wrap32 (nth (Z.to_nat p) table 0))) neg_idx).
  split; [|split; [|split; [|split]]].
  - unfold sample. simpl neg_count.
    change (if requested =? 0 then count0 else requested) with k.
    replace ((sample_count <? 0) || (k <? 0)) with false
      by (symmetry; apply orb_false_iff; split; apply Z.ltb_ge; lia).
    replace (neg_table_size self <=? 0) with false
      by (symmetry; apply Z.leb_gt; lia).
    unfold zrange.
    rewrite (neg_columns_spec self (Z.to_nat k) 0).
    + simpl. f_equal. rewrite map_map. apply map_ext. intros row.
      now rewrite map_map.
    + eapply Forall_impl; [|exact Hidx]. intros row [Hl Hrow].
      split; [unfold len in Hl; lia|]. exact Hrow.
    + unfold zeros. simpl firstn.
      assert (Hlen : length neg_idx = Z.to_nat sample_count)
        by (unfold len in Hrows; lia).
      rewrite <- Hlen. clear. induction neg_idx; simpl; constructor; auto.
  - unfold len. rewrite length_map. exact Hrows.
  - apply Forall_map. eapply Forall_impl; [|exact Hidx].
    intros row [Hl Hrow]. split.
    + unfold len. rewrite length_map. exact Hl.
    + apply Forall_map. eapply Forall_impl; [|exact Hrow].
      intros x Hx. simpl.
      assert (Hin : In (nth (Z.to_nat x) table 0) table)
        by (apply nth_In; rewrite Hsize in Hx; unfold len in Hx; lia).
      rewrite wrap32_small; [exact Hin|].
      rewrite Forall_forall in Hu32. auto.
  - unfold sample. simpl neg_count.
    destruct (count0 =? 0) eqn:E; [|reflexivity].
    apply Z.eqb_eq in E. now rewrite E.
  - unfold k. destruct (requested =? 0) eqn:E; [auto|].
    apply Z.eqb_neq in E. lia.
Qed.

Lemma NegSampler_sample_shape_witness :
  sample (NegSampler_init [5; 6; 7] 2) 3 0 [[0; 1]; [2; 2]; [1; 0]]
  = Ok [[5; 6]; [7; 7]; [6; 5]]
  /\ exists neg_keys,
       sample (NegSampler_init [5; 6; 7] 2) 3 0 [[0; 1]; [2; 2]; [1; 0]]
       = Ok neg_keys
       /\ len neg_keys = 3.
Proof.
  split; [reflexivity|].
  destruct (NegSampler_sample_shape [5; 6; 7] 2 3 0 [[0; 1]; [2; 2]; [1; 0]])
    as [neg_keys (H1 & H2 & _)].
  - discriminate.
  - repeat constructor; unfold is_uint32; lia.
  - lia.
  - lia.
  - lia.
  - split; [reflexivity|].
    repeat constructor; simpl; lia.
  - exists neg_keys. split; assumption.
Defined.

(** ** fast_seq_sample *)

Lemma lookup_app_mid {A : Type} (err : PyError) (l1 l2 : list A) (x : A) :
  lookup err (l1 ++ x :: l2) (len l1) = Ok x.
Proof.
  apply lookup_ok. split; [apply len_nonneg|].
  unfold len. rewrite Nat2Z.id, nth_error_app2 by lia.
  now rewrite Nat.sub_diag.
Qed.

Lemma store_app_mid {A : Type} (err : PyError) (l1 l2 : list A) (x y : A) :
  store err (l1 ++ x :: l2) (len l1) y = Ok (l1 ++ y :: l2).
Proof.
  rewrite store_total.
  - unfold len. now rewrite Nat2Z.id, set_nth_app_mid.
  - rewrite len_app, len_cons. pose proof (len_nonneg l1).
    pose proof (len_nonneg l2). lia.
Qed.

Lemma store2_app_mid (before after : list (list Z)) (pre rest : list Z)
  (y x : Z) :
  store2 (before ++ (pre ++ y :: rest) :: after) (len before) (len pre) x
  = Ok (before ++ (pre ++ x :: rest) :: after).
Proof.
  unfold store2. rewrite lookup_app_mid. cbn [bind].
  rewrite store_app_mid. cbn [bind]. apply store_app_mid.
Qed.

Lemma seq_fill_spec (phrase : list Z) (pad start_idx : Z)
  (before after : list (list Z)) (rounds : nat) :
  forall (pre rest : list Z),
    (rounds <= length rest)%nat ->
    (forall pos, len pre <= pos < len pre + Z.of_nat rounds ->
                 start_idx + pos < len phrase) ->
    seq_fill rounds (len pre) phrase [pad] start_idx (len before)
      (before ++ (pre ++ rest) :: after)
    = Ok (before
          ++ (pre
              ++ map (fun pos =>
                        let e := start_idx + pos in
                        if e <? 0 then pad else nth (Z.to_nat e) phrase 0)
                   (map Z.of_nat (seq (length pre) rounds))
              ++ skipn rounds rest)
          :: after).
Proof.
  induction rounds as [|rounds IH]; intros pre rest Hlen Hin.
  - reflexivity.
  - destruct rest as [|y rest]; [simpl in Hlen; lia|].
    cbn [seq_fill].
    set (e := start_idx + len pre).
    assert (Hkey : (if e <? 0 then lookup IndexError [pad] 0
                    else lookup IndexError phrase e)
                   = Ok (if e <? 0 then pad else nth (Z.to_nat e) phrase 0)).
    { destruct (e <? 0) eqn:E; [reflexivity|]. apply Z.ltb_ge in E.
      apply lookup_ok. split; [exact E|]. apply nth_error_nth'.
      specialize (Hin (len pre)). unfold len in *. lia. }
    rewrite Hkey. cbn [bind]. rewrite store2_app_mid. cbn [bind].
    replace (len pre + 1) with (len (pre ++ [if e <? 0 then pad
                                             else nth (Z.to_nat e) phrase 0]))
      by (rewrite len_app; reflexivity).
    replace (pre ++ (if e <? 0 then pad else nth (Z.to_nat e) phrase 0) :: rest)
      with ((pre ++ [if e <? 0 then pad else nth (Z.to_nat e) phrase 0]) ++ rest)
      by (now rewrite <- app_assoc).
    rewrite IH.
    + f_equal. f_equal. f_equal. rewrite <- app_assoc. f_equal.
      cbn [seq map skipn app]. unfold len. rewrite length_app. cbn [length].
      replace (length pre + 1)%nat with (S (length pre)) by lia.
      reflexivity.
    + simpl in Hlen. lia.
    + intros pos Hpos. apply Hin. rewrite len_app in Hpos.
      change (len [if e <? 0 then pad else nth (Z.to_nat e) phrase 0]) with 1
        in Hpos. lia.
Qed.

Lemma stop_of_range (phrase : list Z) (x : Z) :
  2 <= len phrase -> 1 <= stop_of phrase x <= len phrase - 1.
Proof.
  intros H. unfold stop_of.
  pose proof (Z.mod_pos_bound x (len phrase - 1)). lia.
Qed.

Lemma fast_seq_loop_spec (phrase : list Z) (pad gram_n : Z)
  (rand_pool : list Z) (after : list (list Z)) (rounds : nat) :
  2 <= len phrase ->
  0 <= gram_n ->
  forall (r : Z) (before rows : list (list Z)) (i ri : Z),
    0 <= ri ->
    ri + Z.of_nat rounds <= len rand_pool ->
    ri + Z.of_nat rounds < 2 ^ 32 ->
    len before = i + r ->
    length rows = rounds ->
    Forall (fun row => len row = gram_n) rows ->
    fast_seq_loop rounds r phrase gram_n [pad] i (before ++ rows ++ after)
      rand_pool ri
    = Ok (before
          ++ map (fun t => ngram phrase pad gram_n
                             (stop_of phrase (nth (Z.to_nat (ri + t)) rand_pool 0)))
               (zrange (Z.of_nat rounds))
          ++ after,
          ri + Z.of_nat rounds).
Proof.
  intros Hph Hg.
  induction rounds as [|rounds IH];
    intros r before rows i ri Hri Hpool Hwrap Hb Hrows Hw.
  - destruct rows; [|discriminate]. simpl. now rewrite Z.add_0_r.
  - destruct rows as [|row rows]; [discriminate|].
    inversion Hw as [|? ? Hrow Hw']; subst.
    cbn [fast_seq_loop]. unfold seq_draw.
    assert (Hx : lookup IndexError rand_pool ri
                 = Ok (nth (Z.to_nat ri) rand_pool 0)).
    { apply lookup_ok. split; [exact Hri|]. apply nth_error_nth'.
      unfold len in Hpool. lia. }
    rewrite Hx. cbn [bind]. unfold py_mod.
    replace (len phrase - 1 =? 0) with false by (symmetry; apply Z.eqb_neq; lia).
    cbn [bind].
    set (stop := nth (Z.to_nat ri) rand_pool 0 mod (len phrase - 1) + 1).
    assert (Hstop : 1 <= stop <= len phrase - 1)
      by (apply stop_of_range; exact Hph).
    rewrite <- Hb.
    cbn [app].
    pose proof (seq_fill_spec phrase pad (stop - len row + 1) before
                  (rows ++ after) (Z.to_nat (len row)) [] row) as Hfill.
    cbn [app length] in Hfill. change (len []) with 0 in Hfill.
    rewrite Hfill; clear Hfill.
    2:{ unfold len. lia. }
    2:{ intros pos Hpos. pose proof (len_nonneg row). lia. }
    cbn [bind].
    rewrite skipn_all2 by (unfold len; lia). rewrite app_nil_r.
    set (row' := map _ (map Z.of_nat (seq 0 (Z.to_nat (len row))))).
    assert (Hrow' : row' = ngram phrase pad (len row) stop) by reflexivity.
    replace (before ++ row' :: rows ++ after)
      with ((before ++ [row']) ++ rows ++ after)
      by (now rewrite <- app_assoc).
    replace (wrap32 (ri + 1)) with (ri + 1)
      by (symmetry; apply wrap32_small; unfold is_uint32; lia).
    rewrite (IH (r + 1) (before ++ [row']) rows i (ri + 1));
      try lia; auto.
    + replace (ri + 1 + Z.of_nat rounds) with (ri + Z.of_nat (S rounds)) by lia.
      apply (f_equal (fun l => Ok (l, ri + Z.of_nat (S rounds)))).
      rewrite <- app_assoc. apply (f_equal (fun l => before ++ l)). cbn [app].
      replace (Z.of_nat (S rounds)) with (Z.of_nat rounds + 1) by lia.
      rewrite zrange_succ' by lia. cbn [map app].
      rewrite Z.add_0_r, map_map.
      apply (f_equal2 (@cons (list Z))); [reflexivity|].
      apply (f_equal (fun l => l ++ after)).
      apply map_ext. intros t. now rewrite Z.add_assoc.
    + rewrite len_app. change (len [row']) with 1. lia.
Qed.

Lemma nth_map_zrange (f : Z -> Z) (n pos : Z) :
  0 <= pos < n -> nth (Z.to_nat pos) (map f (zrange n)) 0 = f pos.
Proof.
  intros H. unfold zrange. rewrite map_map.
  pose proof (map_nth (fun x => f (Z.of_nat x)) (seq 0 (Z.to_nat n)) O
                (Z.to_nat pos)) as Hn.
  cbv beta in Hn. rewrite seq_nth in Hn by lia.
  rewrite (nth_indep _ 0 (f (Z.of_nat 0)))
    by (rewrite length_map, length_seq; lia).
  rewrite Hn. f_equal. lia.
Qed.

(** C8. On a phrase of at least two keys, with enough entries left in the
    pool and [repeats] rows of width [gram_n] from row [i] on,
    [fast_seq_sample] returns; row [i + r] becomes the n-gram that stops at
    [stop r = pool[ri + r] % (phrase_len - 1) + 1], which lies in
    [1, phrase_len - 1]; position [pos] of that row holds [pad_key] exactly
    when the effective index [stop - gram_n + 1 + pos] is negative and the
    phrase key at that index otherwise; the other rows are untouched.  For a
    phrase of three keys and [gram_n = 5] every such row starts with two
    [pad_key]s and its last [stop + 1] positions hold the phrase keys
    [0 .. stop]. *)
Theorem fast_seq_sample_rows (phrase rand_pool : list Z)
  (gram_n pad i repeats ri : Z) (key_seqs : list (list Z)) :
  2 <= len phrase ->
  0 <= gram_n -> 0 <= i -> 0 <= repeats -> 0 <= ri ->
  ri + repeats <= len rand_pool ->
  ri + repeats < 2 ^ 32 ->
  i + repeats <= len key_seqs ->
  Forall (fun row => len row = gram_n) key_seqs ->
  let stop r := stop_of phrase (nth (Z.to_nat (ri + r)) rand_pool 0) in
  fast_seq_sample phrase gram_n [pad] i repeats key_seqs rand_pool ri
  = Ok (firstn (Z.to_nat i) key_seqs
        ++ map (fun r => ngram phrase pad gram_n (stop r)) (zrange repeats)
        ++ skipn (Z.to_nat (i + repeats)) key_seqs,
        ri + repeats)
  /\ forall r,
       0 <= r < repeats ->
       1 <= stop r <= len phrase - 1
       /\ (forall pos,
             0 <= pos < gram_n ->
             stop r - gram_n + 1 + pos < len phrase
             /\ nth (Z.to_nat pos) (ngram phrase pad gram_n (stop r)) 0
                = if stop r - gram_n + 1 + pos <? 0 then pad
                  else nth (Z.to_nat (stop r - gram_n + 1 + pos)) phrase 0)
       /\ (len phrase = 3 -> gram_n = 5 ->
           (exists rest, ngram phrase pad gram_n (stop r) = pad :: pad :: rest)
           /\ forall pos,
                5 - (stop r + 1) <= pos < 5 ->
                0 <= pos - (4 - stop r) <= stop r
                /\ nth (Z.to_nat pos) (ngram phrase pad gram_n (stop r)) 0
                   = nth (Z.to_nat (pos - (4 - stop r))) phrase 0).
Proof.
  intros Hph Hg Hi Hrep Hri Hpool Hwrap Hrows Hw stop.
  assert (Hnth : forall r pos, 0 <= pos < gram_n ->
            nth (Z.to_nat pos) (ngram phrase pad gram_n (stop r)) 0
            = if stop r - gram_n + 1 + pos <? 0 then pad
              else nth (Z.to_nat (stop r - gram_n + 1 + pos)) phrase 0).
  { intros r pos Hpos. unfold ngram.
    now rewrite (nth_map_zrange _ gram_n pos Hpos). }
  split.
  - unfold fast_seq_sample.
    set (before := firstn (Z.to_nat i) key_seqs).
    set (rows := firstn (Z.to_nat repeats) (skipn (Z.to_nat i) key_seqs)).
    set (after := skipn (Z.to_nat (i + repeats)) key_seqs).
    assert (Hsplit : key_seqs = before ++ rows ++ after).
    { unfold before, rows, after.
      replace (Z.to_nat (i + repeats)) with (Z.to_nat repeats + Z.to_nat i)%nat
        by lia.
      rewrite <- skipn_skipn. now rewrite !firstn_skipn. }
    rewrite Hsplit at 1.
    rewrite (fast_seq_loop_spec phrase pad gram_n rand_pool after
               (Z.to_nat repeats) Hph Hg 0 before rows i ri); try lia.
    + rewrite !Z2Nat.id by lia. reflexivity.
    + unfold before, len. rewrite length_firstn. unfold len in Hrows. lia.
    + unfold rows. rewrite length_firstn, length_skipn.
      unfold len in Hrows. lia.
    + apply Forall_forall. intros row Hin.
      rewrite Forall_forall in Hw. apply Hw. rewrite Hsplit.
      apply in_or_app. right. apply in_or_app. now left.
  - intros r Hr.
    assert (Hstop : 1 <= stop r <= len phrase - 1)
      by (apply stop_of_range; exact Hph).
    split; [exact Hstop|]. split.
    + intros pos Hpos. split; [lia | now apply Hnth].
    + intros H3 H5. split.
      * subst gram_n. unfold ngram.
        change (zrange 5) with [0; 1; 2; 3; 4]. cbn [map].
        replace (stop r - 5 + 1 + 0 <? 0) with true
          by (symmetry; apply Z.ltb_lt; lia).
        replace (stop r - 5 + 1 + 1 <? 0) with true
          by (symmetry; apply Z.ltb_lt; lia).
        eauto.
      * intros pos Hpos. split; [lia|].
        rewrite Hnth by lia. subst gram_n.
        replace (stop r - 5 + 1 + pos <? 0) with false
          by (symmetry; apply Z.ltb_ge; lia).
        f_equal. lia.
Qed.

Lemma fast_seq_sample_rows_witness :
  fast_seq_sample [7; 8; 9] 5 [0] 0 2 [[0; 0; 0; 0; 0]; [0; 0; 0; 0; 0]]
    [4; 1; 3] 0
  = Ok ([[0; 0; 0; 7; 8]; [0; 0; 7; 8; 9]], 2).
Proof.
  destruct (fast_seq_sample_rows [7; 8; 9] [4; 1; 3] 5 0 0 2 0
              [[0; 0; 0; 0; 0]; [0; 0; 0; 0; 0]]) as [H _];
    try (unfold len; simpl; lia).
  - repeat constructor.
  - exact H.
Defined.

(** ** fast_pair_sample *)

Lemma py_mod_ok (a b m : Z) :
  py_mod a b = Ok m -> b <> 0 /\ m = a mod b.
Proof.
  unfold py_mod. destruct (b =? 0) eqn:E; [discriminate|].
  apply Z.eqb_neq in E. intros [= <-]. auto.
Qed.

Lemma resample_spec (fuel : nat) (rand_pool : list Z) (a_idx c_min c_span : Z) :
  0 < c_span ->
  forall ri c_idx ri',
    resample fuel rand_pool a_idx c_min c_span ri = Ok (c_idx, ri') ->
    c_min <= c_idx < c_min + c_span /\ c_idx <> a_idx.
Proof.
  intros Hspan. induction fuel as [|fuel IH]; intros ri c_idx ri' H;
    cbn [resample] in H; [discriminate|].
  apply bind_ok in H. destruct H as [x [_ H]].
  apply bind_ok in H. destruct H as [m [Hm H]].
  apply py_mod_ok in Hm. destruct Hm as [_ ->].
  destruct (c_min + x mod c_span =? a_idx) eqn:E.
  - eapply IH; eauto.
  - apply Z.eqb_neq in E. injection H as <- <-.
    pose proof (Z.mod_pos_bound x c_span Hspan). lia.
Qed.

Lemma pair_draw_spec (phrase : list Z) (max_window : Z) (rand_pool : list Z)
  (ri a_idx red_win c_idx ri' : Z) :
  2 <= len phrase ->
  1 <= max_window ->
  pair_draw phrase max_window rand_pool ri = Ok (a_idx, red_win, c_idx, ri') ->
  0 <= a_idx < len phrase
  /\ 1 <= red_win <= max_window
  /\ 0 <= c_idx < len phrase
  /\ a_idx - red_win <= c_idx <= a_idx + red_win
  /\ c_idx <> a_idx.
Proof.
  intros Hlen Hwin H. unfold pair_draw in H.
  apply bind_ok in H. destruct H as [x [_ H]].
  apply bind_ok in H. destruct H as [a [Ha H]].
  apply py_mod_ok in Ha. destruct Ha as [_ ->].
  apply bind_ok in H. destruct H as [y [_ H]].
  apply bind_ok in H. destruct H as [w [Hw H]].
  apply py_mod_ok in Hw. destruct Hw as [_ ->].
  apply bind_ok in H. destruct H as [[c ri1] [Hc H]].
  injection H as <- <- <- <-.
  assert (Ha : 0 <= x mod len phrase < len phrase)
    by (apply Z.mod_pos_bound; lia).
  assert (Hw : 0 <= y mod max_window < max_window)
    by (apply Z.mod_pos_bound; lia).
  apply resample_spec in Hc.
  - destruct (x mod len phrase - (y mod max_window + 1) <? 0) eqn:E1;
      destruct (x mod len phrase + (y mod max_window + 1) >=? len phrase) eqn:E2;
      lia.
  - destruct (x mod len phrase - (y mod max_window + 1) <? 0) eqn:E1;
      destruct (x mod len phrase + (y mod max_window + 1) >=? len phrase) eqn:E2;
      lia.
Qed.

Lemma lookup_nth (err : PyError) (l : list Z) (i a : Z) :
  lookup err l i = Ok a -> a = nth (Z.to_nat i) l 0.
Proof.
  intros H. apply lookup_ok in H. destruct H as [_ H].
  symmetry. now apply nth_error_nth.
Qed.

Lemma fast_pair_loop_spec (phrase : list Z) (max_window i : Z)
  (rand_pool : list Z) (rounds : nat) :
  2 <= len phrase ->
  1 <= max_window ->
  forall r anc_keys pos_keys ri anc' pos' ri',
    0 <= i + r ->
    fast_pair_loop rounds r phrase max_window i anc_keys pos_keys rand_pool ri
    = Ok (anc', pos', ri') ->
    len anc' = len anc_keys
    /\ len pos' = len pos_keys
    /\ (forall j, 0 <= j -> ~ (i + r <= j < i + r + Z.of_nat rounds) ->
          lookup IndexError anc' j = lookup IndexError anc_keys j
          /\ lookup IndexError pos' j = lookup IndexError pos_keys j)
    /\ forall t,
         0 <= t < Z.of_nat rounds ->
         exists a_idx red_win c_idx,
           0 <= a_idx < len phrase
           /\ 1 <= red_win <= max_window
           /\ 0 <= c_idx < len phrase
           /\ a_idx - red_win <= c_idx <= a_idx + red_win
           /\ c_idx <> a_idx
           /\ lookup IndexError anc' (i + r + t)
              = Ok (nth (Z.to_nat a_idx) phrase 0)
           /\ lookup IndexError pos' (i + r + t)
              = Ok (nth (Z.to_nat c_idx) phrase 0).
Proof.
  intros Hlen Hwin.
  induction rounds as [|rounds IH];
    intros r anc_keys pos_keys ri anc' pos' ri' Hj H; cbn [fast_pair_loop] in H.
  - injection H as <- <- <-. repeat split; auto. intros t Ht. lia.
  - apply bind_ok in H. destruct H as [[[[a w] c] ri1] [Hd H]].
    apply bind_ok in H. destruct H as [av [Hav H]].
    apply bind_ok in H. destruct H as [anc1 [Hanc H]].
    apply bind_ok in H. destruct H as [cv [Hcv H]].
    apply bind_ok in H. destruct H as [pos1 [Hpos H]].
    apply IH in H; [|lia].
    destruct H as (Hl1 & Hl2 & Hout & Hin).
    pose proof (pair_draw_spec _ _ _ _ _ _ _ _ Hlen Hwin Hd) as Hspec.
    apply lookup_nth in Hav. apply lookup_nth in Hcv. subst av cv.
    split; [rewrite Hl1; eapply store_len; eauto|].
    split; [rewrite Hl2; eapply store_len; eauto|].
    split.
    + intros j Hj0 Hnot.
      destruct (Hout j Hj0) as [H1 H2]; [lia|].
      rewrite H1, H2.
      rewrite (lookup_store _ _ _ _ _ _ Hanc Hj0).
      rewrite (lookup_store _ _ _ _ _ _ Hpos Hj0).
      replace (j =? i + r) with false by (symmetry; apply Z.eqb_neq; lia).
      auto.
    + intros t Ht. destruct (Z.eq_dec t 0) as [->|Hne].
      * exists a, w, c.
        destruct (Hout (i + r) Hj) as [H1 H2]; [lia|].
        rewrite Z.add_0_r, H1, H2.
        rewrite (lookup_store _ _ _ _ _ _ Hanc Hj).
        rewrite (lookup_store _ _ _ _ _ _ Hpos Hj).
        rewrite Z.eqb_refl. tauto.
      * destruct (Hin (t - 1)) as (a' & w' & c' & Hs); [lia|].
        exists a', w', c'.
        replace (i + r + t) with (i + (r + 1) + (t - 1)) by lia. exact Hs.
Qed.

(** C7. On a phrase of at least two keys and for [max_window >= 1], every
    draw of [fast_pair_sample] has its anchor position inside the phrase, a
    radius in [1, max_window], and a context position inside the phrase,
    within the radius of the anchor and different from it; what is written
    to [anc_keys] and [pos_keys] at [i + r] are the phrase keys at these two
    positions, so on a phrase of distinct keys the two keys differ.  The
    other cells of both arrays are untouched. *)
Theorem fast_pair_sample_positions (phrase : list Z) (max_window i repeats : Z)
  (anc_keys pos_keys rand_pool : list Z) (ri : Z)
  (anc' pos' : list Z) (ri' : Z) :
  2 <= len phrase ->
  1 <= max_window ->
  0 <= i ->
  fast_pair_sample phrase max_window i repeats anc_keys pos_keys rand_pool ri
  = Ok (anc', pos', ri') ->
  len anc' = len anc_keys
  /\ len pos' = len pos_keys
  /\ (forall j, 0 <= j -> ~ (i <= j < i + repeats) ->
        lookup IndexError anc' j = lookup IndexError anc_keys j
        /\ lookup IndexError pos' j = lookup IndexError pos_keys j)
  /\ forall r,
       0 <= r < repeats ->
       exists a_idx red_win c_idx,
         0 <= a_idx < len phrase
         /\ 1 <= red_win <= max_window
         /\ 0 <= c_idx < len phrase
         /\ a_idx - red_win <= c_idx <= a_idx + red_win
         /\ c_idx <> a_idx
         /\ lookup IndexError anc' (i + r) = Ok (nth (Z.to_nat a_idx) phrase 0)
         /\ lookup IndexError pos' (i + r) = Ok (nth (Z.to_nat c_idx) phrase 0)
         /\ (NoDup phrase ->
             nth (Z.to_nat a_idx) phrase 0 <> nth (Z.to_nat c_idx) phrase 0).
Proof.
  intros Hlen Hwin Hi H. unfold fast_pair_sample in H.
  apply (fast_pair_loop_spec phrase max_window i rand_pool (Z.to_nat repeats)
           Hlen Hwin 0) in H; [|lia].
  destruct H as (Hl1 & Hl2 & Hout & Hin).
  split; [exact Hl1|]. split; [exact Hl2|]. split.
  - intros j Hj Hnot. apply Hout; [exact Hj | lia].
  - intros r Hr. destruct (Hin r) as (a & w & c & Ha & Hw & Hc & Hwin' & Hne & H1 & H2);
      [lia|].
    exists a, w, c. rewrite Z.add_0_r in H1, H2.
    repeat (split; [assumption|]).
    intros Hnd Heq. apply Hne.
    pose proof (proj1 (NoDup_nth phrase 0) Hnd) as Hn. unfold len in *.
    assert (Z.to_nat c = Z.to_nat a); [|lia].
    symmetry. apply Hn; [lia | lia | exact Heq].
Qed.

Lemma fast_pair_sample_positions_witness :
  exists anc' pos' ri',
    fast_pair_sample [10; 11; 12; 13; 14] 2 0 2 [0; 0] [0; 0]
      [7; 0; 2; 1; 4; 1; 3; 0] 0
    = Ok (anc', pos', ri')
    /\ len anc' = 2.
Proof.
  destruct (fast_pair_sample [10; 11; 12; 13; 14] 2 0 2 [0; 0] [0; 0]
              [7; 0; 2; 1; 4; 1; 3; 0] 0) as [[[anc' pos'] ri']|e] eqn:E;
    [|vm_compute in E; discriminate E].
  exists anc', pos', ri'. split; [reflexivity|].
  refine (proj1 (fast_pair_sample_positions _ _ _ _ _ _ _ _ _ _ _ _ _ _ E));
    unfold len; simpl; lia.
Defined.

(** ** The sampling tables *)

Lemma sweep_uint32 (share_at : Z -> result float) (size table_size : Z)
  (rounds : nat) :
  forall tidx widx d1 table,
    sweep share_at size table_size rounds tidx widx d1 = Ok table ->
    Forall is_uint32 table.
Proof.
  induction rounds as [|rounds IH]; intros tidx widx d1 table H;
    cbn [sweep] in H.
  - injection H as <-. constructor.
  - apply bind_ok in H. destruct H as [progress [_ H]].
    apply bind_ok in H. destruct H as [[widx' d1'] [_ H]].
    apply bind_ok in H. destruct H as [rest [Hrest H]].
    injection H as <-. constructor; [apply wrap32_range | eapply IH; eauto].
Qed.

(** Whenever the sweep completes, the table has one entry per round and
    every entry is a valid cursor position. *)
Lemma sweep_valid (share_at : Z -> result float) (size table_size : Z)
  (rounds : nat) :
  size <= 2 ^ 32 ->
  forall tidx widx d1 table,
    0 <= widx < size ->
    sweep share_at size table_size rounds tidx widx d1 = Ok table ->
    length table = rounds /\ Forall (fun x => 0 <= x < size) table.
Proof.
  intros Hsize.
  induction rounds as [|rounds IH]; intros tidx widx d1 table Hw H;
    cbn [sweep] in H.
  - injection H as <-. split; [reflexivity | constructor].
  - apply bind_ok in H. destruct H as [progress [_ H]].
    apply bind_ok in H. destruct H as [[widx' d1'] [Hadv H]].
    apply bind_ok in H. destruct H as [rest [Hrest H]].
    injection H as <-.
    assert (Hw' : widx' = widx \/ widx' = widx + 1).
    { destruct (PrimFloat.ltb d1 progress).
      - apply bind_ok in Hadv. destruct Hadv as [s [_ Hadv]].
        injection Hadv as <- _. now right.
      - injection Hadv as <- _. now left. }
    apply IH in Hrest.
    + destruct Hrest as [Hlen Hall]. split; [simpl; now rewrite Hlen|].
      constructor; [|exact Hall].
      rewrite wrap32_small; [exact Hw | unfold is_uint32; lia].
    + destruct (widx' >=? size) eqn:E; lia.
Qed.

(** The cursor is clamped only after the share of the advanced cursor has
    been read: when the sweep has to advance from the last entry, that read
    raises and the clamp is never reached. *)
Lemma sweep_reads_before_clamp (share_at : Z -> result float)
  (size table_size : Z) (rounds : nat) (tidx : Z) (d1 progress : float)
  (e : PyError) :
  py_fdiv (Z2f tidx) (Z2f table_size) = Ok progress ->
  PrimFloat.ltb d1 progress = true ->
  share_at size = Raise e ->
  sweep share_at size table_size (S rounds) tidx (size - 1) d1 = Raise e.
Proof.
  intros Hp Hlt Hs. cbn [sweep]. rewrite Hp. cbn [bind]. rewrite Hlt.
  replace (size - 1 + 1) with size by lia. rewrite Hs. reflexivity.
Qed.

Lemma phrase_share_past_end (p_list : list (list Z)) :
  phrase_share (map (fun p : list Z => Z2f (len p)) p_list)
    (fsum (map (fun p : list Z => Z2f (len p)) p_list)) (len p_list)
  = Raise IndexError.
Proof.
  unfold phrase_share, lookup.
  destruct (len p_list <? 0) eqn:E; [reflexivity|].
  replace (nth_error _ _) with (@None float); [reflexivity|].
  symmetry. apply nth_error_None. rewrite length_map. unfold len. lia.
Qed.

(** ** PhraseSampler: the phrase keys *)

Lemma fill_slice_nonneg (a : list Z) (i n : nat) (x : Z) :
  0 <= x -> Forall (fun k => 0 <= k) a ->
  Forall (fun k => 0 <= k) (fill_slice a i n x).
Proof.
  intros Hx. revert i n. induction a as [|h t IH]; intros i n Ha.
  - destruct i, n; constructor.
  - inversion Ha; subst. destruct i, n; cbn [fill_slice]; auto.
Qed.

Lemma length_fill_slice (a : list Z) (i n : nat) (x : Z) :
  length (fill_slice a i n x) = length a.
Proof.
  revert i n. induction a as [|h t IH]; intros i n.
  - destruct i, n; reflexivity.
  - destruct i, n; cbn [fill_slice length]; auto.
Qed.

Lemma pairs_loop_keys (self : PhraseSampler) (rand_pool : list Z)
  (repeats : Z) (rounds : nat) :
  Forall (fun k => 0 <= k) (phrase_table self) ->
  forall i anc_keys pos_keys phrase_keys ri anc' pos' keys',
    Forall (fun k => 0 <= k) phrase_keys ->
    pairs_loop rounds self i repeats anc_keys pos_keys phrase_keys rand_pool ri
    = Ok (anc', pos', keys') ->
    Forall (fun k => 0 <= k) keys' /\ length keys' = length phrase_keys.
Proof.
  intros Ht. induction rounds as [|rounds IH];
    intros i anc_keys pos_keys phrase_keys ri anc' pos' keys' Hk H;
    cbn [pairs_loop] in H.
  - injection H as <- <- <-. auto.
  - apply bind_ok in H. destruct H as [pt_idx [_ H]].
    apply bind_ok in H. destruct H as [key [Hkey H]].
    apply bind_ok in H. destruct H as [pk [_ H]].
    apply bind_ok in H. destruct H as [phrase [_ H]].
    apply bind_ok in H. destruct H as [[[anc1 pos1] ri1] [_ H]].
    apply IH in H.
    + now rewrite length_fill_slice in H.
    + apply fill_slice_nonneg; [|exact Hk].
      apply lookup_in in Hkey. rewrite Forall_forall in Ht. auto.
Qed.

Lemma ngrams_loop_keys (self : PhraseSampler) (rand_pool pad_key : list Z)
  (repeats gram_n : Z) (rounds : nat) :
  Forall (fun k => 0 <= k) (phrase_table self) ->
  forall i key_seqs phrase_keys ri seqs' keys',
    Forall (fun k => 0 <= k) phrase_keys ->
    ngrams_loop rounds self i repeats gram_n pad_key key_seqs phrase_keys
      rand_pool ri
    = Ok (seqs', keys') ->
    Forall (fun k => 0 <= k) keys' /\ length keys' = length phrase_keys.
Proof.
  intros Ht. induction rounds as [|rounds IH];
    intros i key_seqs phrase_keys ri seqs' keys' Hk H;
    cbn [ngrams_loop] in H.
  - injection H as <- <-. auto.
  - apply bind_ok in H. destruct H as [pt_idx [_ H]].
    apply bind_ok in H. destruct H as [key [Hkey H]].
    apply bind_ok in H. destruct H as [pk [_ H]].
    apply bind_ok in H. destruct H as [phrase [_ H]].
    apply bind_ok in H. destruct H as [[seqs1 ri1] [_ H]].
    apply IH in H.
    + now rewrite length_fill_slice in H.
    + apply fill_slice_nonneg; [|exact Hk].
      apply lookup_in in Hkey. rewrite Forall_forall in Ht. auto.
Qed.

Lemma cap_keys_bound (cap : Z) (phrase_keys : list Z) :
  0 <= cap ->
  Forall (fun k => 0 <= k) phrase_keys ->
  Forall (fun k => 0 <= k <= cap) (cap_keys cap phrase_keys).
Proof.
  intros Hcap H. unfold cap_keys. apply Forall_map.
  eapply Forall_impl; [|exact H]. intros k Hk. cbv beta in *.
  pose proof (wrap32_range (Z.min cap k)) as [H0 _].
  split; [exact H0|]. unfold wrap32.
  pose proof (Z.mod_le (Z.min cap k) (2 ^ 32)). lia.
Qed.

Lemma repeat_nonneg (n : nat) : Forall (fun k => 0 <= k) (repeat 0 n).
Proof. induction n; simpl; constructor; auto; lia. Qed.

Lemma PhraseSampler_new_ok table_size phrases mw mpk self :
  PhraseSampler_new table_size phrases mw mpk = Ok self ->
  max_phrase_key self = Z.min (len phrases) mpk
  /\ pt_size self = len (phrase_table self)
  /\ Forall (fun k => 0 <= k) (phrase_table self).
Proof.
  unfold PhraseSampler_new. intros H.
  apply bind_ok in H. destruct H as [table [Ht H]]. injection H as <-.
  cbn. split; [reflexivity|]. split; [reflexivity|].
  unfold PhraseSampler_make_table in Ht.
  destruct (table_size <? 0); [discriminate|].
  apply bind_ok in Ht. destruct Ht as [d1 [_ Ht]].
  apply sweep_uint32 in Ht. eapply Forall_impl; [|exact Ht].
  intros k Hk. apply Hk.
Qed.

(** C4, as the code has it. For a sampler built with a non-negative
    [max_phrase_key] over a table of any size (the default one included),
    [sample_pairs] and [sample_ngrams] return [sample_count] phrase keys,
    each between [0] and [min(len(phrase_list), max_phrase_key)]: the cap is
    the constructor's argument itself (or the number of phrases when that is
    smaller), not the argument minus one. *)
Theorem phrase_keys_capped (table_size : Z) (phrases : list (list Z))
  (mw mpk : Z) (self : PhraseSampler) :
  0 <= mpk ->
  PhraseSampler_new table_size phrases mw mpk = Ok self ->
  (forall sample_count rand_pool anc_keys pos_keys phrase_keys,
     sample_pairs self sample_count rand_pool
     = Ok (anc_keys, pos_keys, phrase_keys) ->
     len phrase_keys = sample_count
     /\ Forall (fun k => 0 <= k <= Z.min (len phrases) mpk) phrase_keys)
  /\ (forall sample_count gram_n pad_key rand_pool key_seqs phrase_keys,
        sample_ngrams self sample_count gram_n pad_key rand_pool
        = Ok (key_seqs, phrase_keys) ->
        len phrase_keys = sample_count
        /\ Forall (fun k => 0 <= k <= Z.min (len phrases) mpk) phrase_keys).
Proof.
  intros Hmpk Hnew.
  destruct (PhraseSampler_new_ok _ _ _ _ _ Hnew) as (Hcap & _ & Htab).
  assert (Hc : 0 <= Z.min (len phrases) mpk)
    by (pose proof (len_nonneg phrases); lia).
  split.
  - intros n pool anc pos keys H. unfold sample_pairs in H.
    destruct (n <? 0) eqn:En; [discriminate|]. apply Z.ltb_ge in En.
    apply bind_ok in H. destruct H as [[[anc1 pos1] keys1] [Hloop H]].
    injection H as <- <- <-.
    apply (pairs_loop_keys self _ _ _ Htab) in Hloop; [|apply repeat_nonneg].
    destruct Hloop as [Hk Hl]. split.
    + unfold len, cap_keys. rewrite length_map, Hl, repeat_length. lia.
    + rewrite Hcap. now apply cap_keys_bound.
  - intros n g pad pool seqs keys H. unfold sample_ngrams in H.
    destruct ((n <? 0) || (g <? 0)) eqn:En; [discriminate|].
    apply orb_false_iff in En. destruct En as [En _]. apply Z.ltb_ge in En.
    apply bind_ok in H. destruct H as [[seqs1 keys1] [Hloop H]].
    injection H as <- <-.
    apply (ngrams_loop_keys self _ _ _ _ _ Htab) in Hloop; [|apply repeat_nonneg].
    destruct Hloop as [Hk Hl]. split.
    + unfold len, cap_keys. rewrite length_map, Hl, repeat_length. lia.
    + rewrite Hcap. now apply cap_keys_bound.
Qed.

Lemma phrase_keys_capped_witness :
  exists self anc_keys pos_keys phrase_keys,
    PhraseSampler_new 8 example_phrases 2 1 = Ok self
    /\ sample_pairs self 2 example_pool = Ok (anc_keys, pos_keys, phrase_keys)
    /\ Forall (fun k => 0 <= k <= 1) phrase_keys.
Proof.
  destruct (PhraseSampler_new 8 example_phrases 2 1) as [self|e] eqn:E;
    [|vm_compute in E; discriminate E].
  destruct (sample_pairs self 2 example_pool) as [[[anc pos] keys]|e] eqn:G.
  2:{ vm_compute in E. injection E as <-. vm_compute in G. discriminate G. }
  exists self, anc, pos, keys. split; [reflexivity|]. split; [exact G|].
  exact (proj2 (proj1 (phrase_keys_capped 8 example_phrases 2 1 self
                         ltac:(lia) E) 2 example_pool anc pos keys G)).
Defined.

(** C4, as the specification states it, fails: with two phrases and
    [max_phrase_key = 1] the draw of the second phrase returns the phrase
    key [1], which is not at most [max_phrase_key - 1 = 0].  (The table is
    swept at eight entries; a larger table holds the same two values.) *)
Lemma phrase_keys_capped_counterexample :
  exists self anc_keys pos_keys phrase_keys,
    PhraseSampler_new 8 example_phrases 2 1 = Ok self
    /\ sample_pairs self 2 example_pool = Ok (anc_keys, pos_keys, phrase_keys)
    /\ ~ Forall (fun k => k <= 1 - 1) phrase_keys.
Proof.
  eexists. eexists. eexists. eexists.
  split; [vm_compute; reflexivity|]. split; [vm_compute; reflexivity|].
  intros H. inversion H as [|k ks Hk _]. lia.
Qed.

(** ** The negative-sampling table on the unknown-only vocabulary *)

Lemma make_table_zero_mass (py_pow : Z -> float -> float) (w2k : dict string Z)
  (table_size : Z) (p : option float) :
  py_pow 0 DEFAULT_POWER = fzero ->
  0 <= table_size ->
  _make_table py_pow [(UNK, mkVocab 0 0 p)] [(0, UNK)] w2k table_size
    DEFAULT_POWER
  = Raise ZeroDivisionError.
Proof.
  intros Hpow Hts. unfold _make_table.
  replace (table_size <? 0) with false by (symmetry; apply Z.ltb_ge; lia).
  unfold neg_share, dict_values. cbn [map snd dict_lookup dict_get Z.eqb bind].
  replace (String.eqb UNK UNK) with true by reflexivity.
  cbn [count bind]. rewrite Hpow. reflexivity.
Qed.

(** C6 fails on the code. The vocabulary of the empty corpus is the unknown
    word alone, with count [0]; it has one entry, and the build of its
    negative-sampling table does not complete: the first share is
    [0.0 / 0.0], which raises [ZeroDivisionError], for every table size and
    so also inside [build_vocab]. *)
Theorem make_table_unknown_only (py_pow : Z -> float -> float) :
  py_pow 0 DEFAULT_POWER = fzero ->
  (forall w2k table_size p,
     0 <= table_size ->
     _make_table py_pow [(UNK, mkVocab 0 0 p)] [(0, UNK)] w2k table_size
       DEFAULT_POWER
     = Raise ZeroDivisionError)
  /\ forall min_count,
       build_vocab py_pow [] min_count false true fzero
       = Raise ZeroDivisionError.
Proof.
  intros Hpow. split.
  - intros w2k table_size p Hts. now apply make_table_zero_mass.
  - intros min_count. unfold build_vocab.
    replace (build_index [] min_count)
      with (Ok (mkIndexState [(UNK, mkVocab 0 0 None)] [(UNK, 0)] [(0, UNK)] 0 0))
      by reflexivity.
    cbn [bind st_w2v st_k2w st_w2k].
    replace (_precalc_downsampling [(UNK, mkVocab 0 0 None)] fzero)
      with (Ok [(UNK, mkVocab 0 0 (Some fone))]) by reflexivity.
    cbn [bind]. rewrite make_table_zero_mass; [reflexivity | exact Hpow |].
    unfold DEFAULT_TABLE_SIZE. lia.
Qed.

Lemma make_table_unknown_only_witness :
  build_vocab pow_stub [] 5 false true fzero = Raise ZeroDivisionError.
Proof.
  exact (proj2 (make_table_unknown_only pow_stub eq_refl) 5).
Defined.

(** ** heapq keeps its invariant *)

Ltac dlia := zify; Z.to_euclidean_division_equations; lia.

Lemma desc_ge (s p : nat) : desc s p -> (s <= p)%nat.
Proof. induction 1; lia. Qed.

Lemma desc_parent (s p : nat) :
  desc s p -> p <> s -> desc s (Nat.div2 (p - 1)).
Proof.
  intros H Hne. destruct H as [|q Hq|q Hq]; [contradiction| |].
  - replace (Nat.div2 (2 * q + 1 - 1)) with q by dlia. exact Hq.
  - replace (Nat.div2 (2 * q + 2 - 1)) with q by dlia. exact Hq.
Qed.

Lemma desc_zero (p : nat) : desc 0 p.
Proof.
  induction p as [p IH] using lt_wf_ind.
  destruct p as [|p]; [constructor|].
  assert (Hq : desc 0 (Nat.div2 (S p - 1))) by (apply IH; dlia).
  assert (Hc : S p = (2 * Nat.div2 (S p - 1) + 1)%nat
               \/ S p = (2 * Nat.div2 (S p - 1) + 2)%nat) by dlia.
  destruct Hc as [-> | ->]; constructor; exact Hq.
Qed.

Lemma child_parent (p c : nat) : child p c -> Nat.div2 (c - 1) = p.
Proof. unfold child. dlia. Qed.

Lemma child_gt (p c : nat) : child p c -> (p < c)%nat.
Proof. unfold child. lia. Qed.

Lemma nth_error_some_lt {A : Type} (h : list A) (i : nat) :
  (i < length h)%nat -> exists x, nth_error h i = Some x.
Proof.
  intros H. destruct (nth_error h i) eqn:E; [eauto|].
  apply nth_error_None in E. lia.
Qed.

Lemma set_nth_same {A : Type} (h : list A) (i : nat) (x : A) :
  nth_error h i = Some x -> set_nth h i x = h.
Proof.
  revert i. induction h as [|a h IH]; intros [|i] H; simpl in *;
    try discriminate; [congruence | f_equal; auto].
Qed.

(** Replacing the item at [i] trades the old item for the new one. *)
Lemma set_nth_perm {A : Type} (h : list A) (i : nat) (x y : A) :
  nth_error h i = Some y -> Permutation (y :: set_nth h i x) (x :: h).
Proof.
  revert i. induction h as [|a h IH]; intros [|i] H; simpl in *;
    try discriminate.
  - injection H as ->. apply perm_swap.
  - rewrite perm_swap. rewrite (IH i H). apply perm_swap.
Qed.

(** Moving the hole from [pos] to [c]. *)
Lemma move_hole_perm {A : Type} (h : list A) (pos c : nat) (x y z : A) :
  nth_error h pos = Some y -> nth_error h c = Some z -> pos <> c ->
  Permutation (set_nth (set_nth h pos z) c x) (set_nth h pos x).
Proof.
  intros Hy Hz Hne.
  assert (Hz1 : nth_error (set_nth h pos z) c = Some z).
  { rewrite nth_error_set_nth.
    destruct (Nat.eqb_spec c pos); [congruence | exact Hz]. }
  pose proof (set_nth_perm _ c x z Hz1) as P1.
  pose proof (set_nth_perm h pos z y Hy) as P2.
  pose proof (set_nth_perm h pos x y Hy) as P3.
  apply (Permutation_cons_inv (a := y)).
  apply (Permutation_cons_inv (a := z)).
  transitivity (y :: z :: set_nth (set_nth h pos z) c x); [apply perm_swap|].
  transitivity (y :: x :: set_nth h pos z); [apply perm_skip, P1|].
  transitivity (x :: y :: set_nth h pos z); [apply perm_swap|].
  transitivity (x :: z :: h); [apply perm_skip, P2|].
  transitivity (z :: x :: h); [apply perm_swap|].
  apply perm_skip. symmetry. exact P3.
Qed.

Section HeapOrder.
Context {A : Type} (key : A -> Z).

(** The root of a heap is a least item. *)
Lemma heap_root_least (h : list A) (r : A) :
  heap_from key 0 h -> nth_error h 0 = Some r ->
  forall x, In x h -> key r <= key x.
Proof.
  intros Hh Hr x Hin. apply In_nth_error in Hin. destruct Hin as [i Hi].
  revert x Hi. induction i as [i IH] using lt_wf_ind. intros x Hi.
  destruct i as [|i]; [rewrite Hr in Hi; injection Hi as ->; lia|].
  set (p := Nat.div2 (S i - 1)).
  assert (Hp : (p < S i)%nat) by (unfold p; dlia).
  assert (Hlen : (S i < length h)%nat) by (apply nth_error_Some; congruence).
  destruct (nth_error_some_lt h p ltac:(lia)) as [y Hy].
  pose proof (IH p Hp y Hy).
  assert (Hc : child p (S i)) by (unfold child, p; dlia).
  pose proof (Hh p (S i) ltac:(lia) Hc y x Hy Hi). lia.
Qed.

(** Dropping [x] into the hole where the loop of [_siftdown] stops. *)
Lemma up_inv_place (s : nat) (h : list A) (pos : nat) (x : A) :
  up_inv key s h pos x ->
  (pos <= s)%nat
  \/ (exists parent,
        nth_error h (Nat.div2 (pos - 1)) = Some parent /\ key parent <= key x) ->
  heap_from key s (set_nth h pos x).
Proof.
  intros (Hlen & Hout & Hkids & _) Hstop p c Hp Hc a b Ha Hb.
  pose proof (child_gt _ _ Hc) as Hgt.
  rewrite nth_error_set_nth in Ha, Hb.
  destruct (Nat.eqb_spec p pos) as [->|Hpp];
    destruct (Nat.eqb_spec c pos) as [->|Hcp]; try lia.
  - destruct (Nat.ltb_spec pos (length h)); [|discriminate].
    injection Ha as <-. eapply Hkids; eauto.
  - destruct (Nat.ltb_spec pos (length h)); [|discriminate].
    injection Hb as <-.
    destruct Hstop as [Hs | [parent [Hpar Hle]]]; [lia|].
    rewrite (child_parent _ _ Hc) in Hpar. congruence.
  - eapply Hout; eauto.
Qed.

Lemma siftdown_loop_spec (fuel s : nat) :
  forall (h : list A) (pos : nat) (x : A),
    (pos <= fuel)%nat ->
    desc s pos ->
    up_inv key s h pos x ->
    length (heapq.siftdown_loop (key_lt key) fuel h s pos x) = length h
    /\ heap_from key s (heapq.siftdown_loop (key_lt key) fuel h s pos x)
    /\ Permutation (heapq.siftdown_loop (key_lt key) fuel h s pos x)
         (set_nth h pos x).
Proof.
  induction fuel as [|fuel IH]; intros h pos x Hfuel Hdesc Hinv.
  - cbn [heapq.siftdown_loop]. split; [apply length_set_nth|].
    split; [|reflexivity]. apply up_inv_place; [exact Hinv | left; lia].
  - cbn [heapq.siftdown_loop].
    destruct (Nat.ltb_spec s pos) as [Hlt|Hge].
    2:{ split; [apply length_set_nth|]. split; [|reflexivity].
        apply up_inv_place; [exact Hinv | left; lia]. }
    destruct Hinv as (Hlen & Hout & Hkids & Hgrand).
    set (pp := Nat.div2 (pos - 1)).
    assert (Hpp : (pp < pos)%nat) by (unfold pp; dlia).
    assert (Hcpp : child pp pos) by (unfold child, pp; dlia).
    assert (Hdpp : desc s pp) by (apply desc_parent; [exact Hdesc | lia]).
    pose proof (desc_ge _ _ Hdpp) as Hspp.
    destruct (nth_error_some_lt h pp ltac:(lia)) as [parent Hpar].
    rewrite Hpar. change (key_lt key x parent) with (key x <? key parent).
    destruct (Z.ltb_spec (key x) (key parent)) as [Hxp|Hxp].
    2:{ split; [apply length_set_nth|]. split; [|reflexivity].
        apply up_inv_place; [repeat split; assumption|].
        right. exists parent. split; [exact Hpar | lia]. }
    destruct (nth_error_some_lt h pos Hlen) as [old Hold].
    destruct (IH (set_nth h pos parent) pp x) as (IH1 & IH2 & IH3);
      [lia | exact Hdpp | |].
    + unfold up_inv. rewrite length_set_nth.
      split; [lia|]. split; [|split].
      * intros p c Hp Hc Hcne Hpne a b Ha Hb.
        rewrite nth_error_set_nth in Ha, Hb.
        pose proof (child_gt _ _ Hc).
        destruct (Nat.eqb_spec c pos) as [->|Hcp].
        { rewrite <- (child_parent _ _ Hc) in Hpne. contradiction. }
        destruct (Nat.eqb_spec p pos) as [->|Hppos].
        { destruct (Nat.ltb_spec pos (length h)); [|discriminate].
          injection Ha as <-.
          apply (Hgrand pp c Hspp Hcpp Hc parent b Hpar Hb). }
        apply (Hout p c Hp Hc Hcp Hppos a b Ha Hb).
      * intros c y Hc Hy. rewrite nth_error_set_nth in Hy.
        destruct (Nat.eqb_spec c pos) as [->|Hcp].
        { destruct (Nat.ltb_spec pos (length h)); [|discriminate].
          injection Hy as <-. lia. }
        pose proof (Hout pp c Hspp Hc Hcp ltac:(lia) parent y Hpar Hy). lia.
      * intros p c Hp Hcp' Hc a b Ha Hb.
        rewrite nth_error_set_nth in Ha, Hb.
        pose proof (child_gt _ _ Hcp').
        destruct (Nat.eqb_spec p pos) as [->|Hppos]; [lia|].
        pose proof (Hout p pp Hp Hcp' ltac:(lia) Hppos a parent Ha Hpar).
        destruct (Nat.eqb_spec c pos) as [->|Hcpos].
        { destruct (Nat.ltb_spec pos (length h)); [|discriminate].
          injection Hb as <-. lia. }
        pose proof (Hout pp c Hspp Hc Hcpos ltac:(lia) parent b Hpar Hb). lia.
    + rewrite length_set_nth in IH1.
      split; [exact IH1|]. split; [exact IH2|].
      rewrite IH3. apply (move_hole_perm h pos pp x old parent); auto. lia.
Qed.

Lemma siftdown_spec (s : nat) (h : list A) (pos : nat) (x : A) :
  nth_error h pos = Some x ->
  desc s pos ->
  up_inv key s h pos x ->
  length (heapq._siftdown (key_lt key) h s pos) = length h
  /\ heap_from key s (heapq._siftdown (key_lt key) h s pos)
  /\ Permutation (heapq._siftdown (key_lt key) h s pos) h.
Proof.
  intros Hx Hdesc Hinv. unfold heapq._siftdown. rewrite Hx.
  destruct (siftdown_loop_spec pos s h pos x (le_n _) Hdesc Hinv)
    as (H1 & H2 & H3).
  split; [exact H1|]. split; [exact H2|].
  now rewrite (set_nth_same h pos x Hx) in H3.
Qed.

Lemma smaller_child_spec (h : list A) (l : nat) :
  (l < length h)%nat ->
  (heapq.smaller_child (key_lt key) h (length h) l = l
   \/ heapq.smaller_child (key_lt key) h (length h) l = (l + 1)%nat)
  /\ (heapq.smaller_child (key_lt key) h (length h) l < length h)%nat
  /\ forall c, c = l \/ c = (l + 1)%nat ->
       le_at key h (heapq.smaller_child (key_lt key) h (length h) l) c.
Proof.
  intros Hl. unfold heapq.smaller_child.
  destruct (nth_error_some_lt h l Hl) as [a Ha].
  destruct (Nat.ltb_spec (l + 1) (length h)) as [Hr|Hr].
  - destruct (nth_error_some_lt h (l + 1) Hr) as [b Hb].
    rewrite Ha, Hb. unfold key_lt.
    destruct (Z.ltb_spec (key a) (key b)) as [Hab|Hab].
    + split; [now left|]. split; [exact Hl|].
      intros c Hc x y Hx Hy. assert (x = a) by congruence.
      destruct Hc as [->| ->];
        [assert (y = a) by congruence | assert (y = b) by congruence];
        subst; lia.
    + split; [now right|]. split; [exact Hr|].
      intros c Hc x y Hx Hy. assert (x = b) by congruence.
      destruct Hc as [->| ->];
        [assert (y = a) by congruence | assert (y = b) by congruence];
        subst; lia.
  - split; [now left|]. split; [exact Hl|].
    intros c [->| ->] x y Hx Hy.
    + rewrite Hx in Hy. injection Hy as ->. lia.
    + assert (nth_error h (l + 1) = None) by (apply nth_error_None; lia).
      congruence.
Qed.

Lemma siftup_loop_spec (s : nat) (fuel : nat) :
  forall (h : list A) (endpos pos : nat),
    endpos = length h ->
    (length h <= fuel + pos)%nat ->
    down_inv key s h pos ->
    length (fst (heapq.siftup_loop (key_lt key) fuel h endpos pos)) = length h
    /\ down_inv key s (fst (heapq.siftup_loop (key_lt key) fuel h endpos pos))
         (snd (heapq.siftup_loop (key_lt key) fuel h endpos pos))
    /\ (length h
        <= 2 * snd (heapq.siftup_loop (key_lt key) fuel h endpos pos) + 1)%nat
    /\ forall x y,
         nth_error h pos = Some y ->
         Permutation
           (set_nth (fst (heapq.siftup_loop (key_lt key) fuel h endpos pos))
              (snd (heapq.siftup_loop (key_lt key) fuel h endpos pos)) x)
           (set_nth h pos x).
Proof.
  induction fuel as [|fuel IH]; intros h endpos pos -> Hfuel Hinv.
  - destruct Hinv as (Hlen & _). lia.
  - cbn [heapq.siftup_loop].
    destruct (Nat.ltb_spec (2 * pos + 1) (length h)) as [Hkid|Hleaf].
    2:{ cbn [fst snd]. repeat split; try apply Hinv; auto. }
    destruct (smaller_child_spec h (2 * pos + 1) Hkid) as (Hc & Hclen & Hcle).
    set (c := heapq.smaller_child (key_lt key) h (length h) (2 * pos + 1)) in *.
    destruct (nth_error_some_lt h c Hclen) as [z Hz]. rewrite Hz.
    destruct Hinv as (Hlen & Hdesc & Hord).
    pose proof (desc_ge _ _ Hdesc) as Hs.
    assert (Hchild : child pos c) by (unfold child; lia).
    destruct (IH (set_nth h pos z) (length h) c) as (IH1 & IH2 & IH3 & IH4).
    + now rewrite length_set_nth.
    + rewrite length_set_nth. lia.
    + unfold down_inv. rewrite length_set_nth. split; [exact Hclen|]. split.
      { destruct Hc as [Hc|Hc]; rewrite Hc.
        - now apply desc_left.
        - replace (2 * pos + 1 + 1)%nat with (2 * pos + 2)%nat by lia.
          now apply desc_right. }
      intros p c' Hp Hpc _ a b Ha Hb.
      rewrite nth_error_set_nth in Ha, Hb.
      pose proof (child_gt _ _ Hpc).
      destruct (Nat.eqb_spec p pos) as [->|Hppos].
      * destruct (Nat.ltb_spec pos (length h)); [|discriminate].
        injection Ha as <-.
        destruct (Nat.eqb_spec c' pos); [lia|].
        apply (Hcle c' ltac:(unfold child in Hpc; lia) z b Hz Hb).
      * destruct (Nat.eqb_spec c' pos) as [->|Hcpos].
        { destruct (Nat.ltb_spec pos (length h)); [|discriminate].
          injection Hb as <-.
          destruct (nth_error_some_lt h pos Hlen) as [old Hold].
          pose proof (Hord p pos Hp Hpc ltac:(lia) a old Ha Hold).
          pose proof (Hord pos c Hs Hchild ltac:(lia) old z Hold Hz). lia. }
        apply (Hord p c' Hp Hpc ltac:(lia) a b Ha Hb).
    + rewrite length_set_nth in IH1, IH3.
      split; [exact IH1|]. split; [exact IH2|]. split; [exact IH3|].
      intros x y Hy. rewrite (IH4 x z).
      * apply (move_hole_perm h pos c x y z Hy Hz). lia.
      * rewrite nth_error_set_nth.
        destruct (Nat.eqb_spec c pos); [lia | exact Hz].
Qed.

Lemma siftup_spec (s : nat) (h : list A) :
  heap_from key (S s) h ->
  (s < length h)%nat ->
  length (heapq._siftup (key_lt key) h s) = length h
  /\ heap_from key s (heapq._siftup (key_lt key) h s)
  /\ Permutation (heapq._siftup (key_lt key) h s) h.
Proof.
  intros Hh Hs. unfold heapq._siftup.
  destruct (nth_error_some_lt h s Hs) as [x Hx]. rewrite Hx.
  destruct (siftup_loop_spec s (length h) h (length h) s eq_refl ltac:(lia))
    as (H1 & H2 & H3 & H4).
  { split; [exact Hs|]. split; [constructor|].
    intros p c Hp Hc Hne. apply Hh; [|exact Hc].
    destruct (Nat.eq_dec p s) as [->|]; [exfalso; now apply Hne | lia]. }
  destruct (heapq.siftup_loop (key_lt key) (length h) h (length h) s)
    as [h' pos'] eqn:E.
  cbn [fst snd] in *.
  destruct H2 as (Hlen' & Hdesc' & Hord').
  destruct (siftdown_spec s (set_nth h' pos' x) pos' x) as (S1 & S2 & S3).
  - rewrite nth_error_set_nth, Nat.eqb_refl.
    destruct (Nat.ltb_spec pos' (length h')); [reflexivity | lia].
  - exact Hdesc'.
  - unfold up_inv. rewrite length_set_nth. split; [exact Hlen'|].
    split; [|split].
    + intros p c Hp Hc Hcne Hpne a b Ha Hb.
      rewrite nth_error_set_nth in Ha, Hb.
      destruct (Nat.eqb_spec p pos'); [contradiction|].
      destruct (Nat.eqb_spec c pos'); [contradiction|].
      apply (Hord' p c Hp Hc ltac:(intros ->; congruence) a b Ha Hb).
    + intros c y Hc Hy.
      assert (nth_error (set_nth h' pos' x) c = None).
      { apply nth_error_None. rewrite length_set_nth.
        unfold child in Hc. lia. }
      congruence.
    + intros p c Hp Hpc Hc a b Ha Hb.
      assert (nth_error (set_nth h' pos' x) c = None).
      { apply nth_error_None. rewrite length_set_nth.
        unfold child in Hc. lia. }
      congruence.
  - rewrite length_set_nth in S1.
    split; [lia|]. split; [exact S2|].
    rewrite S3, (H4 x x Hx). now rewrite (set_nth_same h s x Hx).
Qed.

Lemma heap_from_app (h : list A) (x : A) (s : nat) :
  heap_from key s h ->
  up_inv key s (h ++ [x]) (length h) x.
Proof.
  intros Hh. unfold up_inv. rewrite length_app. cbn [length].
  split; [lia|]. split; [|split].
  - intros p c Hp Hc Hcne Hpne a b Ha Hb.
    assert (Hcl : (c < length (h ++ [x]))%nat)
      by (apply nth_error_Some; congruence).
    rewrite length_app in Hcl. cbn [length] in Hcl.
    pose proof (child_gt _ _ Hc).
    rewrite nth_error_app1 in Ha, Hb by lia.
    apply (Hh p c Hp Hc a b Ha Hb).
  - intros c y Hc Hy.
    assert (nth_error (h ++ [x]) c = None).
    { apply nth_error_None. rewrite length_app. cbn [length].
      unfold child in Hc. lia. }
    congruence.
  - intros p c Hp Hpc Hc a b Ha Hb.
    assert (nth_error (h ++ [x]) c = None).
    { apply nth_error_None. rewrite length_app. cbn [length].
      unfold child in Hc. lia. }
    congruence.
Qed.

Lemma heappush_spec (h : list A) (x : A) :
  heap_from key 0 h ->
  heap_from key 0 (heapq.heappush (key_lt key) h x)
  /\ Permutation (heapq.heappush (key_lt key) h x) (x :: h).
Proof.
  intros Hh. unfold heapq.heappush.
  replace (length (h ++ [x]) - 1)%nat with (length h)
    by (rewrite length_app; cbn [length]; lia).
  destruct (siftdown_spec 0 (h ++ [x]) (length h) x) as (_ & H2 & H3).
  - rewrite nth_error_app2 by lia. now rewrite Nat.sub_diag.
  - apply desc_zero.
  - now apply heap_from_app.
  - split; [exact H2|]. rewrite H3. symmetry. apply Permutation_cons_append.
Qed.

Lemma pop_last_spec (h : list A) :
  match heapq.pop_last h with
  | None => h = []
  | Some (h', x) => h = h' ++ [x]
  end.
Proof.
  induction h as [|a h IH]; cbn [heapq.pop_last]; [reflexivity|].
  destruct (heapq.pop_last h) as [[h' y]|]; subst; reflexivity.
Qed.

(** [heappop] on a non-empty heap returns a least item and leaves a heap of
    the other items. *)
Lemma heappop_spec (h : list A) :
  heap_from key 0 h ->
  h <> [] ->
  exists m h',
    heapq.heappop (key_lt key) h = Ok (m, h')
    /\ Permutation h (m :: h')
    /\ heap_from key 0 h'
    /\ forall y, In y h -> key m <= key y.
Proof.
  intros Hh Hne. unfold heapq.heappop.
  pose proof (pop_last_spec h) as Hp.
  destruct (heapq.pop_last h) as [[h0 lastelt]|]; [|contradiction].
  subst h. destruct h0 as [|r h0].
  - exists lastelt, []. repeat split; auto.
    + intros p c _ Hc a b Ha. destruct p; discriminate.
    + intros y [<-|[]]. lia.
  - eexists. eexists. split; [reflexivity|].
    assert (Hroot : forall y, In y ((r :: h0) ++ [lastelt]) -> key r <= key y)
      by (apply (heap_root_least _ r Hh); reflexivity).
    destruct (siftup_spec 0 (set_nth (r :: h0) 0 lastelt)) as (_ & H2 & H3).
    + intros p c Hp Hc a b Ha Hb.
      pose proof (child_gt _ _ Hc).
      destruct p as [|p]; [lia|]. destruct c as [|c]; [lia|].
      cbn [set_nth nth_error] in Ha, Hb.
      apply (Hh (S p) (S c) ltac:(lia) Hc a b).
      * cbn [app nth_error]. rewrite nth_error_app1; [exact Ha|].
        apply nth_error_Some. congruence.
      * cbn [app nth_error]. rewrite nth_error_app1; [exact Hb|].
        apply nth_error_Some. congruence.
    + cbn. lia.
    + split; [|split; [exact H2 | exact Hroot]].
      rewrite H3. cbn [set_nth app].
      apply perm_skip. symmetry. apply Permutation_cons_append.
Qed.

Lemma heapify_from (k : nat) :
  forall h : list A,
    (k <= length h)%nat ->
    heap_from key k h ->
    heap_from key 0 (fold_left (heapq._siftup (key_lt key)) (rev (seq 0 k)) h)
    /\ Permutation (fold_left (heapq._siftup (key_lt key)) (rev (seq 0 k)) h) h.
Proof.
  induction k as [|k IH]; intros h Hk Hh.
  - cbn. split; [exact Hh | reflexivity].
  - rewrite seq_S, rev_app_distr. cbn [rev app fold_left Nat.add].
    destruct (siftup_spec k h Hh ltac:(lia)) as (H1 & H2 & H3).
    destruct (IH (heapq._siftup (key_lt key) h k) ltac:(lia) H2) as [I1 I2].
    split; [exact I1|]. now rewrite I2.
Qed.

Lemma heapify_spec (h : list A) :
  heap_from key 0 (heapq.heapify (key_lt key) h)
  /\ Permutation (heapq.heapify (key_lt key) h) h.
Proof.
  unfold heapq.heapify. apply heapify_from; [dlia|].
  intros p c Hp Hc a b Ha Hb.
  assert ((c < length h)%nat) by (apply nth_error_Some; congruence).
  unfold child in Hc. dlia.
Qed.

End HeapOrder.

(** ** Depth profiles *)

Lemma sumZ_perm (l l' : list Z) : Permutation l l' -> sumZ l = sumZ l'.
Proof. induction 1; simpl; lia. Qed.

Lemma pcost_perm (P P' : list (Z * nat)) :
  Permutation P P' -> pcost P = pcost P'.
Proof. intros H. unfold pcost. apply sumZ_perm. now apply Permutation_map. Qed.

Lemma pcost_cons (w : Z) (d : nat) (P : list (Z * nat)) :
  pcost ((w, d) :: P) = w * Z.of_nat d + pcost P.
Proof. reflexivity. Qed.

Lemma pcost_app (P1 P2 : list (Z * nat)) :
  pcost (P1 ++ P2) = pcost P1 + pcost P2.
Proof. unfold pcost. now rewrite map_app, sumZ_app. Qed.

Lemma valid_nonempty (l : list nat) : valid l -> l <> [].
Proof.
  induction 1 as [| l1 l2 H1 IH1 H2 IH2 | l l' H IH Hp].
  - discriminate.
  - destruct l1; [contradiction | discriminate].
  - intros ->. apply Permutation_sym, Permutation_nil in Hp. contradiction.
Qed.

Lemma valid_single (d : nat) : valid [d] -> d = O.
Proof.
  intros H. remember [d] as l eqn:E. revert d E.
  induction H as [| l1 l2 H1 IH1 H2 IH2 | l l' H IH Hp]; intros d E.
  - now injection E.
  - apply valid_nonempty in H1. apply valid_nonempty in H2.
    destruct l1; [contradiction|]. destruct l2; [contradiction|].
    apply (f_equal (@length nat)) in E. rewrite length_app in E.
    simpl in E. lia.
  - subst l'. apply Permutation_sym, Permutation_length_1_inv in Hp.
    eauto.
Qed.

(** A profile of two or more depths has two deepest entries that are
    siblings: merging them into their parent leaves a profile. *)
Lemma valid_deepest_pair (ds : list nat) :
  valid ds ->
  (2 <= length ds)%nat ->
  exists D rest,
    Permutation ds (S D :: S D :: rest)
    /\ Forall (fun d => (d <= S D)%nat) rest
    /\ valid (D :: rest).
Proof.
  induction 1 as [| l1 l2 H1 IH1 H2 IH2 | l l' H IH Hp]; intros Hlen.
  - simpl in Hlen. lia.
  - pose proof (valid_nonempty _ H1) as N1.
    pose proof (valid_nonempty _ H2) as N2.
    destruct (le_lt_dec 2 (length l1)) as [L1|L1];
      destruct (le_lt_dec 2 (length l2)) as [L2|L2].
    + destruct (IH1 L1) as (D1 & r1 & P1 & F1 & V1).
      destruct (IH2 L2) as (D2 & r2 & P2 & F2 & V2).
      destruct (le_lt_dec D2 D1) as [HD|HD].
      * exists (S D1), (map S r1 ++ map S l2). split; [|split].
        -- rewrite (Permutation_map S P1). reflexivity.
        -- apply Forall_app. split.
           ++ apply Forall_map. eapply Forall_impl; [|exact F1].
              intros d Hd. cbv beta in *. lia.
           ++ apply Forall_map.
              assert (F : Forall (fun d => (d <= S D2)%nat) l2).
              { eapply Permutation_Forall; [symmetry; exact P2|].
                constructor; [lia|]. constructor; [lia|].
                eapply Forall_impl; [|eassumption].
                intros d Hd. cbv beta in *. lia. }
              eapply Forall_impl; [|exact F]. intros d Hd. cbv beta in *. lia.
        -- change (S D1 :: map S r1 ++ map S l2)
             with (map S (D1 :: r1) ++ map S l2).
           now constructor.
      * exists (S D2), (map S l1 ++ map S r2). split; [|split].
        -- rewrite (Permutation_map S P2). cbn [map].
           rewrite <- !Permutation_middle. reflexivity.
        -- apply Forall_app. split.
           ++ apply Forall_map.
              assert (F : Forall (fun d => (d <= S D1)%nat) l1).
              { eapply Permutation_Forall; [symmetry; exact P1|].
                constructor; [lia|]. constructor; [lia|].
                eapply Forall_impl; [|eassumption].
                intros d Hd. cbv beta in *. lia. }
              eapply Forall_impl; [|exact F]. intros d Hd. cbv beta in *. lia.
           ++ apply Forall_map. eapply Forall_impl; [|exact F2].
              intros d Hd. cbv beta in *. lia.
        -- apply (valid_perm (map S l1 ++ map S (D2 :: r2)));
             [now constructor|].
           cbn [map]. symmetry. apply Permutation_middle.
    + destruct (IH1 L1) as (D1 & r1 & P1 & F1 & V1).
      destruct l2 as [|d2 [|? ?]]; [contradiction| |simpl in L2; lia].
      apply valid_single in H2. subst d2.
      exists (S D1), (map S r1 ++ [1%nat]). split; [|split].
      * rewrite (Permutation_map S P1). reflexivity.
      * apply Forall_app. split.
        -- apply Forall_map. eapply Forall_impl; [|exact F1].
           intros d Hd. cbv beta in *. lia.
        -- constructor; [lia | constructor].
      * change (S D1 :: map S r1 ++ [1%nat])
          with (map S (D1 :: r1) ++ map S [O]).
        constructor; [exact V1 | constructor].
    + destruct (IH2 L2) as (D2 & r2 & P2 & F2 & V2).
      destruct l1 as [|d1 [|? ?]]; [contradiction| |simpl in L1; lia].
      apply valid_single in H1. subst d1.
      exists (S D2), (1%nat :: map S r2). split; [|split].
      * rewrite (Permutation_map S P2). cbn [map app].
        rewrite perm_swap. apply perm_skip. apply perm_swap.
      * constructor; [lia|]. apply Forall_map.
        eapply Forall_impl; [|exact F2]. intros d Hd. cbv beta in *. lia.
      * apply (valid_perm (map S [O] ++ map S (D2 :: r2)));
          [constructor; [constructor | exact V2]|].
        cbn [map app]. apply perm_swap.
    + destruct l1 as [|d1 [|? ?]]; [contradiction| |simpl in L1; lia].
      destruct l2 as [|d2 [|? ?]]; [contradiction| |simpl in L2; lia].
      apply valid_single in H1. apply valid_single in H2. subst.
      exists O, []. split; [reflexivity|]. split; constructor.
  - assert (Hl : (2 <= length l)%nat)
      by (rewrite (Permutation_length Hp); exact Hlen).
    destruct (IH Hl) as (D & rest & P & F & V).
    exists D, rest. split; [|split; assumption].
    rewrite <- Hp. exact P.
Qed.

(** Exchange step: a least weight can take a deepest place at no cost. *)
Lemma place_deepest (Q : list (Z * nat)) (x : Z) (ws : list Z) (M : nat)
    (ds : list nat) :
  Permutation (map fst Q) (x :: ws) ->
  Permutation (map snd Q) (M :: ds) ->
  Forall (fun w => x <= w) ws ->
  Forall (fun d => (d <= M)%nat) ds ->
  exists Q',
    Permutation (map fst Q') ws
    /\ Permutation (map snd Q') ds
    /\ pcost ((x, M) :: Q') <= pcost Q.
Proof.
  intros Hw Hd Fw Fd.
  destruct (Permutation_map_inv fst Q (Permutation_sym Hw))
    as (Q0 & E0 & HP).
  destruct Q0 as [|[x' dx] Q1]; [discriminate|].
  cbn [map fst] in E0. injection E0 as Ex Ews. subst x'.
  assert (Hd1 : Permutation (dx :: map snd Q1) (M :: ds)).
  { rewrite <- Hd. symmetry. apply (Permutation_map snd HP). }
  rewrite (pcost_perm _ _ HP).
  destruct (Nat.eq_dec dx M) as [->|Hne].
  - exists Q1. split; [|split].
    + now rewrite <- Ews.
    + now apply Permutation_cons_inv in Hd1.
    + lia.
  - assert (HinM : In M (map snd Q1)).
    { assert (H : In M (dx :: map snd Q1))
        by (eapply Permutation_in; [symmetry; exact Hd1 | now left]).
      destruct H as [H|H]; [congruence | exact H]. }
    assert (Hdx : (dx <= M)%nat).
    { assert (H : In dx (M :: ds))
        by (eapply Permutation_in; [exact Hd1 | now left]).
      destruct H as [H|H]; [congruence|].
      rewrite Forall_forall in Fd. now apply Fd. }
    apply in_map_iff in HinM. destruct HinM as ([w m] & Em & Hin).
    simpl in Em. subst m.
    destruct (in_split _ _ Hin) as (l1 & l2 & E1).
    assert (HQ1 : Permutation Q1 ((w, M) :: l1 ++ l2))
      by (rewrite E1; symmetry; apply Permutation_middle).
    assert (Hxw : x <= w).
    { rewrite Forall_forall in Fw. apply Fw. rewrite Ews.
      apply in_map_iff. exists (w, M). split; [reflexivity | exact Hin]. }
    exists ((w, dx) :: l1 ++ l2). split; [|split].
    + rewrite Ews. rewrite (Permutation_map fst HQ1). reflexivity.
    + apply (Permutation_cons_inv (a := M)).
      rewrite <- Hd1. rewrite (Permutation_map snd HQ1). cbn [map snd].
      apply perm_swap.
    + rewrite (pcost_perm _ _ (perm_skip (x, dx) HQ1)).
      rewrite !pcost_cons. nia.
Qed.

(** Merging the two least weights: a profile for the weights gives a
    profile for the merged weights that is cheaper by their sum. *)
Lemma merge_two_least (P : list (Z * nat)) (a b : Z) (rest : list Z) :
  valid (map snd P) ->
  Permutation (map fst P) (a :: b :: rest) ->
  Forall (fun w => a <= w) (b :: rest) ->
  Forall (fun w => b <= w) rest ->
  exists P',
    valid (map snd P')
    /\ Permutation (map fst P') ((a + b) :: rest)
    /\ pcost P' + a + b <= pcost P.
Proof.
  intros HV HW Fa Fb.
  assert (Hlen : (2 <= length (map snd P))%nat).
  { rewrite length_map, <- (length_map fst), (Permutation_length HW).
    simpl. lia. }
  destruct (valid_deepest_pair _ HV Hlen) as (D & r & HP & Fr & Vr).
  destruct (place_deepest P a (b :: rest) (S D) (S D :: r) HW HP Fa)
    as (Q1 & W1 & D1 & C1).
  { constructor; [lia | exact Fr]. }
  destruct (place_deepest Q1 b rest (S D) r W1 D1 Fb Fr)
    as (Q2 & W2 & D2 & C2).
  exists ((a + b, D) :: Q2). split; [|split].
  - cbn [map snd]. apply (valid_perm (D :: r)); [exact Vr|].
    apply perm_skip. now symmetry.
  - cbn [map fst]. now apply perm_skip.
  - rewrite !pcost_cons in *. cbn [fst snd] in *. lia.
Qed.

(** ** Prefix codes have depth profiles *)

Lemma is_prefix_nil {A : Type} (c : list A) : is_prefix [] c.
Proof. now exists c. Qed.

Lemma is_prefix_cons {A : Type} (x y : A) (a b : list A) :
  is_prefix (x :: a) (y :: b) <-> x = y /\ is_prefix a b.
Proof.
  split.
  - intros (c & E). injection E as -> ->. split; [reflexivity | now exists c].
  - intros (-> & c & ->). now exists c.
Qed.

Lemma prefix_code_pfree (codes : list (list bool)) :
  prefix_code codes -> pfree codes.
Proof.
  induction codes as [|c rest IH]; intros H; [exact I|].
  split.
  - apply Forall_forall. intros c' Hin.
    destruct (In_nth_error _ _ Hin) as (j & Hj).
    split.
    + apply (H O (S j)); [reflexivity | exact Hj | discriminate].
    + apply (H (S j) O); [exact Hj | reflexivity | discriminate].
  - apply IH. intros i j a b Hi Hj Hne.
    apply (H (S i) (S j)); [exact Hi | exact Hj | congruence].
Qed.

Definition wcost (cs : list (Z * list bool)) : Z :=
  sumZ (map (fun e => fst e * len (snd e)) cs).

Lemma split_bit_in (b : bool) (cs : list (Z * list bool)) (w : Z)
    (c : list bool) :
  In (w, c) (split_bit b cs) -> In (w, b :: c) cs.
Proof.
  induction cs as [|[w' [|x c']] t IH]; simpl; [tauto | auto |].
  destruct (Bool.eqb x b) eqn:E.
  - apply Bool.eqb_prop in E. subst x. intros [H|H].
    + injection H as -> ->. now left.
    + right. auto.
  - auto.
Qed.

Lemma split_bit_pfree (b : bool) (cs : list (Z * list bool)) :
  pfree (map snd cs) -> pfree (map snd (split_bit b cs)).
Proof.
  induction cs as [|[w [|x c]] t IH]; simpl; [tauto | tauto |].
  intros [HF HP]. destruct (Bool.eqb x b) eqn:E; [|auto].
  apply Bool.eqb_prop in E. subst x.
  cbn [map snd pfree]. split; [|auto].
  apply Forall_forall. intros c' Hin.
  apply in_map_iff in Hin. destruct Hin as ([w' c''] & Ec & Hin).
  simpl in Ec. subst c''. apply split_bit_in in Hin.
  rewrite Forall_forall in HF.
  destruct (HF (b :: c')) as [H1 H2].
  { apply in_map_iff. exists (w', b :: c'). split; [reflexivity | exact Hin]. }
  rewrite is_prefix_cons in H1, H2. tauto.
Qed.

(** With no empty codeword the two halves partition the code. *)
Lemma split_bit_partition (cs : list (Z * list bool)) :
  Forall (fun e => snd e <> []) cs ->
  Permutation (map fst cs)
    (map fst (split_bit false cs) ++ map fst (split_bit true cs))
  /\ wcost cs
     = wcost (split_bit false cs) + sumZ (map fst (split_bit false cs))
       + wcost (split_bit true cs) + sumZ (map fst (split_bit true cs))
  /\ (total_len cs
      = total_len (split_bit false cs) + length (split_bit false cs)
        + total_len (split_bit true cs) + length (split_bit true cs))%nat.
Proof.
  unfold wcost.
  induction 1 as [|[w [|x c]] t Hne HF IH]; cbn [split_bit].
  - split; [constructor | split; reflexivity].
  - now contradiction Hne.
  - destruct IH as (IH1 & IH2 & IH3).
    destruct x; cbn [Bool.eqb map fst snd sumZ fold_right total_len length].
    + split; [|split].
      * rewrite <- Permutation_middle. now apply perm_skip.
      * change (fold_right Z.add 0) with sumZ.
        rewrite IH2, (len_cons true c). lia.
      * change (fold_right (fun e acc => (length (snd e) + acc)%nat) O)
          with total_len.
        lia.
    + split; [|split].
      * cbn [app]. now apply perm_skip.
      * change (fold_right Z.add 0) with sumZ.
        rewrite IH2, (len_cons false c). lia.
      * change (fold_right (fun e acc => (length (snd e) + acc)%nat) O)
          with total_len.
        lia.
Qed.

Lemma pcost_deeper (P : list (Z * nat)) :
  pcost (map (fun e => (fst e, S (snd e))) P) = pcost P + sumZ (map fst P).
Proof.
  unfold pcost. induction P as [|[w d] P IH]; [reflexivity|].
  cbn [map fst snd sumZ fold_right] in *.
  change (fold_right Z.add 0) with sumZ in *. rewrite IH. lia.
Qed.

Lemma pcost_nonneg (P : list (Z * nat)) :
  Forall (fun w => 0 <= w) (map fst P) -> 0 <= pcost P.
Proof.
  unfold pcost. induction P as [|[w d] P IH]; simpl; intros H; [lia|].
  inversion H; subst. specialize (IH H3). nia.
Qed.

Lemma sumZ_nonneg (l : list Z) : Forall (fun w => 0 <= w) l -> 0 <= sumZ l.
Proof. induction 1; simpl; lia. Qed.

Lemma split_bit_nonneg (b : bool) (cs : list (Z * list bool)) :
  Forall (fun w => 0 <= w) (map fst cs) ->
  Forall (fun w => 0 <= w) (map fst (split_bit b cs)).
Proof.
  rewrite !Forall_forall. intros H w Hin.
  apply in_map_iff in Hin. destruct Hin as ([w' c] & E & Hin).
  simpl in E. subst w'. apply split_bit_in in Hin.
  apply H. apply in_map_iff. now exists (w, b :: c).
Qed.

(** Every weighted prefix code has a depth profile that costs no more. *)
Lemma prefix_profile (m : nat) (cs : list (Z * list bool)) :
  (total_len cs <= m)%nat ->
  cs <> [] ->
  Forall (fun w => 0 <= w) (map fst cs) ->
  pfree (map snd cs) ->
  exists P,
    valid (map snd P)
    /\ Permutation (map fst P) (map fst cs)
    /\ pcost P <= wcost cs.
Proof.
  revert cs. induction m as [|m IH]; intros cs Hm Hne Hpos Hpf.
  - (* all codewords are empty: there is only one *)
    destruct cs as [|[w c] t]; [contradiction|].
    destruct c; [|simpl in Hm; lia].
    destruct t as [|[w' c'] t].
    + exists [(w, O)]. split; [constructor|]. split; [reflexivity|].
      unfold pcost, wcost, len. simpl. lia.
    + destruct Hpf as [HF _]. inversion HF as [|? ? [H1 _] _]; subst.
      exfalso. apply H1. apply is_prefix_nil.
  - destruct cs as [|[w c] t]; [contradiction|].
    destruct t as [|e t].
    + exists [(w, O)]. split; [constructor|]. split; [reflexivity|].
      unfold pcost, wcost. cbn [map fst snd sumZ fold_right].
      inversion Hpos; subst. pose proof (len_nonneg c). nia.
    + set (cs := (w, c) :: e :: t) in *.
      assert (Hnn : Forall (fun e => snd e <> []) cs).
      { apply Forall_forall. intros [w1 c1] Hin E. simpl in E. subst c1.
        clear - Hpf Hin. subst cs.
        destruct Hin as [H|Hin].
        - injection H as -> ->. destruct Hpf as [HF _].
          inversion HF as [|? ? [H1 _] _]; subst.
          apply H1. apply is_prefix_nil.
        - destruct Hpf as [HF _]. rewrite Forall_forall in HF.
          destruct (HF []) as [_ H2].
          + change [] with (snd (w1, @nil bool)). now apply in_map.
          + apply H2. apply is_prefix_nil. }
      destruct (split_bit_partition cs Hnn) as (HP & HC & HL).
      pose proof (split_bit_pfree false cs Hpf) as Hpf0.
      pose proof (split_bit_pfree true cs Hpf) as Hpf1.
      pose proof (split_bit_nonneg false cs Hpos) as Hpos0.
      pose proof (split_bit_nonneg true cs Hpos) as Hpos1.
      assert (Hlen : (length (split_bit false cs)
                      + length (split_bit true cs) >= 2)%nat).
      { apply Permutation_length in HP.
        rewrite length_app, !length_map in HP. subst cs.
        simpl length in HP at 1. lia. }
      destruct (split_bit false cs) as [|e0 t0] eqn:E0;
        destruct (split_bit true cs) as [|e1 t1] eqn:E1.
      * simpl in Hlen. lia.
      * destruct (IH (e1 :: t1)) as (P & V & HPm & HCm);
          [simpl length in *; lia | discriminate | assumption | assumption |].
        exists P. split; [exact V|]. split.
        -- rewrite HPm, HP. reflexivity.
        -- pose proof (sumZ_nonneg _ Hpos1). rewrite HC.
           change (wcost []) with 0. change (sumZ (map fst [])) with 0. lia.
      * destruct (IH (e0 :: t0)) as (P & V & HPm & HCm);
          [simpl length in *; lia | discriminate | assumption | assumption |].
        exists P. split; [exact V|]. split.
        -- rewrite HPm, HP. now rewrite app_nil_r.
        -- pose proof (sumZ_nonneg _ Hpos0). rewrite HC.
           change (wcost []) with 0. change (sumZ (map fst [])) with 0. lia.
      * destruct (IH (e0 :: t0)) as (P0 & V0 & HP0 & HC0);
          [simpl length in *; lia | discriminate | assumption | assumption |].
        destruct (IH (e1 :: t1)) as (P1 & V1 & HP1 & HC1);
          [simpl length in *; lia | discriminate | assumption | assumption |].
        exists (map (fun e => (fst e, S (snd e))) P0
                ++ map (fun e => (fst e, S (snd e))) P1).
        split; [|split].
        -- rewrite map_app, !map_map. cbn [snd].
           rewrite <- !(map_map snd S). now constructor.
        -- rewrite map_app, !map_map. cbn [fst].
           rewrite HP. now apply Permutation_app.
        -- rewrite pcost_app, !pcost_deeper.
           rewrite (sumZ_perm _ _ HP0), (sumZ_perm _ _ HP1). lia.
Qed.

(** ** The merge loop *)

Lemma cost_at_succ (n : Z) (t : HNode) (d : Z) :
  node_ok n t -> cost_at (d + 1) t = cost_at d t + node_count t.
Proof.
  revert d. induction t as [v | c i l IHl r IHr]; intros d; simpl.
  - intros _. lia.
  - intros (-> & _ & Hl & Hr). rewrite (IHl _ Hl), (IHr _ Hr). lia.
Qed.

Lemma merge_loop_spec (n : Z) (rounds : nat) :
  forall (i : Z) (h : list HNode),
    0 <= i ->
    heap_from node_count 0 h ->
    length h = S rounds ->
    Forall (node_ok n) h ->
    exists root,
      merge_loop n rounds i h = Ok [root]
      /\ node_ok n root
      /\ Permutation (leaves root) (flat_map leaves h)
      /\ forall P,
           valid (map snd P) ->
           Permutation (map fst P) (map node_count h) ->
           cost_at 0 root <= pcost P + sumZ (map (cost_at 0) h).
Proof.
  induction rounds as [|rounds IH]; intros i h Hi Hheap Hlen Hok.
  - destruct h as [|root [|? ?]]; try discriminate.
    exists root. split; [reflexivity|]. split; [now inversion Hok|].
    split; [simpl; now rewrite app_nil_r|].
    intros P HV HP. simpl in HP.
    apply Permutation_sym, Permutation_length_1_inv in HP.
    destruct P as [|[w d] [|? ?]]; try discriminate.
    simpl in HV. apply valid_single in HV. subst d.
    unfold pcost. simpl. lia.
  - cbn [merge_loop]. change vocab_lt with (key_lt node_count).
    destruct (heappop_spec node_count h Hheap) as (m1 & h1 & E1 & P1 & H1 & L1).
    { intros ->. discriminate. }
    rewrite E1. cbn [bind].
    assert (Hlen1 : length h1 = S rounds).
    { apply Permutation_length in P1. simpl in P1. lia. }
    destruct (heappop_spec node_count h1 H1) as (m2 & h2 & E2 & P2 & H2 & L2).
    { intros ->. discriminate. }
    rewrite E2. cbn [bind].
    set (new := Inner (node_count m1 + node_count m2) (i + n) m1 m2).
    destruct (heappush_spec node_count h2 new H2) as (H3 & P3).
    assert (Hall : Permutation h (m1 :: m2 :: h2))
      by (rewrite P1; now apply perm_skip).
    assert (Hok' : Forall (node_ok n) (m1 :: m2 :: h2))
      by (eapply Permutation_Forall; eassumption).
    inversion Hok' as [|? ? Hm1 Hok'']; subst.
    inversion Hok'' as [|? ? Hm2 Hok2]; subst.
    assert (Hnew : node_ok n new) by (simpl; repeat split; auto; lia).
    destruct (IH (i + 1) (heapq.heappush (key_lt node_count) h2 new))
      as (root & ER & HR & PR & CR).
    + lia.
    + exact H3.
    + rewrite (Permutation_length P3). simpl.
      apply Permutation_length in P2. simpl in P2. lia.
    + eapply Permutation_Forall; [symmetry; exact P3|]. now constructor.
    + exists root. split; [exact ER|]. split; [exact HR|]. split.
      * rewrite PR. rewrite (Permutation_flat_map leaves P3).
        rewrite (Permutation_flat_map leaves Hall).
        cbn [flat_map leaves new]. rewrite <- !app_assoc.
        apply Permutation_app_swap_app.
      * intros P HV HP.
        assert (HW : Permutation (map fst P)
                       (node_count m1 :: node_count m2 :: map node_count h2)).
        { rewrite HP. apply (Permutation_map node_count Hall). }
        destruct (merge_two_least P _ _ _ HV HW) as (P' & V' & W' & C').
        { constructor.
          - apply L1. rewrite P1. right. rewrite P2. now left.
          - apply Forall_forall. intros w Hin.
            apply in_map_iff in Hin. destruct Hin as (y & <- & Hin).
            apply L1. rewrite Hall. now do 2 right. }
        { apply Forall_forall. intros w Hin.
          apply in_map_iff in Hin. destruct Hin as (y & <- & Hin).
          apply L2. rewrite P2. now right. }
        specialize (CR P' V').
        rewrite (sumZ_perm _ _ (Permutation_map (cost_at 0) P3)) in CR.
        rewrite (sumZ_perm _ _ (Permutation_map (cost_at 0) Hall)).
        cbn [map sumZ fold_right] in *.
        change (fold_right Z.add 0) with sumZ in *.
        assert (Ecost : cost_at 0 new
                        = cost_at 0 m1 + cost_at 0 m2
                          + node_count m1 + node_count m2).
        { subst new. cbn [cost_at].
          rewrite (cost_at_succ n m1 0 Hm1), (cost_at_succ n m2 0 Hm2). lia. }
        rewrite Ecost in CR.
        assert (CR' : cost_at 0 root <=
                      pcost P' + (cost_at 0 m1 + cost_at 0 m2 + node_count m1
                                  + node_count m2 + sumZ (map (cost_at 0) h2))).
        { apply CR. rewrite W'.
          rewrite (Permutation_map node_count P3). reflexivity. }
        lia.
Qed.

(** ** The walk over the tree *)

Lemma node_size_pos (t : HNode) : (1 <= node_size t)%nat.
Proof. destruct t; simpl; lia. Qed.

Lemma walk_spec (n : Z) (fuel : nat) :
  forall stack key_dict sign_dict,
    (stack_size stack <= fuel)%nat ->
    Forall (fun e => node_ok n (fst (fst e))) stack ->
    walk fuel n stack key_dict sign_dict
    = Ok (store_keys (stack_codes n stack) key_dict,
          store_signs (stack_codes n stack) sign_dict).
Proof.
  induction fuel as [|fuel IH]; intros stack kd sd Hsize Hok.
  - destruct stack as [|[[node signs] keys] rest]; [reflexivity|].
    simpl in Hsize. pose proof (node_size_pos node). lia.
  - destruct stack as [|[[node signs] keys] rest]; [reflexivity|].
    inversion Hok as [|? ? Hnode Hrest]; subst. cbn [fst] in Hnode.
    cbn [walk]. destruct node as [v | c idx l r].
    + cbn [node_ok] in Hnode. cbn [node_index].
      rewrite (proj2 (Z.ltb_lt _ _) Hnode).
      rewrite IH; [reflexivity | | exact Hrest].
      cbn [stack_size fold_right fst node_size] in Hsize.
      change (fold_right (fun e acc => (node_size (fst (fst e)) + acc)%nat) O)
        with stack_size in Hsize.
      lia.
    + cbn [node_ok] in Hnode. destruct Hnode as (_ & Hidx & Hl & Hr).
      cbn [node_index].
      rewrite (proj2 (Z.ltb_ge _ _) Hidx).
      rewrite IH.
      * unfold stack_codes. cbn [flat_map fst snd codes_at].
        now rewrite <- !app_assoc.
      * cbn [stack_size fold_right fst node_size] in *.
        change (fold_right (fun e acc => (node_size (fst (fst e)) + acc)%nat) O)
          with stack_size in *.
        lia.
      * constructor; [exact Hr|]. constructor; [exact Hl | exact Hrest].
Qed.

Lemma codes_at_leaves (n : Z) (t : HNode) (signs keys : pyseq) :
  map fst (codes_at n t signs keys) = leaves t.
Proof.
  revert signs keys. induction t as [v | c i l IHl r IHr]; intros s k.
  - reflexivity.
  - cbn [codes_at leaves]. now rewrite map_app, IHl, IHr.
Qed.

Lemma codes_at_cost (n : Z) (t : HNode) (signs keys : pyseq) :
  sumZ (map (fun e => count (fst e) * len (to_list (snd (snd e))))
          (codes_at n t signs keys))
  = cost_at (len (to_list keys)) t.
Proof.
  revert signs keys. induction t as [v | c i l IHl r IHr]; intros s k.
  - simpl. lia.
  - cbn [codes_at cost_at]. rewrite map_app, sumZ_app, IHl, IHr.
    cbn [to_list]. rewrite len_app. change (len [wrap32 (i - n)]) with 1. lia.
Qed.

(** Keys and signs of a path have one length, and the signs are -1 or 1. *)
Lemma codes_at_signs (n : Z) (t : HNode) (signs keys : pyseq) :
  len (to_list signs) = len (to_list keys) ->
  Forall (fun z => z = 1 \/ z = -1) (to_list signs) ->
  Forall (fun e =>
            len (to_list (fst (snd e))) = len (to_list (snd (snd e)))
            /\ Forall (fun z => z = 1 \/ z = -1) (to_list (fst (snd e))))
    (codes_at n t signs keys).
Proof.
  revert signs keys. induction t as [v | c i l IHl r IHr]; intros s k Hlen Hs.
  - repeat constructor; assumption.
  - cbn [codes_at]. apply Forall_app. split.
    + apply IHr; cbn [to_list].
      * rewrite !len_app. unfold len in *. simpl. lia.
      * apply Forall_app. split; [exact Hs | repeat constructor].
    + apply IHl; cbn [to_list].
      * rewrite !len_app. unfold len in *. simpl. lia.
      * apply Forall_app. split; [exact Hs|]. constructor; [now right|].
        constructor.
Qed.

(** Every path below a node extends the path to the node. *)
Lemma codes_at_extends (n : Z) (t : HNode) (signs keys : pyseq) :
  Forall (fun e => is_prefix (to_list signs) (to_list (fst (snd e))))
    (codes_at n t signs keys).
Proof.
  revert signs keys. induction t as [v | c i l IHl r IHr]; intros s k.
  - constructor; [|constructor]. exists []. simpl. now rewrite app_nil_r.
  - cbn [codes_at]. apply Forall_app. split.
    + eapply Forall_impl; [|apply IHr].
      intros e (x & E). cbn [to_list] in E. exists ([1] ++ x).
      now rewrite E, app_assoc.
    + eapply Forall_impl; [|apply IHl].
      intros e (x & E). cbn [to_list] in E. exists ([-1] ++ x).
      now rewrite E, app_assoc.
Qed.

(** The paths of a tree form a prefix code: a path that starts another
    path is that path, at the same leaf. *)
Lemma codes_at_prefix (n : Z) (t : HNode) (signs keys : pyseq) :
  forall e1 e2,
    In e1 (codes_at n t signs keys) ->
    In e2 (codes_at n t signs keys) ->
    is_prefix (to_list (fst (snd e1))) (to_list (fst (snd e2))) ->
    e1 = e2.
Proof.
  revert signs keys. induction t as [v | c i l IHl r IHr]; intros s k e1 e2.
  - simpl. intros [<-|[]] [<-|[]] _. reflexivity.
  - cbn [codes_at]. intros H1 H2 Hp.
    pose proof (codes_at_extends n r (NdArray (to_list s ++ [1]))
                  (NdArray (to_list k ++ [wrap32 (i - n)]))) as Er.
    pose proof (codes_at_extends n l (NdArray (to_list s ++ [-1]))
                  (NdArray (to_list k ++ [wrap32 (i - n)]))) as El.
    rewrite Forall_forall in Er, El. cbn [to_list] in Er, El.
    apply in_app_or in H1. apply in_app_or in H2.
    destruct H1 as [H1|H1], H2 as [H2|H2].
    + eapply IHr; eassumption.
    + exfalso. destruct (Er _ H1) as (x1 & E1). destruct (El _ H2) as (x2 & E2).
      destruct Hp as (y & E). rewrite E1, E2 in E.
      rewrite <- !app_assoc in E. apply app_inv_head in E. discriminate.
    + exfalso. destruct (El _ H1) as (x1 & E1). destruct (Er _ H2) as (x2 & E2).
      destruct Hp as (y & E). rewrite E1, E2 in E.
      rewrite <- !app_assoc in E. apply app_inv_head in E. discriminate.
    + eapply IHl; eassumption.
Qed.

(** Stores of paths with distinct indexes keep every path. *)
Lemma store_keys_other (codes : list (Vocab * (pyseq * pyseq)))
    (d : dict Z pyseq) (k : Z) :
  ~ In k (map (fun e => index (fst e)) codes) ->
  dict_get Z.eqb (store_keys codes d) k = dict_get Z.eqb d k.
Proof.
  revert d. induction codes as [|e codes IH]; intros d Hni; [reflexivity|].
  unfold store_keys in *. cbn [fold_left]. rewrite IH.
  - apply (dict_get_set_other Z.eqb Z.eqb_eq). intros E. apply Hni. now left.
  - intros H. apply Hni. now right.
Qed.

Lemma store_signs_other (codes : list (Vocab * (pyseq * pyseq)))
    (d : dict Z pyseq) (k : Z) :
  ~ In k (map (fun e => index (fst e)) codes) ->
  dict_get Z.eqb (store_signs codes d) k = dict_get Z.eqb d k.
Proof.
  revert d. induction codes as [|e codes IH]; intros d Hni; [reflexivity|].
  unfold store_signs in *. cbn [fold_left]. rewrite IH.
  - apply (dict_get_set_other Z.eqb Z.eqb_eq). intros E. apply Hni. now left.
  - intros H. apply Hni. now right.
Qed.

Lemma store_get (codes : list (Vocab * (pyseq * pyseq))) :
  NoDup (map (fun e => index (fst e)) codes) ->
  forall e kd sd,
    In e codes ->
    dict_get Z.eqb (store_keys codes kd) (index (fst e)) = Some (snd (snd e))
    /\ dict_get Z.eqb (store_signs codes sd) (index (fst e))
       = Some (fst (snd e)).
Proof.
  induction codes as [|e0 codes IH]; intros Hnd e kd sd Hin; [contradiction|].
  cbn [map] in Hnd. inversion Hnd as [|? ? Hni Hnd']; subst.
  destruct Hin as [->|Hin].
  - split.
    + unfold store_keys. cbn [fold_left].
      change (fold_left _ codes ?d) with (store_keys codes d).
      rewrite (store_keys_other _ _ _ Hni).
      apply (dict_get_set_same Z.eqb Z.eqb_eq).
    + unfold store_signs. cbn [fold_left].
      change (fold_left _ codes ?d) with (store_signs codes d).
      rewrite (store_signs_other _ _ _ Hni).
      apply (dict_get_set_same Z.eqb Z.eqb_eq).
  - unfold store_keys, store_signs. cbn [fold_left]. now apply IH.
Qed.

(** ** The codes of [_create_binary_tree] *)

Lemma flat_map_leaves_words (vs : list Vocab) :
  flat_map leaves (map Word vs) = vs.
Proof. induction vs as [|v vs IH]; simpl; [reflexivity | now rewrite IH]. Qed.

Lemma combine_fst {A B : Type} (l : list A) (l' : list B) :
  length l = length l' -> map fst (combine l l') = l.
Proof.
  revert l'. induction l as [|a l IH]; intros [|b l'] H;
    try discriminate; [reflexivity|].
  simpl. f_equal. apply IH. now injection H.
Qed.

Lemma combine_snd {A B : Type} (l : list A) (l' : list B) :
  length l = length l' -> map snd (combine l l') = l'.
Proof.
  revert l'. induction l as [|a l IH]; intros [|b l'] H;
    try discriminate; [reflexivity|].
  simpl. f_equal. apply IH. now injection H.
Qed.

(** The loop of lines 242-245 ends with one tree over the vocabulary, the
    walk of lines 251-261 stores its paths, and no depth profile for the
    counts is cheaper than the tree. *)
Lemma huffman_codes_tree (w2v : dict string Vocab) :
  w2v <> [] ->
  tree_input w2v ->
  exists root,
    let codes := codes_at (len w2v) root (PyList []) (PyList []) in
    huffman_codes w2v = Ok (store_keys codes [], store_signs codes [])
    /\ Permutation (map fst codes) (dict_values w2v)
    /\ forall P,
         valid (map snd P) ->
         Permutation (map fst P) (map count (dict_values w2v)) ->
         cost_at 0 root <= pcost P.
Proof.
  intros Hne (Hnd & Hall).
  set (n := len w2v). set (values := dict_values w2v) in *.
  assert (Hlenv : length values = length w2v)
    by (subst values; unfold dict_values; apply length_map).
  destruct (heapify_spec node_count (map Word values)) as (Hheap & Hperm).
  change (key_lt node_count) with vocab_lt in *.
  set (heap0 := heapq.heapify vocab_lt (map Word values)) in *.
  destruct (merge_loop_spec n (Z.to_nat (n - 1)) 0 heap0)
    as (root & ER & HR & PR & CR).
  - lia.
  - exact Hheap.
  - rewrite (Permutation_length Hperm), length_map, Hlenv.
    subst n. unfold len. destruct w2v; [contradiction|]. simpl length. lia.
  - eapply Permutation_Forall; [symmetry; exact Hperm|].
    apply Forall_map. eapply Forall_impl; [|exact Hall].
    intros v (Hi & _). simpl. lia.
  - exists root. cbn zeta. split; [|split].
    + unfold huffman_codes, build_heap. fold n values heap0.
      rewrite ER. cbn [bind].
      rewrite walk_spec.
      * unfold stack_codes. cbn [flat_map fst snd]. now rewrite app_nil_r.
      * simpl. lia.
      * constructor; [exact HR | constructor].
    + rewrite codes_at_leaves, PR.
      rewrite (Permutation_flat_map leaves Hperm).
      now rewrite flat_map_leaves_words.
    + intros P HV HP.
      specialize (CR P HV).
      rewrite (sumZ_perm _ _ (Permutation_map (cost_at 0) Hperm)) in CR.
      assert (Hz : sumZ (map (cost_at 0) (map Word values)) = 0).
      { clear. induction values as [|v vs IH]; [reflexivity|].
        cbn [map sumZ fold_right cost_at] in *.
        change (fold_right Z.add 0) with sumZ. rewrite IH. lia. }
      rewrite Hz in CR.
      assert (Hc : Permutation (map fst P) (map node_count heap0)).
      { rewrite HP, (Permutation_map node_count Hperm), map_map.
        reflexivity. }
      specialize (CR Hc). lia.
Qed.

(** What the stored paths say about every vocabulary item. *)
Lemma stored_codes (values : list Vocab)
    (codes : list (Vocab * (pyseq * pyseq))) :
  NoDup (map index values) ->
  Permutation (map fst codes) values ->
  forall v,
    In v values ->
    exists e,
      In e codes /\ fst e = v
      /\ dict_get Z.eqb (store_keys codes []) (index v) = Some (snd (snd e))
      /\ dict_get Z.eqb (store_signs codes []) (index v) = Some (fst (snd e)).
Proof.
  intros Hnd Hperm v Hin.
  assert (Hnd' : NoDup (map (fun e => index (fst e)) codes)).
  { rewrite <- (map_map fst index).
    eapply Permutation_NoDup; [|exact Hnd].
    symmetry. now apply Permutation_map. }
  assert (Hin' : In v (map fst codes))
    by (eapply Permutation_in; [symmetry; exact Hperm | exact Hin]).
  apply in_map_iff in Hin'. destruct Hin' as (e & <- & He).
  exists e. split; [exact He|]. split; [reflexivity|].
  now apply store_get.
Qed.

Lemma stored_cost (w2v : dict string Vocab) (root : HNode) :
  let codes := codes_at (len w2v) root (PyList []) (PyList []) in
  NoDup (map index (dict_values w2v)) ->
  Permutation (map fst codes) (dict_values w2v) ->
  weighted_path_length w2v (store_keys codes []) = cost_at 0 root.
Proof.
  intros codes Hnd Hperm. unfold weighted_path_length.
  rewrite <- (sumZ_perm _ _ (Permutation_map _ Hperm)), map_map.
  change (cost_at 0 root) with (cost_at (len (to_list (PyList []))) root).
  rewrite <- (codes_at_cost (len w2v) root (PyList []) (PyList [])).
  fold codes. apply (f_equal sumZ). apply map_ext_in. intros e He.
  assert (Hv : In (fst e) (dict_values w2v)).
  { eapply Permutation_in; [exact Hperm|]. now apply in_map. }
  destruct (stored_codes _ codes Hnd Hperm _ Hv) as (e' & He' & Ef & Hk & _).
  unfold code_length. rewrite Hk.
  assert (Hnd' : NoDup (map (fun e => index (fst e)) codes)).
  { rewrite <- (map_map fst index).
    eapply Permutation_NoDup; [|exact Hnd].
    symmetry. now apply Permutation_map. }
  destruct (store_get codes Hnd' e (@nil (Z * pyseq)) (@nil (Z * pyseq)) He)
    as (Hk' & _).
  rewrite Hk in Hk'. now injection Hk' as ->.
Qed.

(** The vocabularies [build_vocab] indexes meet the index part of
    [tree_input]. *)
Lemma vocab_inv_tree_input (total : Z) (w2v : dict string Vocab)
    (w2k : dict string Z) (k2w : dict Z string) :
  vocab_inv total w2v w2k k2w ->
  Forall (fun v => 0 <= count v) (dict_values w2v) ->
  tree_input w2v.
Proof.
  intros (_ & _ & _ & _ & Hidx & _) Hc.
  assert (E : map index (dict_values w2v) = zrange (len w2v))
    by (unfold dict_values; now rewrite map_map).
  split.
  - rewrite E. apply NoDup_zrange.
  - apply Forall_forall. intros v Hv. split.
    + apply in_zrange. rewrite <- E. now apply in_map.
    + rewrite Forall_forall in Hc. now apply Hc.
Qed.

(** ** The padded matrices (lines 262-284) *)

Lemma fill_row_spec (ks ss : pyseq) (M : nat) (c_len : Z) :
  c_len = len (to_list ks) ->
  length (to_list ss) = length (to_list ks) ->
  forall (b a : nat) (krow srow : list Z) (mk : Z),
    (a + b = M)%nat -> length krow = M -> length srow = M ->
    exists krow' srow' mk',
      fill_row (map Z.of_nat (seq a b)) c_len ks ss krow srow mk
      = Ok (krow', srow', mk')
      /\ length krow' = M /\ length srow' = M
      /\ forall j,
           nth_error krow' j
           = if (j <? a)%nat then nth_error krow j
             else if (j <? M)%nat then Some (key_cell ks j) else None.
Proof.
  intros Hc Hss. induction b as [|b IH]; intros a krow srow mk Hab Hk Hs.
  - exists krow, srow, mk. split; [reflexivity|]. split; [exact Hk|].
    split; [exact Hs|]. intros j.
    destruct (j <? a)%nat eqn:E; [reflexivity|].
    apply Nat.ltb_ge in E.
    replace (j <? M)%nat with false by (symmetry; apply Nat.ltb_ge; lia).
    apply nth_error_None. lia.
  - cbn [seq map fill_row].
    assert (Ha : 0 <= Z.of_nat a < len krow) by (unfold len; lia).
    assert (Ha' : 0 <= Z.of_nat a < len srow) by (unfold len; lia).
    destruct (Z.of_nat a >=? c_len) eqn:E.
    + rewrite (store_total IndexError krow _ _ Ha). cbn [bind].
      rewrite Nat2Z.id.
      destruct (IH (S a) (set_nth krow a (wrap32 (MAX_HSM_KEY + 1))) srow mk)
        as (krow' & srow' & mk' & EQ & L1 & L2 & HP);
        [lia | now rewrite length_set_nth | exact Hs |].
      exists krow', srow', mk'. split; [exact EQ|]. split; [exact L1|].
      split; [exact L2|]. intros j. rewrite HP, nth_error_set_nth.
      destruct (Nat.lt_total j a) as [Hj|[->|Hj]].
      * replace (j <? S a)%nat with true by (symmetry; apply Nat.ltb_lt; lia).
        replace (j =? a)%nat with false by (symmetry; apply Nat.eqb_neq; lia).
        replace (j <? a)%nat with true by (symmetry; apply Nat.ltb_lt; lia).
        reflexivity.
      * replace (a <? S a)%nat with true by (symmetry; apply Nat.ltb_lt; lia).
        rewrite Nat.eqb_refl, Nat.ltb_irrefl.
        replace (a <? length krow)%nat with true
          by (symmetry; apply Nat.ltb_lt; lia).
        replace (a <? M)%nat with true by (symmetry; apply Nat.ltb_lt; lia).
        unfold key_cell.
        replace (nth_error (to_list ks) a) with (@None Z); [reflexivity|].
        symmetry. apply nth_error_None.
        apply Z.geb_le in E. unfold len in Hc. lia.
      * replace (j <? S a)%nat with false by (symmetry; apply Nat.ltb_ge; lia).
        replace (j <? a)%nat with false by (symmetry; apply Nat.ltb_ge; lia).
        reflexivity.
    + assert (Hlt : Z.of_nat a < c_len).
      { destruct (Z.geb_spec (Z.of_nat a) c_len); [discriminate | lia]. }
      destruct (lookup_total IndexError (to_list ks) (Z.of_nat a))
        as (key & Ekey); [lia|].
      destruct (lookup_total IndexError (to_list ss) (Z.of_nat a))
        as (sign & Esign); [unfold len in *; lia|].
      rewrite Ekey. cbn [bind]. rewrite Esign. cbn [bind].
      rewrite (store_total IndexError krow _ _ Ha). cbn [bind].
      rewrite (store_total IndexError srow _ _ Ha'). cbn [bind].
      rewrite Nat2Z.id.
      destruct (IH (S a) (set_nth krow a (wrap32 key)) (set_nth srow a sign)
                  (if wrap32 key >? mk then wrap32 key else mk))
        as (krow' & srow' & mk' & EQ & L1 & L2 & HP);
        [lia | now rewrite length_set_nth | now rewrite length_set_nth |].
      exists krow', srow', mk'. split; [exact EQ|]. split; [exact L1|].
      split; [exact L2|]. intros j. rewrite HP, nth_error_set_nth.
      destruct (Nat.lt_total j a) as [Hj|[->|Hj]].
      * replace (j <? S a)%nat with true by (symmetry; apply Nat.ltb_lt; lia).
        replace (j =? a)%nat with false by (symmetry; apply Nat.eqb_neq; lia).
        replace (j <? a)%nat with true by (symmetry; apply Nat.ltb_lt; lia).
        reflexivity.
      * replace (a <? S a)%nat with true by (symmetry; apply Nat.ltb_lt; lia).
        rewrite Nat.eqb_refl, Nat.ltb_irrefl.
        replace (a <? length krow)%nat with true
          by (symmetry; apply Nat.ltb_lt; lia).
        replace (a <? M)%nat with true by (symmetry; apply Nat.ltb_lt; lia).
        unfold key_cell. apply lookup_ok in Ekey. destruct Ekey as [_ Ekey].
        rewrite Nat2Z.id in Ekey. now rewrite Ekey.
      * replace (j <? S a)%nat with false by (symmetry; apply Nat.ltb_ge; lia).
        replace (j <? a)%nat with false by (symmetry; apply Nat.ltb_ge; lia).
        reflexivity.
Qed.

(** A row filled from column 0 is the code followed by the padding. *)
Lemma filled_row (ksl row : list Z) (M : nat) :
  Forall is_uint32 ksl ->
  (length ksl <= M)%nat ->
  (forall j, nth_error row j
             = if (j <? M)%nat then Some (key_cell (NdArray ksl) j) else None) ->
  row = padded_row ksl (Z.of_nat M).
Proof.
  intros Hu Hle H. apply nth_error_ext. intros j. rewrite H.
  unfold padded_row, key_cell. cbn [to_list].
  destruct (Nat.lt_ge_cases j (length ksl)) as [Hj|Hj].
  - rewrite nth_error_app1 by exact Hj.
    replace (j <? M)%nat with true by (symmetry; apply Nat.ltb_lt; lia).
    destruct (nth_error ksl j) as [k|] eqn:E.
    + f_equal. apply wrap32_small. rewrite Forall_forall in Hu.
      apply Hu. eapply nth_error_In; eauto.
    + apply nth_error_None in E. lia.
  - rewrite nth_error_app2 by exact Hj.
    replace (nth_error ksl j) with (@None Z)
      by (symmetry; now apply nth_error_None).
    destruct (j <? M)%nat eqn:E.
    + apply Nat.ltb_lt in E. rewrite nth_error_repeat; [reflexivity|].
      unfold len. lia.
    + apply Nat.ltb_ge in E. symmetry. apply nth_error_None.
      rewrite repeat_length. unfold len. lia.
Qed.

Lemma Forall_set_nth {A : Type} (P : A -> Prop) (l : list A) (i : nat) (x : A) :
  Forall P l -> P x -> Forall P (set_nth l i x).
Proof.
  intros H Hx. revert i. induction H as [|a l Ha H IH]; intros [|i]; simpl;
    constructor; auto.
Qed.

Lemma fill_rows_spec (key_dict sign_dict : dict Z pyseq) (R M : nat) :
  forall (keys : list Z) (t : hsm_tree),
    matrix_shape R M t ->
    Forall (row_ready key_dict sign_dict R M) keys ->
    Forall (fun k => forall ksl, dict_get Z.eqb key_dict k = Some (NdArray ksl) ->
                                 Forall is_uint32 ksl) keys ->
    NoDup keys ->
    exists t',
      fill_rows keys key_dict sign_dict (Z.of_nat M) t = Ok t'
      /\ matrix_shape R M t'
      /\ (forall k ksl,
            In k keys ->
            dict_get Z.eqb key_dict k = Some (NdArray ksl) ->
            nth_error (keys_to_code_keys t') (Z.to_nat k)
            = Some (padded_row ksl (Z.of_nat M)))
      /\ (forall k,
            ~ In k keys -> 0 <= k ->
            nth_error (keys_to_code_keys t') (Z.to_nat k)
            = nth_error (keys_to_code_keys t) (Z.to_nat k)).
Proof.
  induction keys as [|k keys IH]; intros t Hshape Hready Hu Hnd.
  - exists t. split; [reflexivity|]. split; [exact Hshape|].
    split; [intros ? ? []|reflexivity].
  - inversion Hready as [|? ? Hk Hready']; subst.
    inversion Hu as [|? ? Huk Hu']; subst.
    inversion Hnd as [|? ? Hni Hnd']; subst.
    destruct Hk as (ksl & ss & Ek & Es & Hlen & HleM & Hkr).
    destruct Hshape as (Lk & Ls & Fk & Fs).
    cbn [fill_rows]. unfold dict_lookup. rewrite Ek, Es. cbn [bind size].
    destruct (lookup_total IndexError (keys_to_code_keys t) k) as (krow & Ekr);
      [unfold len; lia|].
    destruct (lookup_total IndexError (keys_to_code_signs t) k) as (srow & Esr);
      [unfold len; lia|].
    rewrite Ekr, Esr. cbn [bind].
    assert (Hkl : length krow = M).
    { rewrite Forall_forall in Fk. apply Fk. eapply lookup_in; eauto. }
    assert (Hsl : length srow = M).
    { rewrite Forall_forall in Fs. apply Fs. eapply lookup_in; eauto. }
    destruct (fill_row_spec (NdArray ksl) ss M (len ksl) eq_refl Hlen
                M O krow srow (max_code_key t) eq_refl Hkl Hsl)
      as (krow' & srow' & mk' & EQ & L1 & L2 & HP).
    unfold zrange. rewrite Nat2Z.id, EQ. cbn [bind].
    rewrite (store_total IndexError (keys_to_code_keys t) k krow')
      by (unfold len; lia).
    rewrite (store_total IndexError (keys_to_code_signs t) k srow')
      by (unfold len; lia).
    cbn [bind].
    set (t1 := mkHsmTree (set_nth (keys_to_code_keys t) (Z.to_nat k) krow')
                 (set_nth (keys_to_code_signs t) (Z.to_nat k) srow') mk').
    destruct (IH t1) as (t' & ET & Hshape' & Hin & Hout);
      [|exact Hready' | exact Hu' | exact Hnd' |].
    { unfold matrix_shape, t1. cbn [keys_to_code_keys keys_to_code_signs].
      rewrite !length_set_nth.
      split; [exact Lk|]. split; [exact Ls|].
      split; apply Forall_set_nth; assumption. }
    exists t'. split; [exact ET|]. split; [exact Hshape'|]. split.
    + intros k0 ksl0 [<-|Hk0] Eg.
      * rewrite (Hout k Hni (proj1 Hkr)).
        unfold t1. cbn [keys_to_code_keys].
        rewrite nth_error_set_nth, Nat.eqb_refl.
        replace (Z.to_nat k <? length (keys_to_code_keys t))%nat with true
          by (symmetry; apply Nat.ltb_lt; lia).
        f_equal. rewrite Ek in Eg. injection Eg as <-.
        apply filled_row; [now apply Huk | exact HleM | exact HP].
      * now apply Hin.
    + intros k0 Hni0 Hk0.
      rewrite (Hout k0 (fun H => Hni0 (or_intror H)) Hk0).
      unfold t1. cbn [keys_to_code_keys].
      rewrite nth_error_set_nth.
      replace (Z.to_nat k0 =? Z.to_nat k)%nat with false; [reflexivity|].
      symmetry. apply Nat.eqb_neq. intros E.
      apply Hni0. left. lia.
Qed.

Lemma fold_max_spec (l : list Z) (x : Z) :
  x <= fold_left Z.max l x /\ Forall (fun y => y <= fold_left Z.max l x) l.
Proof.
  revert x. induction l as [|a l IH]; intros x; simpl.
  - split; [lia | constructor].
  - destruct (IH (Z.max x a)) as (H1 & H2). split; [lia|].
    constructor; [lia | exact H2].
Qed.

Lemma np_max_spec (l : list Z) :
  l <> [] ->
  exists m, np_max l = Ok m /\ Forall (fun y => y <= m) l.
Proof.
  destruct l as [|x l]; [contradiction|]. intros _.
  exists (fold_left Z.max l x). split; [reflexivity|].
  destruct (fold_max_spec l x) as (H1 & H2). now constructor.
Qed.

Lemma zeros_shape (rows cols : Z) :
  matrix_shape (Z.to_nat rows) (Z.to_nat cols)
    (mkHsmTree (zeros rows cols) (zeros rows cols) 0).
Proof.
  unfold matrix_shape, zeros. cbn [keys_to_code_keys keys_to_code_signs].
  rewrite !repeat_length. split; [reflexivity|]. split; [reflexivity|].
  assert (H : Forall (fun r : list Z => length r = Z.to_nat cols)
                (repeat (repeat 0 (Z.to_nat cols)) (Z.to_nat rows))).
  { apply Forall_forall. intros r Hr. apply repeat_spec in Hr. subst r.
    apply repeat_length. }
  split; exact H.
Qed.

(** With distinct indexes the stores append the paths in the order of the
    visits. *)
Lemma store_keys_fresh (codes : list (Vocab * (pyseq * pyseq))) :
  forall d,
    NoDup (dict_keys d ++ map (fun e => index (fst e)) codes) ->
    store_keys codes d
    = d ++ map (fun e => (index (fst e), snd (snd e))) codes.
Proof.
  induction codes as [|e codes IH]; intros d Hnd.
  - simpl. now rewrite app_nil_r.
  - unfold store_keys in *. cbn [fold_left map].
    assert (Hni : ~ In (index (fst e)) (dict_keys d)).
    { apply NoDup_remove_2 in Hnd. intros H. apply Hnd.
      apply in_or_app. now left. }
    rewrite (dict_set_new Z.eqb Zeqb_eq _ _ _ Hni).
    rewrite IH.
    + now rewrite <- app_assoc.
    + unfold dict_keys in *. rewrite map_app, <- app_assoc. exact Hnd.
Qed.

Lemma store_signs_fresh (codes : list (Vocab * (pyseq * pyseq))) :
  forall d,
    NoDup (dict_keys d ++ map (fun e => index (fst e)) codes) ->
    store_signs codes d
    = d ++ map (fun e => (index (fst e), fst (snd e))) codes.
Proof.
  induction codes as [|e codes IH]; intros d Hnd.
  - simpl. now rewrite app_nil_r.
  - unfold store_signs in *. cbn [fold_left map].
    assert (Hni : ~ In (index (fst e)) (dict_keys d)).
    { apply NoDup_remove_2 in Hnd. intros H. apply Hnd.
      apply in_or_app. now left. }
    rewrite (dict_set_new Z.eqb Zeqb_eq _ _ _ Hni).
    rewrite IH.
    + now rewrite <- app_assoc.
    + unfold dict_keys in *. rewrite map_app, <- app_assoc. exact Hnd.
Qed.

(** Below an inner node every path is an array of 32-bit keys. *)
Lemma codes_at_arrays (n : Z) (t : HNode) (signs : pyseq) (ksl : list Z) :
  Forall is_uint32 ksl ->
  Forall (fun e => exists l, snd (snd e) = NdArray l /\ Forall is_uint32 l)
    (codes_at n t signs (NdArray ksl)).
Proof.
  revert signs ksl. induction t as [v | c i l IHl r IHr]; intros s ksl Hu.
  - constructor; [|constructor]. exists ksl. now split.
  - cbn [codes_at to_list].
    assert (Hu' : Forall is_uint32 (ksl ++ [wrap32 (i - n)])).
    { apply Forall_app. split; [exact Hu|].
      constructor; [apply wrap32_range | constructor]. }
    apply Forall_app. split; [now apply IHr | now apply IHl].
Qed.

(** From two items on the matrices are built, and the row of every item is
    its code followed by the padding. *)
Lemma code_matrices_rows (w2v : dict string Vocab) (root : HNode) :
  let codes := codes_at (len w2v) root (PyList []) (PyList []) in
  2 <= len w2v ->
  tree_input w2v ->
  Permutation (map fst codes) (dict_values w2v) ->
  exists t width,
    code_matrices (store_keys codes []) (store_signs codes []) = Ok t
    /\ forall v,
         In v (dict_values w2v) ->
         exists ksl,
           dict_get Z.eqb (store_keys codes []) (index v) = Some (NdArray ksl)
           /\ len ksl <= width
           /\ lookup IndexError (keys_to_code_keys t) (index v)
              = Ok (padded_row ksl width).
Proof.
  intros codes Hn (Hnd & Hall) Hperm.
  assert (Hnd' : NoDup (map (fun e => index (fst e)) codes)).
  { rewrite <- (map_map fst index).
    eapply Permutation_NoDup; [|exact Hnd].
    symmetry. now apply Permutation_map. }
  assert (Hlen : (2 <= length codes)%nat).
  { rewrite <- (length_map fst), (Permutation_length Hperm).
    unfold dict_values. rewrite length_map. unfold len in Hn. lia. }
  assert (HA : Forall (fun e => exists l, snd (snd e) = NdArray l
                                          /\ Forall is_uint32 l) codes).
  { subst codes. destruct root as [v | c i l r]; [simpl in Hlen; lia|].
    cbn [codes_at to_list app]. apply Forall_app.
    split; apply codes_at_arrays;
      (constructor; [apply wrap32_range | constructor]). }
  pose proof (codes_at_signs (len w2v) root (PyList []) (PyList [])
                eq_refl (Forall_nil _)) as HS.
  fold codes in HS.
  assert (Ekd : store_keys codes []
                = map (fun e => (index (fst e), snd (snd e))) codes)
    by (apply (store_keys_fresh codes []); exact Hnd').
  assert (Esd : store_signs codes []
                = map (fun e => (index (fst e), fst (snd e))) codes)
    by (apply (store_signs_fresh codes []); exact Hnd').
  set (kd := store_keys codes []) in *.
  set (sd := store_signs codes []) in *.
  assert (Ekeys : dict_keys kd = map (fun e => index (fst e)) codes)
    by (rewrite Ekd; unfold dict_keys; now rewrite map_map).
  assert (Evals : dict_values kd = map (fun e => snd (snd e)) codes)
    by (rewrite Ekd; unfold dict_values; now rewrite map_map).
  unfold code_matrices.
  rewrite (map_result_ok size (fun s => len (to_list s))).
  2:{ rewrite Evals. apply Forall_map. eapply Forall_impl; [|exact HA].
      intros e (l & -> & _). reflexivity. }
  cbn [bind].
  destruct (np_max_spec (map (fun s => len (to_list s)) (dict_values kd)))
    as (M & EM & HM).
  { rewrite Evals. destruct codes; [simpl in Hlen; lia | discriminate]. }
  destruct (np_max_spec (dict_keys kd)) as (K & EK & HK).
  { rewrite Ekeys. destruct codes; [simpl in Hlen; lia | discriminate]. }
  rewrite EM, EK. cbn [bind].
  assert (HM0 : 0 <= M).
  { rewrite Evals, map_map in HM. destruct codes as [|e ?];
      [simpl in Hlen; lia|].
    inversion HM; subst. cbv beta in *.
    pose proof (len_nonneg (to_list (snd (snd e)))). lia. }
  assert (Hcodes : forall e, In e codes ->
            dict_get Z.eqb kd (index (fst e)) = Some (snd (snd e))
            /\ dict_get Z.eqb sd (index (fst e)) = Some (fst (snd e))).
  { intros e He. now apply store_get. }
  assert (Hidx : forall e, In e codes -> 0 <= index (fst e) <= K).
  { intros e He. split.
    - rewrite Forall_forall in Hall.
      apply (Hall (fst e)).
      eapply Permutation_in; [exact Hperm|]. now apply in_map.
    - rewrite Forall_forall in HK. apply HK. rewrite Ekeys.
      apply in_map_iff. now exists e. }
  assert (Hsize : forall e, In e codes -> len (to_list (snd (snd e))) <= M).
  { intros e He. rewrite Forall_forall in HM. apply HM. rewrite Evals, map_map.
    apply in_map_iff. now exists e. }
  destruct (fill_rows_spec kd sd (Z.to_nat (K + 1)) (Z.to_nat M)
              (dict_keys kd)
              (mkHsmTree (zeros (K + 1) M) (zeros (K + 1) M) 0))
    as (t & ET & _ & Hin & _).
  - apply zeros_shape.
  - rewrite Ekeys. apply Forall_map, Forall_forall. intros e He.
    rewrite Forall_forall in HA, HS.
    destruct (HA e He) as (l & El & _). destruct (HS e He) as (Hls & _).
    destruct (Hcodes e He) as (Hk & Hs).
    exists l, (fst (snd e)). rewrite <- El.
    split; [exact Hk|]. split; [exact Hs|].
    pose proof (Hsize e He) as Hsz. pose proof (Hidx e He) as Hix.
    rewrite El in Hls, Hsz. cbn [to_list] in Hls, Hsz. unfold len in *.
    split; [lia|]. split; lia.
  - rewrite Ekeys. apply Forall_map, Forall_forall. intros e He ksl Eg.
    rewrite Forall_forall in HA. destruct (HA e He) as (l & El & Hu).
    destruct (Hcodes e He) as (Hk & _). rewrite Hk, El in Eg.
    now injection Eg as <-.
  - rewrite Ekeys. exact Hnd'.
  - rewrite Z2Nat.id in ET by exact HM0.
    exists t, M. split; [exact ET|].
    intros v Hv.
    destruct (stored_codes _ codes Hnd Hperm v Hv) as (e & He & <- & Hk & _).
    rewrite Forall_forall in HA. destruct (HA e He) as (l & El & _).
    exists l. fold kd in Hk. rewrite Hk, El.
    split; [reflexivity|]. split.
    + specialize (Hsize e He). now rewrite El in Hsize.
    + apply lookup_ok. split; [apply (Hidx e He)|].
      rewrite <- (Z2Nat.id M HM0). apply Hin.
      * rewrite Ekeys. apply in_map_iff. now exists e.
      * now rewrite Hk, El.
Qed.

(** ** Optimality of the codes *)

(** C1. For every non-empty vocabulary with distinct indexes below its size
    and counts that are not negative, the loops of lines 239-261 of
    [_create_binary_tree] return the two dictionaries; every item has a
    sign sequence over -1 and 1 as long as its key sequence, no sign
    sequence starts the sequence of another item, and the weighted path
    length, the sum of count times code length, is not larger than the cost
    of any binary prefix code for the counts.  From two items on
    [_create_binary_tree] returns its matrices, and the row of every item
    is its key sequence followed by the padding key up to the width of the
    matrix.  For the counts a:5, b:9, c:12, d:13, e:16, f:45 the code
    lengths are 4, 4, 3, 3, 3, 1, both in the dictionary and in the padded
    matrix [_create_binary_tree] returns. *)
Theorem huffman_codes_optimal :
  (forall w2v : dict string Vocab,
     w2v <> [] ->
     tree_input w2v ->
     exists key_dict sign_dict,
       huffman_codes w2v = Ok (key_dict, sign_dict)
       /\ (forall v, In v (dict_values w2v) ->
             dict_get Z.eqb key_dict (index v) <> None
             /\ len (sign_code sign_dict v) = code_length key_dict v
             /\ Forall (fun z => z = 1 \/ z = -1) (sign_code sign_dict v))
       /\ (forall v1 v2,
             In v1 (dict_values w2v) -> In v2 (dict_values w2v) ->
             is_prefix (sign_code sign_dict v1) (sign_code sign_dict v2) ->
             v1 = v2)
       /\ (forall codes : list (list bool),
             length codes = length w2v ->
             prefix_code codes ->
             weighted_path_length w2v key_dict
             <= code_cost (map count (dict_values w2v)) codes)
       /\ (2 <= len w2v ->
           exists t width,
             _create_binary_tree w2v = Ok t
             /\ forall v,
                  In v (dict_values w2v) ->
                  code_length key_dict v <= width
                  /\ lookup IndexError (keys_to_code_keys t) (index v)
                     = Ok (padded_row (key_code key_dict v) width)))
  /\ (exists key_dict sign_dict,
        huffman_codes textbook = Ok (key_dict, sign_dict)
        /\ map (code_length key_dict) (dict_values textbook)
           = [4; 4; 3; 3; 3; 1]
        /\ weighted_path_length textbook key_dict = 224)
  /\ (exists t,
        _create_binary_tree textbook = Ok t
        /\ padded_lengths t = [4; 4; 3; 3; 3; 1]).
Proof.
  split; [|split].
  - intros w2v Hne Hin.
    destruct (huffman_codes_tree w2v Hne Hin) as (root & E & Hperm & Hopt).
    cbn zeta in E, Hperm.
    set (codes := codes_at (len w2v) root (PyList []) (PyList [])) in *.
    pose proof Hin as (Hnd & Hall).
    exists (store_keys codes []), (store_signs codes []).
    split; [exact E|]. split; [|split; [|split]].
    + intros v Hv.
      destruct (stored_codes _ codes Hnd Hperm v Hv) as (e & He & Ef & Hk & Hs).
      unfold sign_code, code_length. rewrite Hk, Hs.
      split; [discriminate|].
      pose proof (codes_at_signs (len w2v) root (PyList []) (PyList [])
                    eq_refl (Forall_nil _)) as HF.
      rewrite Forall_forall in HF. exact (HF e He).
    + intros v1 v2 Hv1 Hv2 Hp.
      destruct (stored_codes _ codes Hnd Hperm v1 Hv1)
        as (e1 & He1 & <- & _ & Hs1).
      destruct (stored_codes _ codes Hnd Hperm v2 Hv2)
        as (e2 & He2 & <- & _ & Hs2).
      unfold sign_code in Hp. rewrite Hs1, Hs2 in Hp.
      now rewrite (codes_at_prefix _ _ _ _ e1 e2 He1 He2 Hp).
    + intros cw Hlen Hpc.
      subst codes. rewrite (stored_cost w2v root Hnd Hperm).
      assert (Hlen' : length (map count (dict_values w2v)) = length cw).
      { unfold dict_values. rewrite !length_map. now symmetry. }
      set (cs := combine (map count (dict_values w2v)) cw).
      destruct (prefix_profile (total_len cs) cs) as (P & HV & HP & HC).
      * lia.
      * subst cs. destruct w2v; [contradiction|].
        destruct cw; [discriminate|]. discriminate.
      * subst cs. rewrite (combine_fst _ _ Hlen').
        apply Forall_map. eapply Forall_impl; [|exact Hall].
        intros v (_ & Hc). exact Hc.
      * subst cs. rewrite (combine_snd _ _ Hlen').
        now apply prefix_code_pfree.
      * subst cs. rewrite (combine_fst _ _ Hlen') in HP.
        specialize (Hopt P HV HP). unfold code_cost. unfold wcost in HC. lia.
    + intros Hn.
      destruct (code_matrices_rows w2v root Hn Hin Hperm)
        as (t & width & ET & Hrows).
      fold codes in ET, Hrows.
      exists t, width. split.
      * unfold _create_binary_tree. rewrite E. exact ET.
      * intros v Hv. destruct (Hrows v Hv) as (ksl & Hk & Hle & Hrow).
        unfold code_length, key_code. rewrite Hk. cbn [to_list].
        split; [exact Hle | exact Hrow].
  - eexists _, _. split; [vm_compute; reflexivity|].
    split; vm_compute; reflexivity.
  - eexists. split; [vm_compute; reflexivity|]. vm_compute. reflexivity.
Qed.

Lemma huffman_codes_optimal_witness :
  exists key_dict sign_dict,
    huffman_codes textbook = Ok (key_dict, sign_dict)
    /\ (forall codes : list (list bool),
          length codes = length textbook ->
          prefix_code codes ->
          weighted_path_length textbook key_dict
          <= code_cost (map count (dict_values textbook)) codes).
Proof.
  destruct (proj1 huffman_codes_optimal textbook)
    as (kd & sd & E & _ & _ & H & _).
  - discriminate.
  - split.
    + vm_compute. repeat constructor; simpl; intuition discriminate.
    + repeat constructor; vm_compute; intuition discriminate.
  - exists kd, sd. split; [exact E | exact H].
Defined.

(** ** sample_phrases *)

Lemma word_key_ok (w2k : dict string Z) (unk_word word : string) :
  dict_mem String.eqb w2k unk_word = true ->
  word_key w2k unk_word word = Ok (key_of w2k unk_word word).
Proof.
  unfold word_key, key_of, dict_mem, dict_lookup. intros H.
  destruct (dict_get String.eqb w2k word); [reflexivity|].
  destruct (dict_get String.eqb w2k unk_word); [reflexivity | discriminate].
Qed.

Lemma encode_blob_spec (w2k : dict string Z) (unk_word : string)
    (f : string -> Z) (text_blob : list string) :
  Forall (fun word => word_key w2k unk_word word = Ok (f word)) text_blob ->
  forall pre : list Z,
    encode_blob w2k unk_word text_blob (len pre)
      (pre ++ repeat 0 (length text_blob))
    = Ok (pre ++ map (fun word => wrap32 (f word)) text_blob).
Proof.
  induction 1 as [|word rest Hw _ IH]; intros pre.
  - reflexivity.
  - cbn [encode_blob length repeat map]. rewrite Hw. cbn [bind].
    rewrite store_app_mid. cbn [bind].
    replace (len pre + 1) with (len (pre ++ [wrap32 (f word)]))
      by (rewrite len_app; reflexivity).
    replace (pre ++ wrap32 (f word) :: repeat 0 (length rest))
      with ((pre ++ [wrap32 (f word)]) ++ repeat 0 (length rest))
      by (now rewrite <- app_assoc).
    rewrite IH. now rewrite <- app_assoc.
Qed.

Lemma sample_phrases_loop_spec (w2k : dict string Z) (unk_word : string)
    (f : string -> Z) (max_phrases : Z) (text_stream : list (list string)) :
  Forall (Forall (fun word => word_key w2k unk_word word = Ok (f word)))
    text_stream ->
  forall phrases : list (list Z),
    sample_phrases_loop text_stream w2k unk_word max_phrases phrases
    = Ok (phrases
          ++ map (map (fun word => wrap32 (f word)))
               (firstn (Z.to_nat (Z.max 1 (max_phrases - len phrases)))
                  text_stream)).
Proof.
  induction 1 as [|blob rest Hb _ IH]; intros phrases.
  - cbn [sample_phrases_loop]. rewrite firstn_nil. cbn [map].
    now rewrite app_nil_r.
  - cbn [sample_phrases_loop].
    pose proof (encode_blob_spec w2k unk_word f blob Hb []) as Hblob.
    cbn [app] in Hblob. change (len (@nil Z)) with 0 in Hblob.
    rewrite Hblob. cbn [bind].
    pose proof (len_nonneg phrases) as Hp.
    destruct (len (phrases ++ [map (fun word => wrap32 (f word)) blob])
              >=? max_phrases) eqn:E.
    + apply Z.geb_le in E. rewrite len_app in E. change (len [_]) with 1 in E.
      replace (Z.to_nat (Z.max 1 (max_phrases - len phrases))) with 1%nat
        by lia.
      cbn [firstn map]. reflexivity.
    + assert (E' : len phrases + 1 < max_phrases).
      { destruct (Z.geb_spec
                    (len (phrases ++ [map (fun word => wrap32 (f word)) blob]))
                    max_phrases) as [|H0]; [discriminate|].
        rewrite len_app in H0. exact H0. }
      rewrite IH, len_app. change (len [_]) with 1.
      replace (Z.to_nat (Z.max 1 (max_phrases - len phrases)))
        with (S (Z.to_nat (Z.max 1 (max_phrases - (len phrases + 1)))))
        by lia.
      cbn [firstn map]. now rewrite <- app_assoc.
Qed.

Lemma key_of_uint32 (w2k : dict string Z) (unk_word word : string) :
  Forall is_uint32 (dict_values w2k) ->
  is_uint32 (key_of w2k unk_word word).
Proof.
  intros H. rewrite Forall_forall in H.
  assert (Hget : forall w k, dict_get String.eqb w2k w = Some k -> is_uint32 k).
  { intros w k Hk. apply H.
    apply (dict_get_some_in String.eqb String.eqb_eq) in Hk.
    unfold dict_values. apply in_map_iff. now exists (w, k). }
  unfold key_of.
  destruct (dict_get String.eqb w2k word) as [k|] eqn:E; [eauto|].
  destruct (dict_get String.eqb w2k unk_word) as [k|] eqn:E'; [eauto|].
  unfold is_uint32. lia.
Qed.

(** X1. When [unk_word] is a key of [words_to_keys] (and the keys fit
    [uint32]), [sample_phrases] never raises: it returns one phrase for
    each blob it reads, the blobs up to the limit and never less than one,
    and the phrase holds for every word of the blob its key, the key of
    [unk_word] for a word without one. *)
Theorem sample_phrases_encodes (text_stream : list (list string))
    (words_to_keys : dict string Z) (unk_word : string) (max_phrases : Z) :
  dict_mem String.eqb words_to_keys unk_word = true ->
  Forall is_uint32 (dict_values words_to_keys) ->
  sample_phrases text_stream words_to_keys unk_word max_phrases
  = Ok (map (map (key_of words_to_keys unk_word))
          (blobs_read text_stream max_phrases)).
Proof.
  intros Hunk Hu. unfold sample_phrases, blobs_read.
  rewrite (sample_phrases_loop_spec words_to_keys unk_word
             (key_of words_to_keys unk_word)).
  - cbn [app]. change (len (@nil (list Z))) with 0. rewrite Z.sub_0_r.
    f_equal. apply map_ext. intros blob. apply map_ext. intros word.
    apply wrap32_small. now apply key_of_uint32.
  - apply Forall_forall. intros blob _. apply Forall_forall. intros word _.
    now apply word_key_ok.
Qed.

Lemma sample_phrases_encodes_witness :
  sample_phrases [["the"; "cat"]; ["a"; "dog"]; ["the"]]%string
    [("the", 0); ("cat", 1); (UNK, 2)]%string UNK 2
  = Ok [[0; 1]; [2; 2]].
Proof.
  apply (sample_phrases_encodes [["the"; "cat"]; ["a"; "dog"]; ["the"]]%string
           [("the", 0); ("cat", 1); (UNK, 2)]%string UNK 2).
  - reflexivity.
  - repeat constructor; vm_compute; discriminate.
Defined.

Lemma encode_blob_unknown (w2k : dict string Z) (unk_word : string)
    (text_blob : list string) :
  dict_mem String.eqb w2k unk_word = false ->
  Exists (fun word => dict_mem String.eqb w2k word = false) text_blob ->
  forall pre : list Z,
    encode_blob w2k unk_word text_blob (len pre)
      (pre ++ repeat 0 (length text_blob))
    = Raise KeyError.
Proof.
  intros Hunk. induction text_blob as [|word rest IH]; intros Hex pre.
  - inversion Hex.
  - cbn [encode_blob length repeat]. unfold word_key.
    destruct (dict_mem String.eqb w2k word) eqn:Hw.
    + assert (Hrest : Exists (fun w => dict_mem String.eqb w2k w = false) rest).
      { inversion Hex as [? ? H0|? ? H0]; subst; [congruence | exact H0]. }
      unfold dict_mem, dict_lookup in *.
      destruct (dict_get String.eqb w2k word) as [k|]; [|discriminate].
      cbn [bind]. rewrite store_app_mid. cbn [bind].
      replace (len pre + 1) with (len (pre ++ [wrap32 k]))
        by (rewrite len_app; reflexivity).
      replace (pre ++ wrap32 k :: repeat 0 (length rest))
        with ((pre ++ [wrap32 k]) ++ repeat 0 (length rest))
        by (now rewrite <- app_assoc).
      now apply IH.
    + unfold dict_mem, dict_lookup in *.
      destruct (dict_get String.eqb w2k unk_word); [discriminate|].
      reflexivity.
Qed.

Lemma sample_phrases_loop_app (w2k : dict string Z) (unk_word : string)
    (f : string -> Z) (max_phrases : Z) (pre rest : list (list string)) :
  Forall (Forall (fun word => word_key w2k unk_word word = Ok (f word))) pre ->
  forall phrases : list (list Z),
    len phrases + len pre < Z.max 1 max_phrases ->
    sample_phrases_loop (pre ++ rest) w2k unk_word max_phrases phrases
    = sample_phrases_loop rest w2k unk_word max_phrases
        (phrases ++ map (map (fun word => wrap32 (f word))) pre).
Proof.
  induction 1 as [|blob pre Hb _ IH]; intros phrases Hlen.
  - cbn [app map]. now rewrite app_nil_r.
  - cbn [app sample_phrases_loop].
    pose proof (encode_blob_spec w2k unk_word f blob Hb []) as Hblob.
    cbn [app] in Hblob. change (len (@nil Z)) with 0 in Hblob.
    rewrite Hblob. cbn [bind].
    pose proof (len_nonneg phrases) as Hp. pose proof (len_nonneg pre) as Hq.
    rewrite len_cons in Hlen.
    destruct (len (phrases ++ [map (fun word => wrap32 (f word)) blob])
              >=? max_phrases) eqn:E.
    + apply Z.geb_le in E. rewrite len_app in E. change (len [_]) with 1 in E.
      lia.
    + rewrite IH.
      * cbn [map]. now rewrite <- app_assoc.
      * rewrite len_app. change (len [_]) with 1. lia.
Qed.

(** X2. When [unk_word] is not a key of [words_to_keys], the first word
    without a key raises [KeyError]: a blob reached under the limit, after
    blobs whose words all have keys, with a word that has none (the keys
    fit [uint32], so the stores before it succeed). *)
Theorem sample_phrases_unknown (pre post : list (list string))
    (text_blob : list string) (words_to_keys : dict string Z)
    (unk_word : string) (max_phrases : Z) :
  dict_mem String.eqb words_to_keys unk_word = false ->
  Forall is_uint32 (dict_values words_to_keys) ->
  len pre < Z.max 1 max_phrases ->
  Forall (Forall (fun word => dict_mem String.eqb words_to_keys word = true))
    pre ->
  Exists (fun word => dict_mem String.eqb words_to_keys word = false)
    text_blob ->
  sample_phrases (pre ++ text_blob :: post) words_to_keys unk_word max_phrases
  = Raise KeyError.
Proof.
  intros Hunk _ Hlen Hpre Hex. unfold sample_phrases.
  rewrite (sample_phrases_loop_app words_to_keys unk_word
             (key_of words_to_keys unk_word)).
  - cbn [sample_phrases_loop].
    pose proof (encode_blob_unknown words_to_keys unk_word text_blob Hunk Hex [])
      as Hblob.
    cbn [app] in Hblob. change (len (@nil Z)) with 0 in Hblob.
    now rewrite Hblob.
  - eapply Forall_impl; [|exact Hpre]. intros blob Hblob.
    eapply Forall_impl; [|exact Hblob]. intros word Hw. cbv beta in Hw.
    unfold word_key, key_of, dict_lookup, dict_mem in *. rewrite Hw.
    destruct (dict_get String.eqb words_to_keys word);
      [reflexivity | discriminate].
  - change (len (@nil (list Z))) with 0. lia.
Qed.

Lemma sample_phrases_unknown_witness :
  sample_phrases ([["the"]] ++ ["the"; "dog"] :: [["cat"]])%string
    [("the", 0); ("cat", 1)]%string UNK 5
  = Raise KeyError.
Proof.
  apply sample_phrases_unknown.
  - reflexivity.
  - repeat constructor; vm_compute; discriminate.
  - vm_compute. reflexivity.
  - repeat constructor.
  - apply Exists_cons_tl. apply Exists_cons_hd. reflexivity.
Defined.

Lemma vocab_inv_decode (total : Z) (w2v : dict string Vocab)
    (w2k : dict string Z) (k2w : dict Z string) :
  vocab_inv total w2v w2k k2w ->
  dict_mem String.eqb w2k UNK = true
  /\ forall w k,
       dict_get String.eqb w2k w = Some k ->
       0 <= k < len w2v /\ dict_get Z.eqb k2w k = Some w.
Proof.
  intros (Hnd & Hunk & Hw2k & Hk2w & Hidx & _).
  assert (Hkk : dict_keys w2k = dict_keys w2v)
    by (rewrite Hw2k; unfold dict_keys; now rewrite map_map).
  assert (Hkv : dict_keys k2w = zrange (len w2v))
    by (rewrite Hk2w; unfold dict_keys; now rewrite map_map).
  split.
  - apply dict_mem_in. now rewrite Hkk.
  - intros w k Hget.
    apply (dict_get_some_in String.eqb String.eqb_eq) in Hget.
    rewrite Hw2k in Hget. apply in_map_iff in Hget.
    destruct Hget as [[w' v] [Heq Hin]]. injection Heq as <- <-.
    split.
    + apply in_zrange. rewrite <- Hidx. apply in_map_iff. now exists (w', v).
    + apply (dict_in_get Z.eqb Zeqb_eq).
      * rewrite Hkv. apply NoDup_zrange.
      * rewrite Hk2w. apply in_map_iff. now exists (w', v).
Qed.

Lemma build_vocab_unk_word py_pow sentences min_count hs ns ds r :
  build_vocab py_pow sentences min_count hs ns ds = Ok r ->
  unk_word r = UNK.
Proof.
  unfold build_vocab. intros H. inv_ok H. subst r. reflexivity.
Qed.

Lemma Forall2_map_r {A B : Type} (R : A -> B -> Prop) (f : A -> B)
    (l : list A) :
  (forall x, In x l -> R x (f x)) -> Forall2 R l (map f l).
Proof.
  induction l as [|a l IH]; intros H; simpl; constructor.
  - apply H. now left.
  - apply IH. intros x Hx. apply H. now right.
Qed.

(** X3. With the maps of a vocabulary [build_vocab] returned,
    [sample_phrases] never raises, every key it writes is a key of the
    vocabulary, and [keys_to_words] takes the key of a word back to the
    word when the vocabulary kept it and to the unknown word otherwise. *)
Theorem build_vocab_phrases_decode (py_pow : Z -> float -> float)
    (sentences : list (list string)) (min_count : Z) (hs ns : bool)
    (ds : float) (r : vocab_result) (text_stream : list (list string))
    (max_phrases : Z) :
  build_vocab py_pow sentences min_count hs ns ds = Ok r ->
  len (words_to_vocabs r) <= 2 ^ 32 ->
  exists phrases,
    sample_phrases text_stream (words_to_keys r) (unk_word r) max_phrases
    = Ok phrases
    /\ Forall2
         (Forall2 (fun word k =>
                     0 <= k < len (words_to_vocabs r)
                     /\ dict_get Z.eqb (keys_to_words r) k
                        = Some (decoded (words_to_keys r) word)))
         (blobs_read text_stream max_phrases) phrases.
Proof.
  intros Hb Hsize.
  rewrite (build_vocab_unk_word _ _ _ _ _ _ _ Hb).
  destruct (build_vocab_inv _ _ _ _ _ _ _ Hb) as [Hinv _].
  destruct (vocab_inv_decode _ _ _ _ Hinv) as (Hunk & Hdec).
  eexists. split.
  - unfold sample_phrases, blobs_read.
    rewrite (sample_phrases_loop_spec (words_to_keys r) UNK
               (key_of (words_to_keys r) UNK)).
    + cbn [app]. change (len (@nil (list Z))) with 0. rewrite Z.sub_0_r.
      reflexivity.
    + apply Forall_forall. intros blob _. apply Forall_forall. intros word _.
      now apply word_key_ok.
  - apply Forall2_map_r. intros blob _. apply Forall2_map_r. intros word _.
    unfold key_of, decoded, dict_mem in *.
    destruct (dict_get String.eqb (words_to_keys r) word) as [k|] eqn:E.
    + destruct (Hdec word k E) as (Hk & Hget).
      rewrite wrap32_small by (unfold is_uint32; lia). now split.
    + destruct (dict_get String.eqb (words_to_keys r) UNK) as [k|] eqn:E';
        [|discriminate].
      destruct (Hdec UNK k E') as (Hk & Hget).
      rewrite wrap32_small by (unfold is_uint32; lia). now split.
Qed.

Lemma build_vocab_phrases_decode_witness :
  exists r phrases,
    build_vocab pow_stub example_corpus 2 false false fzero = Ok r
    /\ sample_phrases [["the"; "dog"; "cat"]]%string (words_to_keys r)
         (unk_word r) 10
       = Ok phrases
    /\ Forall2
         (Forall2 (fun word k =>
                     0 <= k < len (words_to_vocabs r)
                     /\ dict_get Z.eqb (keys_to_words r) k
                        = Some (decoded (words_to_keys r) word)))
         (blobs_read [["the"; "dog"; "cat"]]%string 10) phrases.
Proof.
  destruct (build_vocab pow_stub example_corpus 2 false false fzero)
    as [r|e] eqn:E; [|vm_compute in E; discriminate E].
  destruct (build_vocab_phrases_decode pow_stub example_corpus 2 false false
              fzero r [["the"; "dog"; "cat"]]%string 10 E)
    as (phrases & H1 & H2).
  - vm_compute in E. injection E as <-. vm_compute. discriminate.
  - exists r, phrases. split; [reflexivity|]. split; [exact H1 | exact H2].
Defined.

(** ** Frequent words have short codes *)

Lemma depths_at_leaves (d : nat) (t : HNode) :
  map fst (depths_at d t) = leaves t.
Proof.
  revert d. induction t as [v | c i l IHl r IHr]; intros d; [reflexivity|].
  cbn [depths_at leaves]. now rewrite map_app, IHl, IHr.
Qed.

Lemma depths_at_succ (d : nat) (t : HNode) :
  map snd (depths_at (S d) t) = map S (map snd (depths_at d t)).
Proof.
  revert d. induction t as [v | c i l IHl r IHr]; intros d; [reflexivity|].
  cbn [depths_at]. now rewrite !map_app, IHl, IHr.
Qed.

Lemma depths_at_valid (t : HNode) : valid (map snd (depths_at O t)).
Proof.
  induction t as [v | c i l IHl r IHr]; [constructor|].
  cbn [depths_at]. rewrite map_app, !depths_at_succ. now constructor.
Qed.

Lemma depths_at_cost (d : nat) (t : HNode) :
  pcost (profile (depths_at d t)) = cost_at (Z.of_nat d) t.
Proof.
  revert d. induction t as [v | c i l IHl r IHr]; intros d.
  - unfold pcost, profile. simpl. lia.
  - cbn [depths_at cost_at]. unfold profile in *.
    rewrite map_app, pcost_app, IHl, IHr.
    replace (Z.of_nat (S d)) with (Z.of_nat d + 1) by lia. lia.
Qed.

Lemma codes_at_depths (n : Z) (t : HNode) (signs keys : pyseq) :
  map (fun e => (fst e, length (to_list (snd (snd e)))))
    (codes_at n t signs keys)
  = depths_at (length (to_list keys)) t.
Proof.
  revert signs keys. induction t as [v | c i l IHl r IHr]; intros s k.
  - reflexivity.
  - cbn [codes_at depths_at]. rewrite map_app, IHl, IHr. cbn [to_list].
    rewrite length_app. cbn [length]. now rewrite Nat.add_1_r.
Qed.

Lemma in_two_perm {A : Type} (x y : A) (l : list A) :
  In x l -> In y l -> x <> y -> exists l', Permutation l (x :: y :: l').
Proof.
  intros Hx Hy Hne.
  destruct (in_split _ _ Hx) as (l1 & l2 & ->).
  assert (Hy' : In y (l1 ++ l2)).
  { apply in_app_or in Hy. apply in_or_app.
    destruct Hy as [Hy|[Hy|Hy]]; [now left | congruence | now right]. }
  destruct (in_split _ _ Hy') as (l3 & l4 & E).
  exists (l3 ++ l4).
  rewrite <- Permutation_middle. apply perm_skip.
  rewrite E. symmetry. apply Permutation_middle.
Qed.

(** X4. The docstring's promise, frequent words have shorter codes: among
    the codes of lines 239-261 an item with a larger count never has a
    longer code than an item with a smaller count. *)
Theorem frequent_words_shorter_codes (w2v : dict string Vocab) :
  w2v <> [] ->
  tree_input w2v ->
  exists key_dict sign_dict,
    huffman_codes w2v = Ok (key_dict, sign_dict)
    /\ forall a b,
         In a (dict_values w2v) -> In b (dict_values w2v) ->
         count a < count b ->
         code_length key_dict b <= code_length key_dict a.
Proof.
  intros Hne Hin.
  destruct (huffman_codes_tree w2v Hne Hin) as (root & E & Hperm & Hopt).
  cbn zeta in E, Hperm.
  assert (Hleaves : Permutation (leaves root) (dict_values w2v))
    by (now rewrite <- (codes_at_leaves (len w2v) root (PyList []) (PyList []))).
  set (codes := codes_at (len w2v) root (PyList []) (PyList [])) in *.
  pose proof Hin as (Hnd & _).
  exists (store_keys codes []), (store_signs codes []).
  split; [exact E|]. intros a b Ha Hb Hlt.
  destruct (stored_codes _ codes Hnd Hperm a Ha) as (ea & Hea & Efa & Hka & _).
  destruct (stored_codes _ codes Hnd Hperm b Hb) as (eb & Heb & Efb & Hkb & _).
  unfold code_length. rewrite Hka, Hkb. unfold len.
  set (da := length (to_list (snd (snd ea)))).
  set (db := length (to_list (snd (snd eb)))).
  pose proof (codes_at_depths (len w2v) root (PyList []) (PyList [])) as HD.
  fold codes in HD. cbn [to_list length] in HD.
  assert (Hda : In (a, da) (depths_at O root)).
  { rewrite <- HD. apply in_map_iff. exists ea. now rewrite Efa. }
  assert (Hdb : In (b, db) (depths_at O root)).
  { rewrite <- HD. apply in_map_iff. exists eb. now rewrite Efb. }
  destruct (in_two_perm _ _ _ Hda Hdb) as (D' & HP).
  { intros [= -> _]. lia. }
  pose proof (depths_at_cost O root) as Hcost. change (Z.of_nat O) with 0 in Hcost.
  assert (Hswap : cost_at 0 root <= pcost (profile ((a, db) :: (b, da) :: D'))).
  { apply Hopt.
    - apply (valid_perm (map snd (depths_at O root)));
        [apply depths_at_valid|].
      unfold profile. rewrite map_map. cbn [map snd].
      rewrite (Permutation_map snd HP). cbn [map snd]. apply perm_swap.
    - unfold profile. rewrite map_map. cbn [map fst].
      rewrite <- Hleaves, <- (depths_at_leaves O root).
      rewrite (Permutation_map fst HP), !map_map. cbn [map fst].
      reflexivity. }
  assert (Hsame : pcost (profile (depths_at O root))
                  = pcost (profile ((a, da) :: (b, db) :: D'))).
  { apply pcost_perm. unfold profile. now apply Permutation_map. }
  rewrite Hcost in Hsame. rewrite Hsame in Hswap.
  unfold profile in Hswap. cbn [map fst snd] in Hswap.
  rewrite !pcost_cons in Hswap. nia.
Qed.

Lemma frequent_words_shorter_codes_witness :
  exists key_dict sign_dict,
    huffman_codes textbook = Ok (key_dict, sign_dict)
    /\ forall a b,
         In a (dict_values textbook) -> In b (dict_values textbook) ->
         count a < count b ->
         code_length key_dict b <= code_length key_dict a.
Proof.
  apply frequent_words_shorter_codes.
  - discriminate.
  - split.
    + vm_compute. repeat constructor; simpl; intuition discriminate.
    + repeat constructor; vm_compute; intuition discriminate.
Defined.

(** ** The codes leave no gap *)

Lemma depths_at_ge (d : nat) (t : HNode) :
  depths_at d t <> [] /\ Forall (fun e => (d <= snd e)%nat) (depths_at d t).
Proof.
  revert d. induction t as [v | c i l IHl r IHr]; intros d.
  - split; [discriminate|]. constructor; [simpl; lia | constructor].
  - cbn [depths_at]. destruct (IHl (S d)) as (Nl & Fl).
    destruct (IHr (S d)) as (Nr & Fr). split.
    + destruct (depths_at (S d) r); [contradiction | discriminate].
    + apply Forall_app. split; eapply Forall_impl; try eassumption;
        intros e He; cbv beta in *; lia.
Qed.

Lemma kraft_tree (W : nat) (t : HNode) :
  forall d,
    Forall (fun e => (snd e <= W)%nat) (depths_at d t) ->
    sumZ (map (fun e => 2 ^ Z.of_nat (W - snd e)) (depths_at d t))
    = 2 ^ Z.of_nat (W - d).
Proof.
  induction t as [v | c i l IHl r IHr]; intros d HF.
  - simpl. lia.
  - cbn [depths_at] in *. apply Forall_app in HF. destruct HF as (Fr & Fl).
    rewrite map_app, sumZ_app, (IHl _ Fl), (IHr _ Fr).
    destruct (depths_at_ge (S d) l) as (Nl & Gl).
    destruct (depths_at (S d) l) as [|e D]; [contradiction|].
    inversion Gl; subst. inversion Fl; subst. cbv beta in *.
    replace (W - d)%nat with (S (W - S d)) by lia.
    rewrite Nat2Z.inj_succ, Z.pow_succ_r by lia. lia.
Qed.

(** The stored code lengths are the depths of the leaves. *)
Lemma huffman_depths (w2v : dict string Vocab) :
  w2v <> [] ->
  tree_input w2v ->
  exists root key_dict sign_dict,
    huffman_codes w2v = Ok (key_dict, sign_dict)
    /\ Permutation (map fst (depths_at O root)) (dict_values w2v)
    /\ forall e,
         In e (depths_at O root) ->
         code_length key_dict (fst e) = Z.of_nat (snd e).
Proof.
  intros Hne Hin.
  destruct (huffman_codes_tree w2v Hne Hin) as (root & E & Hperm & _).
  cbn zeta in E, Hperm.
  assert (Hleaves : Permutation (leaves root) (dict_values w2v))
    by (now rewrite <- (codes_at_leaves (len w2v) root (PyList []) (PyList []))).
  pose proof (codes_at_depths (len w2v) root (PyList []) (PyList [])) as HD.
  cbn [to_list length] in HD.
  set (codes := codes_at (len w2v) root (PyList []) (PyList [])) in *.
  pose proof Hin as (Hnd & _).
  exists root, (store_keys codes []), (store_signs codes []).
  split; [exact E|]. split; [now rewrite depths_at_leaves|].
  intros e He. rewrite <- HD in He. apply in_map_iff in He.
  destruct He as (ec & <- & Hec). cbn [fst snd].
  assert (Hnd' : NoDup (map (fun e => index (fst e)) codes)).
  { rewrite <- (map_map fst index).
    eapply Permutation_NoDup; [|exact Hnd].
    symmetry. now apply Permutation_map. }
  destruct (store_get codes Hnd' ec (@nil (Z * pyseq)) (@nil (Z * pyseq)) Hec)
    as (Hk & _).
  unfold code_length. now rewrite Hk.
Qed.

(** X5. The codes of lines 239-261 fill the binary tree: counted in units
    of [2 ^ (W - length)] for any [W] that bounds the code lengths, the
    codes of the vocabulary add up to [2 ^ W] (Kraft's sum is one). *)
Theorem codes_fill_the_tree (w2v : dict string Vocab) :
  w2v <> [] ->
  tree_input w2v ->
  exists key_dict sign_dict,
    huffman_codes w2v = Ok (key_dict, sign_dict)
    /\ forall W,
         (forall v, In v (dict_values w2v) -> code_length key_dict v <= W) ->
         sumZ (map (fun v => 2 ^ (W - code_length key_dict v))
                 (dict_values w2v))
         = 2 ^ W.
Proof.
  intros Hne Hin.
  destruct (huffman_depths w2v Hne Hin) as (root & kd & sd & E & Hperm & Hlen).
  exists kd, sd. split; [exact E|]. intros W HW.
  rewrite <- (sumZ_perm _ _ (Permutation_map _ Hperm)), map_map.
  assert (HF : Forall (fun e => (snd e <= Z.to_nat W)%nat) (depths_at O root)).
  { apply Forall_forall. intros e He.
    assert (Hv : In (fst e) (dict_values w2v)).
    { eapply Permutation_in; [exact Hperm|]. now apply in_map. }
    specialize (HW _ Hv). rewrite (Hlen e He) in HW. lia. }
  assert (HW0 : 0 <= W).
  { destruct (depths_at_ge O root) as (N & _).
    destruct (depths_at O root) as [|e D]; [contradiction|].
    inversion HF; subst. 
    assert (Hv : In (fst e) (dict_values w2v)).
    { eapply Permutation_in; [exact Hperm|]. now left. }
    specialize (HW _ Hv). rewrite (Hlen e (or_introl eq_refl)) in HW. lia. }
  pose proof (kraft_tree (Z.to_nat W) root O HF) as HK.
  rewrite Nat.sub_0_r, Z2Nat.id in HK by exact HW0.
  rewrite <- HK. apply (f_equal sumZ). apply map_ext_in. intros e He.
  rewrite (Hlen e He). rewrite Forall_forall in HF. specialize (HF e He).
  f_equal. lia.
Qed.

Lemma codes_fill_the_tree_witness :
  exists key_dict sign_dict,
    huffman_codes textbook = Ok (key_dict, sign_dict)
    /\ forall W,
         (forall v, In v (dict_values textbook) ->
                    code_length key_dict v <= W) ->
         sumZ (map (fun v => 2 ^ (W - code_length key_dict v))
                 (dict_values textbook))
         = 2 ^ W.
Proof.
  apply codes_fill_the_tree.
  - discriminate.
  - split.
    + vm_compute. repeat constructor; simpl; intuition discriminate.
    + repeat constructor; vm_compute; intuition discriminate.
Defined.

(** ** The keys of the codes *)

Lemma below_mono (m m' : Z) (t : HNode) : below m t -> m <= m' -> below m' t.
Proof. destruct t; simpl; [tauto|]. intros (H & Hl & Hr) Hm. repeat split; auto; lia. Qed.

(** The merged nodes are numbered in the order of the merges, and the last
    merge makes the root. *)
Lemma merge_loop_below (n : Z) (rounds : nat) :
  forall (i : Z) (h : list HNode) (root : HNode),
    heap_from node_count 0 h ->
    length h = S rounds ->
    Forall (below (i + n)) h ->
    merge_loop n rounds i h = Ok [root] ->
    below (i + Z.of_nat rounds + n) root
    /\ ((1 <= rounds)%nat -> node_index root = i + Z.of_nat rounds - 1 + n).
Proof.
  induction rounds as [|rounds IH]; intros i h root Hheap Hlen Hb HE.
  - cbn [merge_loop] in HE. injection HE as ->.
    inversion Hb; subst. split; [|lia].
    eapply below_mono; [eassumption | lia].
  - cbn [merge_loop] in HE. change vocab_lt with (key_lt node_count) in HE.
    destruct (heappop_spec node_count h Hheap) as (m1 & h1 & E1 & P1 & H1 & _).
    { intros ->. discriminate. }
    rewrite E1 in HE. cbn [bind] in HE.
    assert (Hlen1 : length h1 = S rounds).
    { apply Permutation_length in P1. simpl in P1. lia. }
    destruct (heappop_spec node_count h1 H1) as (m2 & h2 & E2 & P2 & H2 & _).
    { intros ->. discriminate. }
    rewrite E2 in HE. cbn [bind] in HE.
    set (new := Inner (node_count m1 + node_count m2) (i + n) m1 m2) in *.
    destruct (heappush_spec node_count h2 new H2) as (H3 & P3).
    assert (Hall : Permutation h (m1 :: m2 :: h2))
      by (rewrite P1; now apply perm_skip).
    assert (Hb' : Forall (below (i + n)) (m1 :: m2 :: h2))
      by (eapply Permutation_Forall; eassumption).
    inversion Hb' as [|? ? Hm1 Hb'']; subst.
    inversion Hb'' as [|? ? Hm2 Hb2]; subst.
    assert (Hlen2 : length h2 = rounds).
    { apply Permutation_length in P2. simpl in P2. lia. }
    assert (Hb3 : Forall (below (i + 1 + n))
                    (heapq.heappush (key_lt node_count) h2 new)).
    { eapply Permutation_Forall; [symmetry; exact P3|].
      constructor.
      - simpl. repeat split; [lia | assumption | assumption].
      - eapply Forall_impl; [|exact Hb2].
        intros t Ht. eapply below_mono; [exact Ht | lia]. }
    destruct (IH (i + 1) _ root H3) as (HB & HI); [| exact Hb3 | exact HE |].
    { rewrite (Permutation_length P3). simpl. lia. }
    split.
    + eapply below_mono; [exact HB | lia].
    + intros _. destruct rounds as [|rounds'].
      * cbn [merge_loop] in HE. injection HE as HE.
        rewrite HE in P3. destruct h2; [|discriminate].
        apply Permutation_length_1 in P3. subst root. simpl. lia.
      * rewrite HI by lia. lia.
Qed.

(** The tree behind the codes, with the numbering of its merged nodes. *)
Lemma huffman_root (w2v : dict string Vocab) :
  w2v <> [] ->
  tree_input w2v ->
  exists root,
    let n := len w2v in
    let codes := codes_at n root (PyList []) (PyList []) in
    huffman_codes w2v = Ok (store_keys codes [], store_signs codes [])
    /\ Permutation (map fst codes) (dict_values w2v)
    /\ node_ok n root
    /\ below (2 * n - 1) root
    /\ (2 <= n -> node_index root = 2 * n - 2).
Proof.
  intros Hne (Hnd & Hall).
  set (n := len w2v). set (values := dict_values w2v) in *.
  assert (Hlenv : length values = length w2v)
    by (subst values; unfold dict_values; apply length_map).
  assert (Hn : 1 <= n).
  { subst n. unfold len. destruct w2v; [contradiction|]. simpl length. lia. }
  destruct (heapify_spec node_count (map Word values)) as (Hheap & Hperm).
  change (key_lt node_count) with vocab_lt in *.
  set (heap0 := heapq.heapify vocab_lt (map Word values)) in *.
  assert (Hlen0 : length heap0 = S (Z.to_nat (n - 1))).
  { rewrite (Permutation_length Hperm), length_map, Hlenv.
    subst n. unfold len in *. lia. }
  destruct (merge_loop_spec n (Z.to_nat (n - 1)) 0 heap0)
    as (root & ER & HR & PR & _); [lia | exact Hheap | exact Hlen0 | |].
  { eapply Permutation_Forall; [symmetry; exact Hperm|].
    apply Forall_map. eapply Forall_impl; [|exact Hall].
    intros v (Hi & _). simpl. lia. }
  destruct (merge_loop_below n (Z.to_nat (n - 1)) 0 heap0 root Hheap Hlen0)
    as (HB & HI); [|exact ER|].
  { eapply Permutation_Forall; [symmetry; exact Hperm|].
    apply Forall_map, Forall_forall. intros v _. exact I. }
  exists root. cbn zeta. fold n. split; [|split; [|split; [|split]]].
  - unfold huffman_codes, build_heap. fold n values heap0.
    rewrite ER. cbn [bind]. rewrite walk_spec.
    + unfold stack_codes. cbn [flat_map fst snd]. now rewrite app_nil_r.
    + simpl. lia.
    + constructor; [exact HR | constructor].
  - rewrite codes_at_leaves, PR.
    rewrite (Permutation_flat_map leaves Hperm).
    now rewrite flat_map_leaves_words.
  - exact HR.
  - eapply below_mono; [exact HB | lia].
  - intros Hn2. rewrite HI by lia. lia.
Qed.

(** Below a node the keys of a path fall strictly. *)
Lemma codes_at_decreasing (n : Z) (t : HNode) :
  forall (m : Z) (signs keys : pyseq),
    node_ok n t ->
    below m t ->
    m - n <= 2 ^ 32 ->
    Forall (fun e => exists path,
                to_list (snd (snd e)) = to_list keys ++ path
                /\ decreasing_from (m - n) path)
      (codes_at n t signs keys).
Proof.
  induction t as [v | c idx l IHl r IHr]; intros m s k Hok Hb Hm.
  - constructor; [|constructor]. exists []. split; [|exact I].
    simpl. now rewrite app_nil_r.
  - cbn [node_ok below] in Hok, Hb.
    destruct Hok as (_ & Hidx & Hl & Hr). destruct Hb as (Hlt & Bl & Br).
    assert (Hkey : wrap32 (idx - n) = idx - n)
      by (apply wrap32_small; unfold is_uint32; lia).
    cbn [codes_at]. rewrite Hkey. apply Forall_app. split.
    + eapply Forall_impl; [|apply (IHr idx); [exact Hr | exact Br | lia]].
      intros e (path & E & Hd). cbn [to_list] in E.
      exists ((idx - n) :: path). split.
      * now rewrite E, <- app_assoc.
      * simpl. split; [lia | exact Hd].
    + eapply Forall_impl; [|apply (IHl idx); [exact Hl | exact Bl | lia]].
      intros e (path & E & Hd). cbn [to_list] in E.
      exists ((idx - n) :: path). split.
      * now rewrite E, <- app_assoc.
      * simpl. split; [lia | exact Hd].
Qed.

(** From two items on every stored code starts with the key of the root,
    [n - 2], and falls from there. *)
Lemma stored_keys_decrease (w2v : dict string Vocab) (root : HNode) :
  let n := len w2v in
  let codes := codes_at n root (PyList []) (PyList []) in
  2 <= n <= 2 ^ 32 ->
  node_ok n root ->
  below (2 * n - 1) root ->
  node_index root = 2 * n - 2 ->
  Forall (fun e => exists rest,
              to_list (snd (snd e)) = (n - 2) :: rest
              /\ decreasing_from (n - 2) rest) codes.
Proof.
  intros n codes Hn Hok Hb Hidx. subst codes. clearbody n.
  destruct root as [v | c idx l r].
  - cbn [node_ok node_index] in Hok, Hidx. lia.
  - cbn [node_index] in Hidx. subst idx.
    cbn [node_ok below] in Hok, Hb.
    destruct Hok as (_ & _ & Hl & Hr). destruct Hb as (_ & Bl & Br).
    assert (Hkey : wrap32 (2 * n - 2 - n) = n - 2)
      by (rewrite wrap32_small; unfold is_uint32; lia).
    cbn [codes_at to_list app]. rewrite Hkey. apply Forall_app. split.
    + eapply Forall_impl;
        [|apply (codes_at_decreasing n r (2 * n - 2)); [exact Hr | exact Br | lia]].
      intros e (path & E & Hd). cbn [to_list app] in E.
      exists path. split; [exact E|].
      replace (n - 2) with (2 * n - 2 - n) by lia. exact Hd.
    + eapply Forall_impl;
        [|apply (codes_at_decreasing n l (2 * n - 2)); [exact Hl | exact Bl | lia]].
      intros e (path & E & Hd). cbn [to_list app] in E.
      exists path. split; [exact E|].
      replace (n - 2) with (2 * n - 2 - n) by lia. exact Hd.
Qed.

(** X6. From two items on (and no more than [2 ^ 32]), the key sequence of
    every item starts with [len(w2v) - 2], the key of the root, and its
    keys fall strictly from there, none negative: the codes use the keys
    [0 .. len(w2v) - 2] and no key twice on a path. *)
Theorem code_keys_decrease (w2v : dict string Vocab) :
  tree_input w2v ->
  2 <= len w2v <= 2 ^ 32 ->
  exists key_dict sign_dict,
    huffman_codes w2v = Ok (key_dict, sign_dict)
    /\ forall v,
         In v (dict_values w2v) ->
         exists rest,
           key_code key_dict v = (len w2v - 2) :: rest
           /\ decreasing_from (len w2v - 2) rest.
Proof.
  intros Hin Hn.
  assert (Hne : w2v <> []) by (intros ->; unfold len in Hn; simpl in Hn; lia).
  destruct (huffman_root w2v Hne Hin) as (root & E & Hperm & Hok & Hb & Hidx).
  cbn zeta in E, Hperm.
  pose proof (stored_keys_decrease w2v root Hn Hok Hb (Hidx (proj1 Hn))) as HF.
  cbn zeta in HF.
  set (codes := codes_at (len w2v) root (PyList []) (PyList [])) in *.
  destruct Hin as (Hnd & _).
  exists (store_keys codes []), (store_signs codes []).
  split; [exact E|]. intros v Hv.
  destruct (stored_codes _ codes Hnd Hperm v Hv) as (e & He & _ & Hk & _).
  rewrite Forall_forall in HF. destruct (HF e He) as (rest & Er & Hd).
  exists rest. unfold key_code. rewrite Hk. now split.
Qed.

Lemma code_keys_decrease_witness :
  exists key_dict sign_dict,
    huffman_codes textbook = Ok (key_dict, sign_dict)
    /\ forall v,
         In v (dict_values textbook) ->
         exists rest,
           key_code key_dict v = (len textbook - 2) :: rest
           /\ decreasing_from (len textbook - 2) rest.
Proof.
  apply code_keys_decrease.
  - split.
    + vm_compute. repeat constructor; simpl; intuition discriminate.
    + repeat constructor; vm_compute; intuition discriminate.
  - vm_compute. split; discriminate.
Defined.

(** ** The sign matrix and the largest key *)

Lemma fill_row_full (ks ss : pyseq) (M : nat) (c_len : Z) :
  c_len = len (to_list ks) ->
  length (to_list ss) = length (to_list ks) ->
  forall (b a : nat) (krow srow : list Z) (mk : Z),
    (a + b = M)%nat -> length krow = M -> length srow = M ->
    exists krow' srow' mk',
      fill_row (map Z.of_nat (seq a b)) c_len ks ss krow srow mk
      = Ok (krow', srow', mk')
      /\ length srow' = M
      /\ (forall j,
            nth_error srow' j
            = if (j <? a)%nat then nth_error srow j
              else sign_cell ss M (nth_error srow j) j)
      /\ mk <= mk'
      /\ (mk' = mk \/ exists key, In key (to_list ks) /\ mk' = wrap32 key)
      /\ (forall j key,
            (a <= j < M)%nat ->
            nth_error (to_list ks) j = Some key ->
            wrap32 key <= mk').
Proof.
  intros Hc Hss. induction b as [|b IH]; intros a krow srow mk Hab Hk Hs.
  - exists krow, srow, mk. split; [reflexivity|]. split; [exact Hs|].
    split; [|split; [lia | split; [now left | intros j key Hj; lia]]].
    intros j. destruct (j <? a)%nat eqn:E; [reflexivity|].
    apply Nat.ltb_ge in E. unfold sign_cell.
    destruct (nth_error (to_list ss) j); [|reflexivity].
    replace (j <? M)%nat with false by (symmetry; apply Nat.ltb_ge; lia).
    apply nth_error_None. lia.
  - cbn [seq map fill_row].
    assert (Ha : 0 <= Z.of_nat a < len krow) by (unfold len; lia).
    assert (Ha' : 0 <= Z.of_nat a < len srow) by (unfold len; lia).
    destruct (Z.of_nat a >=? c_len) eqn:E.
    + apply Z.geb_le in E.
      assert (Hnone : nth_error (to_list ss) a = None)
        by (apply nth_error_None; unfold len in Hc; lia).
      assert (Hnonek : nth_error (to_list ks) a = None)
        by (apply nth_error_None; unfold len in Hc; lia).
      rewrite (store_total IndexError krow _ _ Ha). cbn [bind].
      rewrite Nat2Z.id.
      destruct (IH (S a) (set_nth krow a (wrap32 (MAX_HSM_KEY + 1))) srow mk)
        as (krow' & srow' & mk' & EQ & L2 & HP & Hle & Hor & Hall);
        [lia | now rewrite length_set_nth | exact Hs |].
      exists krow', srow', mk'. split; [exact EQ|]. split; [exact L2|].
      split; [|split; [exact Hle | split; [exact Hor|]]].
      * intros j. rewrite HP.
        destruct (Nat.lt_total j a) as [Hj|[->|Hj]].
        -- replace (j <? S a)%nat with true by (symmetry; apply Nat.ltb_lt; lia).
           replace (j <? a)%nat with true by (symmetry; apply Nat.ltb_lt; lia).
           reflexivity.
        -- replace (a <? S a)%nat with true by (symmetry; apply Nat.ltb_lt; lia).
           rewrite Nat.ltb_irrefl. unfold sign_cell. now rewrite Hnone.
        -- replace (j <? S a)%nat with false by (symmetry; apply Nat.ltb_ge; lia).
           replace (j <? a)%nat with false by (symmetry; apply Nat.ltb_ge; lia).
           reflexivity.
      * intros j key Hj Hkey.
        destruct (Nat.eq_dec j a) as [->|Hne]; [congruence|].
        apply (Hall j key); [lia | exact Hkey].
    + assert (Hlt : Z.of_nat a < c_len).
      { destruct (Z.geb_spec (Z.of_nat a) c_len); [discriminate | lia]. }
      destruct (lookup_total IndexError (to_list ks) (Z.of_nat a))
        as (key & Ekey); [lia|].
      destruct (lookup_total IndexError (to_list ss) (Z.of_nat a))
        as (sign & Esign); [unfold len in *; lia|].
      rewrite Ekey. cbn [bind]. rewrite Esign. cbn [bind].
      rewrite (store_total IndexError krow _ _ Ha). cbn [bind].
      rewrite (store_total IndexError srow _ _ Ha'). cbn [bind].
      rewrite Nat2Z.id.
      pose proof (lookup_in _ _ _ _ Ekey) as Hkin.
      apply lookup_ok in Ekey. destruct Ekey as [_ Ekey].
      apply lookup_ok in Esign. destruct Esign as [_ Esign].
      rewrite Nat2Z.id in Ekey, Esign.
      set (mk1 := if wrap32 key >? mk then wrap32 key else mk).
      assert (Hmk1 : mk <= mk1 /\ wrap32 key <= mk1
                     /\ (mk1 = mk \/ mk1 = wrap32 key)).
      { subst mk1. destruct (Z.gtb_spec (wrap32 key) mk); lia. }
      destruct (IH (S a) (set_nth krow a (wrap32 key)) (set_nth srow a sign) mk1)
        as (krow' & srow' & mk' & EQ & L2 & HP & Hle & Hor & Hall);
        [lia | now rewrite length_set_nth | now rewrite length_set_nth |].
      exists krow', srow', mk'. split; [exact EQ|]. split; [exact L2|].
      split; [|split; [lia | split]].
      * intros j. rewrite HP, nth_error_set_nth.
        destruct (Nat.lt_total j a) as [Hj|[->|Hj]].
        -- replace (j <? S a)%nat with true by (symmetry; apply Nat.ltb_lt; lia).
           replace (j =? a)%nat with false by (symmetry; apply Nat.eqb_neq; lia).
           replace (j <? a)%nat with true by (symmetry; apply Nat.ltb_lt; lia).
           reflexivity.
        -- replace (a <? S a)%nat with true by (symmetry; apply Nat.ltb_lt; lia).
           rewrite Nat.eqb_refl, Nat.ltb_irrefl.
           replace (a <? length srow)%nat with true
             by (symmetry; apply Nat.ltb_lt; lia).
           unfold sign_cell. rewrite Esign.
           replace (a <? M)%nat with true by (symmetry; apply Nat.ltb_lt; lia).
           reflexivity.
        -- replace (j <? S a)%nat with false by (symmetry; apply Nat.ltb_ge; lia).
           replace (j =? a)%nat with false by (symmetry; apply Nat.eqb_neq; lia).
           replace (j <? a)%nat with false by (symmetry; apply Nat.ltb_ge; lia).
           reflexivity.
      * destruct Hor as [->|Hor]; [|now right].
        destruct Hmk1 as (_ & _ & [->| ->]); [now left|].
        right. now exists key.
      * intros j key' Hj Hkey'.
        destruct (Nat.eq_dec j a) as [->|Hne].
        -- rewrite Ekey in Hkey'. injection Hkey' as <-. lia.
        -- apply (Hall j key'); [lia | exact Hkey'].
Qed.

(** A zero row filled from column 0 is the signs followed by zeros. *)
Lemma filled_sign_row (ss : pyseq) (row : list Z) (M : nat) :
  (length (to_list ss) <= M)%nat ->
  (forall j, nth_error row j = sign_cell ss M (nth_error (repeat 0 M) j) j) ->
  row = padded_signs (to_list ss) (Z.of_nat M).
Proof.
  intros Hle H. apply nth_error_ext. intros j. rewrite H.
  unfold padded_signs, sign_cell.
  destruct (Nat.lt_ge_cases j (length (to_list ss))) as [Hj|Hj].
  - rewrite nth_error_app1 by exact Hj.
    destruct (nth_error (to_list ss) j) eqn:E.
    + replace (j <? M)%nat with true by (symmetry; apply Nat.ltb_lt; lia).
      reflexivity.
    + apply nth_error_None in E. lia.
  - rewrite nth_error_app2 by exact Hj.
    replace (nth_error (to_list ss) j) with (@None Z)
      by (symmetry; now apply nth_error_None).
    destruct (Nat.lt_ge_cases j M) as [Hm|Hm].
    + rewrite !nth_error_repeat; [reflexivity | unfold len; lia | lia].
    + transitivity (@None Z); [|symmetry]; apply nth_error_None;
        rewrite repeat_length; unfold len; lia.
Qed.

Lemma fill_rows_full (key_dict sign_dict : dict Z pyseq) (R M : nat) :
  forall (keys : list Z) (t : hsm_tree),
    matrix_shape R M t ->
    Forall (row_ready key_dict sign_dict R M) keys ->
    NoDup keys ->
    (forall k, In k keys ->
               nth_error (keys_to_code_signs t) (Z.to_nat k)
               = Some (repeat 0 M)) ->
    exists t',
      fill_rows keys key_dict sign_dict (Z.of_nat M) t = Ok t'
      /\ matrix_shape R M t'
      /\ (forall k ss,
            In k keys ->
            dict_get Z.eqb sign_dict k = Some ss ->
            nth_error (keys_to_code_signs t') (Z.to_nat k)
            = Some (padded_signs (to_list ss) (Z.of_nat M)))
      /\ (forall k,
            ~ In k keys -> 0 <= k ->
            nth_error (keys_to_code_signs t') (Z.to_nat k)
            = nth_error (keys_to_code_signs t) (Z.to_nat k))
      /\ max_code_key t <= max_code_key t'
      /\ (max_code_key t' = max_code_key t
          \/ exists k ks key,
               In k keys /\ dict_get Z.eqb key_dict k = Some ks
               /\ In key (to_list ks) /\ max_code_key t' = wrap32 key)
      /\ (forall k ks key,
            In k keys ->
            dict_get Z.eqb key_dict k = Some ks ->
            In key (to_list ks) ->
            wrap32 key <= max_code_key t').
Proof.
  induction keys as [|k keys IH]; intros t Hshape Hready Hnd Hzero.
  - exists t. split; [reflexivity|]. split; [exact Hshape|].
    split; [intros ? ? []|]. split; [reflexivity|]. split; [lia|].
    split; [now left | intros ? ? ? []].
  - inversion Hready as [|? ? Hk Hready']; subst.
    inversion Hnd as [|? ? Hni Hnd']; subst.
    destruct Hk as (ksl & ss & Ek & Es & Hlen & HleM & Hkr).
    pose proof Hshape as (Lk & Ls & Fk & Fs).
    cbn [fill_rows]. unfold dict_lookup. rewrite Ek, Es. cbn [bind size].
    destruct (lookup_total IndexError (keys_to_code_keys t) k) as (krow & Ekr);
      [unfold len; lia|].
    destruct (lookup_total IndexError (keys_to_code_signs t) k) as (srow & Esr);
      [unfold len; lia|].
    rewrite Ekr, Esr. cbn [bind].
    assert (Hkl : length krow = M).
    { rewrite Forall_forall in Fk. apply Fk. eapply lookup_in; eauto. }
    assert (Hsl : length srow = M).
    { rewrite Forall_forall in Fs. apply Fs. eapply lookup_in; eauto. }
    assert (Hsz : srow = repeat 0 M).
    { apply lookup_ok in Esr. destruct Esr as [_ Esr].
      rewrite (Hzero k (or_introl eq_refl)) in Esr. now injection Esr. }
    destruct (fill_row_full (NdArray ksl) ss M (len ksl) eq_refl Hlen
                M O krow srow (max_code_key t) eq_refl Hkl Hsl)
      as (krow' & srow' & mk' & EQ & L2 & HP & Hle & Hor & Hmax).
    unfold zrange. rewrite Nat2Z.id, EQ. cbn [bind].
    assert (L1 : length krow' = M).
    { destruct (fill_row_spec (NdArray ksl) ss M (len ksl) eq_refl Hlen
                  M O krow srow (max_code_key t) eq_refl Hkl Hsl)
        as (k1 & s1 & m1 & EQ1 & L1 & _).
      rewrite EQ in EQ1. now injection EQ1 as -> _ _. }
    rewrite (store_total IndexError (keys_to_code_keys t) k krow')
      by (unfold len; lia).
    rewrite (store_total IndexError (keys_to_code_signs t) k srow')
      by (unfold len; lia).
    cbn [bind].
    set (t1 := mkHsmTree (set_nth (keys_to_code_keys t) (Z.to_nat k) krow')
                 (set_nth (keys_to_code_signs t) (Z.to_nat k) srow') mk').
    assert (Hother : forall k0, k0 <> k -> 0 <= k0 ->
              nth_error (keys_to_code_signs t1) (Z.to_nat k0)
              = nth_error (keys_to_code_signs t) (Z.to_nat k0)).
    { intros k0 Hne Hk0. unfold t1. cbn [keys_to_code_signs].
      rewrite nth_error_set_nth.
      replace (Z.to_nat k0 =? Z.to_nat k)%nat with false; [reflexivity|].
      symmetry. apply Nat.eqb_neq. lia. }
    destruct (IH t1) as (t' & ET & Hshape' & Hin & Hout & Hmle & Hmor & Hmall);
      [|exact Hready' | exact Hnd' | |].
    { unfold matrix_shape, t1. cbn [keys_to_code_keys keys_to_code_signs].
      rewrite !length_set_nth.
      split; [exact Lk|]. split; [exact Ls|].
      split; apply Forall_set_nth; assumption. }
    { intros k0 Hk0.
      assert (Hr0 : row_ready key_dict sign_dict R M k0)
        by (rewrite Forall_forall in Hready'; now apply Hready').
      destruct Hr0 as (_ & _ & _ & _ & _ & _ & Hk0r & _).
      rewrite Hother; [apply Hzero; now right | congruence | exact Hk0r]. }
    exists t'. split; [exact ET|]. split; [exact Hshape'|].
    split; [|split; [|split; [|split]]].
    + intros k0 ss0 [<-|Hk0] Eg.
      * rewrite (Hout k Hni (proj1 Hkr)).
        unfold t1. cbn [keys_to_code_signs].
        rewrite nth_error_set_nth, Nat.eqb_refl.
        replace (Z.to_nat k <? length (keys_to_code_signs t))%nat with true
          by (symmetry; apply Nat.ltb_lt; lia).
        f_equal. rewrite Es in Eg. injection Eg as <-.
        apply filled_sign_row; [lia|]. intros j. rewrite HP, Hsz. reflexivity.
      * now apply Hin.
    + intros k0 Hni0 Hk0.
      rewrite (Hout k0 (fun H => Hni0 (or_intror H)) Hk0).
      apply Hother; [|exact Hk0]. intros ->. apply Hni0. now left.
    + unfold t1 in Hmle. cbn [max_code_key] in Hmle. lia.
    + destruct Hmor as [Hsame|(k0 & ks0 & key & Hk0 & Eg & Hkey & Em)].
      * unfold t1 in Hsame. cbn [max_code_key] in Hsame. rewrite Hsame.
        destruct Hor as [->|(key & Hkey & ->)]; [now left|].
        right. exists k, (NdArray ksl), key.
        split; [now left|]. now split.
      * right. exists k0, ks0, key. split; [now right|]. now split.
    + intros k0 ks0 key [<-|Hk0] Eg Hkey.
      * rewrite Ek in Eg. injection Eg as <-. cbn [to_list] in Hkey.
        destruct (In_nth_error _ _ Hkey) as (j & Hj).
        assert (Hjl : (j < length ksl)%nat)
          by (apply nth_error_Some; congruence).
        specialize (Hmax j key). cbn [to_list] in Hmax.
        unfold t1 in Hmle. cbn [max_code_key] in Hmle.
        assert (wrap32 key <= mk') by (apply Hmax; [lia | exact Hj]). lia.
      * now apply (Hmall k0 ks0 key).
Qed.

Lemma fold_max_in (l : list Z) (x : Z) : In (fold_left Z.max l x) (x :: l).
Proof.
  revert x. induction l as [|a l IH]; intros x; simpl; [now left|].
  destruct (IH (Z.max x a)) as [H|H]; [|now right; right].
  rewrite <- H. destruct (Z.max_spec x a) as [[_ ->]|[_ ->]]; auto.
Qed.

Lemma np_max_in (l : list Z) (m : Z) : np_max l = Ok m -> In m l.
Proof.
  destruct l as [|x l]; [discriminate|]. intros [= <-]. apply fold_max_in.
Qed.

(** Distinct indexes below the size of the vocabulary are all of them. *)
Lemma tree_input_indexes (w2v : dict string Vocab) (k : Z) :
  tree_input w2v ->
  0 <= k < len w2v ->
  In k (map index (dict_values w2v)).
Proof.
  intros (Hnd & Hall) Hk.
  assert (Hincl : incl (zrange (len w2v)) (map index (dict_values w2v))).
  { apply NoDup_length_incl.
    - exact Hnd.
    - rewrite length_zrange. unfold dict_values. rewrite !length_map.
      unfold len. lia.
    - intros i Hi. apply in_map_iff in Hi. destruct Hi as (v & <- & Hv).
      apply in_zrange. rewrite Forall_forall in Hall. now apply Hall. }
  apply Hincl. now apply in_zrange.
Qed.

(** What [code_matrices] does with the stored codes of a tree of two or
    more leaves: the shape of the matrices, the rows of the sign matrix and
    the largest key. *)
Lemma code_matrices_full (w2v : dict string Vocab) (root : HNode) :
  let codes := codes_at (len w2v) root (PyList []) (PyList []) in
  let kd := store_keys codes [] in
  let sd := store_signs codes [] in
  2 <= len w2v ->
  tree_input w2v ->
  Permutation (map fst codes) (dict_values w2v) ->
  exists t width,
    code_matrices kd sd = Ok t
    /\ matrix_shape (length w2v) (Z.to_nat width) t
    /\ 0 <= width
    /\ (exists v, In v (dict_values w2v) /\ code_length kd v = width)
    /\ (forall v,
          In v (dict_values w2v) ->
          code_length kd v <= width
          /\ lookup IndexError (keys_to_code_signs t) (index v)
             = Ok (padded_signs (sign_code sd v) width))
    /\ (forall v key,
          In v (dict_values w2v) -> In key (key_code kd v) ->
          wrap32 key <= max_code_key t)
    /\ (max_code_key t = 0
        \/ exists v key,
             In v (dict_values w2v) /\ In key (key_code kd v)
             /\ max_code_key t = wrap32 key).
Proof.
  intros codes kd sd Hn Hin Hperm.
  pose proof Hin as (Hnd & Hall).
  assert (Hnd' : NoDup (map (fun e => index (fst e)) codes)).
  { rewrite <- (map_map fst index).
    eapply Permutation_NoDup; [|exact Hnd].
    symmetry. now apply Permutation_map. }
  assert (Hlen : (2 <= length codes)%nat).
  { rewrite <- (length_map fst), (Permutation_length Hperm).
    unfold dict_values. rewrite length_map. unfold len in Hn. lia. }
  assert (HA : Forall (fun e => exists l, snd (snd e) = NdArray l
                                          /\ Forall is_uint32 l) codes).
  { subst codes. destruct root as [v | c i l r]; [simpl in Hlen; lia|].
    cbn [codes_at to_list app]. apply Forall_app.
    split; apply codes_at_arrays;
      (constructor; [apply wrap32_range | constructor]). }
  pose proof (codes_at_signs (len w2v) root (PyList []) (PyList [])
                eq_refl (Forall_nil _)) as HS.
  fold codes in HS.
  assert (Ekd : kd = map (fun e => (index (fst e), snd (snd e))) codes)
    by (apply (store_keys_fresh codes []); exact Hnd').
  assert (Ekeys : dict_keys kd = map (fun e => index (fst e)) codes)
    by (rewrite Ekd; unfold dict_keys; now rewrite map_map).
  assert (Evals : dict_values kd = map (fun e => snd (snd e)) codes)
    by (rewrite Ekd; unfold dict_values; now rewrite map_map).
  assert (Eidx : Permutation (dict_keys kd) (map index (dict_values w2v))).
  { rewrite Ekeys, <- (map_map fst index). now apply Permutation_map. }
  unfold code_matrices.
  rewrite (map_result_ok size (fun s => len (to_list s))).
  2:{ rewrite Evals. apply Forall_map. eapply Forall_impl; [|exact HA].
      intros e (l & -> & _). reflexivity. }
  cbn [bind].
  destruct (np_max_spec (map (fun s => len (to_list s)) (dict_values kd)))
    as (M & EM & HM).
  { rewrite Evals. destruct codes; [simpl in Hlen; lia | discriminate]. }
  destruct (np_max_spec (dict_keys kd)) as (K & EK & HK).
  { rewrite Ekeys. destruct codes; [simpl in Hlen; lia | discriminate]. }
  rewrite EM, EK. cbn [bind].
  assert (HKn : K + 1 = len w2v).
  { assert (H1 : In K (map index (dict_values w2v))).
    { eapply Permutation_in; [exact Eidx|]. now apply np_max_in. }
    apply in_map_iff in H1. destruct H1 as (v & Ev & Hv).
    rewrite Forall_forall in Hall. pose proof (Hall v Hv) as (Hv1 & _).
    assert (H2 : In (len w2v - 1) (dict_keys kd)).
    { eapply Permutation_in; [symmetry; exact Eidx|].
      apply tree_input_indexes; [exact Hin | lia]. }
    rewrite Forall_forall in HK. specialize (HK _ H2). lia. }
  assert (HMin : exists e, In e codes /\ len (to_list (snd (snd e))) = M).
  { apply np_max_in in EM. rewrite Evals, map_map in EM.
    apply in_map_iff in EM. destruct EM as (e & Ee & He). now exists e. }
  assert (HM0 : 0 <= M).
  { destruct HMin as (e & _ & <-). apply len_nonneg. }
  assert (Hcodes : forall e, In e codes ->
            dict_get Z.eqb kd (index (fst e)) = Some (snd (snd e))
            /\ dict_get Z.eqb sd (index (fst e)) = Some (fst (snd e))).
  { intros e He. now apply store_get. }
  assert (Hidx : forall e, In e codes -> 0 <= index (fst e) <= K).
  { intros e He. split.
    - rewrite Forall_forall in Hall. apply (Hall (fst e)).
      eapply Permutation_in; [exact Hperm|]. now apply in_map.
    - rewrite Forall_forall in HK. apply HK. rewrite Ekeys.
      apply in_map_iff. now exists e. }
  assert (Hsize : forall e, In e codes -> len (to_list (snd (snd e))) <= M).
  { intros e He. rewrite Forall_forall in HM. apply HM. rewrite Evals, map_map.
    apply in_map_iff. now exists e. }
  assert (Hval : forall v, In v (dict_values w2v) ->
            exists e, In e codes /\ fst e = v).
  { intros v Hv.
    assert (Hv' : In v (map fst codes))
      by (eapply Permutation_in; [symmetry; exact Hperm | exact Hv]).
    apply in_map_iff in Hv'. destruct Hv' as (e & <- & He). now exists e. }
  destruct (fill_rows_full kd sd (Z.to_nat (K + 1)) (Z.to_nat M)
              (dict_keys kd)
              (mkHsmTree (zeros (K + 1) M) (zeros (K + 1) M) 0))
    as (t & ET & Hshape & Hsg & _ & _ & Hmor & Hmall).
  - apply zeros_shape.
  - rewrite Ekeys. apply Forall_map, Forall_forall. intros e He.
    rewrite Forall_forall in HA, HS.
    destruct (HA e He) as (l & El & _). destruct (HS e He) as (Hls & _).
    destruct (Hcodes e He) as (Hk & Hs).
    exists l, (fst (snd e)). rewrite <- El.
    split; [exact Hk|]. split; [exact Hs|].
    pose proof (Hsize e He) as Hsz. pose proof (Hidx e He) as Hix.
    rewrite El in Hls, Hsz. cbn [to_list] in Hls, Hsz. unfold len in *.
    split; [lia|]. split; lia.
  - rewrite Ekeys. exact Hnd'.
  - intros k Hk. cbn [keys_to_code_signs]. unfold zeros.
    rewrite Ekeys in Hk. apply in_map_iff in Hk. destruct Hk as (e & <- & He).
    pose proof (Hidx e He). apply nth_error_repeat. lia.
  - rewrite Z2Nat.id in ET by exact HM0.
    exists t, M. split; [exact ET|].
    split; [|split; [exact HM0 | split; [|split; [|split]]]].
    + replace (length w2v) with (Z.to_nat (K + 1))
        by (unfold len in HKn; lia).
      exact Hshape.
    + destruct HMin as (e & He & Ee). exists (fst e). split.
      * eapply Permutation_in; [exact Hperm|]. now apply in_map.
      * unfold code_length. destruct (Hcodes e He) as (Hk & _). now rewrite Hk.
    + intros v Hv. destruct (Hval v Hv) as (e & He & <-).
      destruct (Hcodes e He) as (Hk & Hs).
      unfold code_length, sign_code. rewrite Hk, Hs.
      split; [now apply Hsize|].
      apply lookup_ok. split; [apply (Hidx e He)|].
      rewrite <- (Z2Nat.id M HM0). apply Hsg; [|exact Hs].
      rewrite Ekeys. apply in_map_iff. now exists e.
    + intros v key Hv Hkey. destruct (Hval v Hv) as (e & He & <-).
      destruct (Hcodes e He) as (Hk & _).
      unfold key_code in Hkey. rewrite Hk in Hkey.
      apply (Hmall (index (fst e)) (snd (snd e)) key); [|exact Hk | exact Hkey].
      rewrite Ekeys. apply in_map_iff. now exists e.
    + cbn [max_code_key] in Hmor.
      destruct Hmor as [->|(k & ks & key & Hk & Eg & Hkey & ->)]; [now left|].
      right. rewrite Ekeys in Hk. apply in_map_iff in Hk.
      destruct Hk as (e & <- & He). destruct (Hcodes e He) as (Hk' & _).
      exists (fst e), key. split.
      * eapply Permutation_in; [exact Hperm|]. now apply in_map.
      * unfold key_code. rewrite Hk'. rewrite Hk' in Eg.
        injection Eg as <-. now split.
Qed.

(** X7. From two items on [_create_binary_tree] returns two matrices with
    one row for every item and as many columns as the longest code has
    keys; the row of an item in the sign matrix is its sign sequence
    followed by zeros. *)
Theorem sign_rows_padded (w2v : dict string Vocab) :
  tree_input w2v ->
  2 <= len w2v ->
  exists key_dict sign_dict t width,
    huffman_codes w2v = Ok (key_dict, sign_dict)
    /\ _create_binary_tree w2v = Ok t
    /\ len (keys_to_code_keys t) = len w2v
    /\ len (keys_to_code_signs t) = len w2v
    /\ Forall (fun row => len row = width) (keys_to_code_keys t)
    /\ Forall (fun row => len row = width) (keys_to_code_signs t)
    /\ (exists v, In v (dict_values w2v) /\ code_length key_dict v = width)
    /\ forall v,
         In v (dict_values w2v) ->
         code_length key_dict v <= width
         /\ lookup IndexError (keys_to_code_signs t) (index v)
            = Ok (padded_signs (sign_code sign_dict v) width).
Proof.
  intros Hin Hn.
  assert (Hne : w2v <> []) by (intros ->; unfold len in Hn; simpl in Hn; lia).
  destruct (huffman_codes_tree w2v Hne Hin) as (root & E & Hperm & _).
  cbn zeta in E, Hperm.
  destruct (code_matrices_full w2v root Hn Hin Hperm)
    as (t & width & ET & (Lk & Ls & Fk & Fs) & Hw0 & Hmax & Hrows & _).
  exists (store_keys (codes_at (len w2v) root (PyList []) (PyList [])) []),
    (store_signs (codes_at (len w2v) root (PyList []) (PyList [])) []),
    t, width.
  split; [exact E|]. split.
  { unfold _create_binary_tree. rewrite E. exact ET. }
  split; [unfold len; now rewrite Lk|].
  split; [unfold len; now rewrite Ls|].
  split.
  { eapply Forall_impl; [|exact Fk]. intros row Hr. cbv beta in Hr.
    unfold len. lia. }
  split.
  { eapply Forall_impl; [|exact Fs]. intros row Hr. cbv beta in Hr.
    unfold len. lia. }
  split; [exact Hmax | exact Hrows].
Qed.

Lemma sign_rows_padded_witness :
  exists key_dict sign_dict t width,
    huffman_codes textbook = Ok (key_dict, sign_dict)
    /\ _create_binary_tree textbook = Ok t
    /\ len (keys_to_code_keys t) = len textbook
    /\ len (keys_to_code_signs t) = len textbook
    /\ Forall (fun row => len row = width) (keys_to_code_keys t)
    /\ Forall (fun row => len row = width) (keys_to_code_signs t)
    /\ (exists v, In v (dict_values textbook)
                  /\ code_length key_dict v = width)
    /\ forall v,
         In v (dict_values textbook) ->
         code_length key_dict v <= width
         /\ lookup IndexError (keys_to_code_signs t) (index v)
            = Ok (padded_signs (sign_code sign_dict v) width).
Proof.
  apply sign_rows_padded.
  - split.
    + vm_compute. repeat constructor; simpl; intuition discriminate.
    + repeat constructor; vm_compute; intuition discriminate.
  - vm_compute. discriminate.
Defined.

(** X8. For a vocabulary of two up to [2 ^ 32] items the largest code key
    [_create_binary_tree] reports is [len(w2v) - 2]: the codes need a table
    of [len(w2v) - 1] code vectors. *)
Theorem max_code_key_value (w2v : dict string Vocab) :
  tree_input w2v ->
  2 <= len w2v <= 2 ^ 32 ->
  exists t,
    _create_binary_tree w2v = Ok t
    /\ max_code_key t = len w2v - 2.
Proof.
  intros Hin Hn.
  assert (Hne : w2v <> []) by (intros ->; unfold len in Hn; simpl in Hn; lia).
  destruct (huffman_root w2v Hne Hin) as (root & E & Hperm & Hok & Hb & Hidx).
  cbn zeta in E, Hperm.
  pose proof (stored_keys_decrease w2v root Hn Hok Hb (Hidx (proj1 Hn))) as HF.
  cbn zeta in HF.
  destruct (code_matrices_full w2v root (proj1 Hn) Hin Hperm)
    as (t & width & ET & _ & _ & _ & _ & Hall & Hor).
  cbn zeta in ET, Hall, Hor.
  set (codes := codes_at (len w2v) root (PyList []) (PyList [])) in *.
  exists t. split.
  { unfold _create_binary_tree. rewrite E. exact ET. }
  destruct Hin as (Hnd & _).
  assert (Hkeys : forall v key,
            In v (dict_values w2v) ->
            In key (key_code (store_keys codes []) v) ->
            0 <= key <= len w2v - 2).
  { intros v key Hv Hkey.
    destruct (stored_codes _ codes Hnd Hperm v Hv) as (e & He & _ & Hk & _).
    unfold key_code in Hkey. rewrite Hk in Hkey.
    rewrite Forall_forall in HF. destruct (HF e He) as (rest & Er & Hd).
    rewrite Er in Hkey. destruct Hkey as [<-|Hkey]; [lia|].
    clear - Hd Hkey. revert Hd Hkey. generalize (len w2v - 2).
    induction rest as [|x rest IH]; intros b Hd Hkey; [contradiction|].
    simpl in Hd. destruct Hd as (Hx & Hd). destruct Hkey as [<-|Hkey]; [lia|].
    specialize (IH x Hd Hkey). lia. }
  assert (Hroot : exists v, In v (dict_values w2v)
                            /\ In (len w2v - 2) (key_code (store_keys codes []) v)).
  { assert (Hex : exists v, In v (dict_values w2v)).
    { clear - Hne. destruct w2v as [|[w v] ?]; [contradiction|].
      exists v. now left. }
    destruct Hex as (v & Hv). exists v. split; [exact Hv|].
    destruct (stored_codes _ codes Hnd Hperm v Hv) as (e & He & _ & Hk & _).
    unfold key_code. rewrite Hk.
    rewrite Forall_forall in HF. destruct (HF e He) as (rest & -> & _).
    now left. }
  destruct Hroot as (v0 & Hv0 & Hk0).
  pose proof (Hall v0 _ Hv0 Hk0) as Hge.
  rewrite wrap32_small in Hge by (unfold is_uint32; lia).
  destruct Hor as [H0|(v & key & Hv & Hkey & Emax)].
  - lia.
  - pose proof (Hkeys v key Hv Hkey) as Hr.
    rewrite wrap32_small in Emax by (unfold is_uint32; lia). lia.
Qed.

Lemma max_code_key_value_witness :
  exists t,
    _create_binary_tree textbook = Ok t
    /\ max_code_key t = len textbook - 2.
Proof.
  apply max_code_key_value.
  - split.
    + vm_compute. repeat constructor; simpl; intuition discriminate.
    + repeat constructor; vm_compute; intuition discriminate.
  - vm_compute. split; discriminate.
Defined.

(** ** build_vocab with the tree *)

Lemma dict_set_values_Forall {K V : Type} (eqb : K -> K -> bool)
    (P : V -> Prop) (d : dict K V) (k : K) (v : V) :
  Forall P (dict_values d) -> P v ->
  Forall P (dict_values (dict_set eqb d k v)).
Proof.
  unfold dict_values. intros H Hv.
  induction d as [|[k' v'] d IH]; simpl.
  - constructor; [exact Hv | constructor].
  - simpl in H. inversion H; subst.
    destruct (eqb k' k); simpl; constructor; auto.
Qed.

Lemma index_fold_nonneg (min_count : Z) (items : list (string * Z)) :
  Forall (fun e => 0 <= snd e) items ->
  forall st,
    Forall (fun v => 0 <= count v) (dict_values (st_w2v st)) ->
    0 <= st_unk st ->
    Forall (fun v => 0 <= count v)
      (dict_values (st_w2v (fold_left (index_step min_count) items st)))
    /\ 0 <= st_unk (fold_left (index_step min_count) items st).
Proof.
  induction 1 as [|[word c] items Hc _ IH]; intros st Hv Hu; [now split|].
  cbn [fold_left]. apply IH; unfold index_step;
    destruct ((c >=? min_count) || String.eqb word UNK); cbn [st_w2v st_unk];
    simpl in Hc; try assumption; try lia.
  apply dict_set_values_Forall; [exact Hv | exact Hc].
Qed.

(** The counts of an indexed vocabulary are not negative. *)
Lemma build_index_nonneg (sentences : list (list string)) (min_count : Z)
    (st : index_state) :
  build_index sentences min_count = Ok st ->
  Forall (fun v => 0 <= count v) (dict_values (st_w2v st)).
Proof.
  unfold build_index. intros H.
  destruct (scan_corpus_spec sentences) as (Hrnd & _ & _).
  pose proof (scan_corpus_counts sentences) as Hocc.
  set (raw := fst (scan_corpus sentences)) in *.
  assert (Hraw : Forall (fun e => 0 <= snd e) raw).
  { apply Forall_forall. intros [w c] Hin.
    apply (dict_in_get String.eqb String.eqb_eq _ _ _ Hrnd) in Hin.
    rewrite (Hocc w) in Hin.
    pose proof (occurrences_nonneg (concat sentences) w).
    destruct (occurrences (concat sentences) w =? 0); [discriminate|].
    injection Hin as <-. simpl. lia. }
  destruct (index_fold_nonneg min_count raw Hraw (mkIndexState [] [] [] 0 0))
    as (Hv & Hu); [constructor | simpl; lia |].
  fold (index_loop min_count raw) in Hv, Hu.
  unfold add_unk in H.
  destruct (dict_mem String.eqb raw UNK).
  - unfold dict_lookup in H.
    destruct (dict_get String.eqb (st_w2v (index_loop min_count raw)) UNK)
      as [v|] eqn:G; [|discriminate].
    cbn [bind] in H. injection H as <-. cbn [st_w2v].
    apply dict_set_values_Forall; [exact Hv|]. cbn [count].
    apply (dict_get_some_in String.eqb String.eqb_eq) in G.
    rewrite Forall_forall in Hv.
    assert (0 <= count v).
    { apply Hv. unfold dict_values. apply in_map_iff.
      now exists (UNK, v). }
    lia.
  - injection H as <-. cbn [st_w2v].
    apply dict_set_values_Forall; [exact Hv | exact Hu].
Qed.

(** The vocabulary [build_vocab] hands to [_create_binary_tree] is a fit
    input for it. *)
Lemma build_vocab_tree_input py_pow sentences min_count hs ns ds r :
  build_vocab py_pow sentences min_count hs ns ds = Ok r ->
  tree_input (words_to_vocabs r).
Proof.
  intros H.
  destruct (build_vocab_inv _ _ _ _ _ _ _ H) as [Hinv _].
  eapply vocab_inv_tree_input; [exact Hinv|].
  destruct (build_vocab_ok _ _ _ _ _ _ _ H) as (st & Hst & Hp & _ & _).
  apply build_index_nonneg in Hst. apply precalc_ok in Hp.
  assert (E : map count (dict_values (words_to_vocabs r))
              = map count (dict_values (st_w2v st))).
  { unfold dict_values. rewrite !map_map.
    revert Hp. apply downsampled_map. now intros a b (_ & Hc & _). }
  assert (HF : Forall (fun c => 0 <= c)
                 (map count (dict_values (words_to_vocabs r)))).
  { rewrite E. apply (proj2 (Forall_map count (fun c => 0 <= c) _)).
    exact Hst. }
  exact (proj1 (Forall_map count (fun c => 0 <= c) _) HF).
Qed.

Lemma two_keys_length {A : Type} (a b : A) (l : list A) :
  In a l -> In b l -> a <> b -> (2 <= length l)%nat.
Proof.
  intros Ha Hb Hne. destruct l as [|x [|y l]]; simpl in *; [tauto | | lia].
  destruct Ha as [<-|[]], Hb as [<-|[]]. congruence.
Qed.

(** X9. When some word other than the unknown word occurs at least
    [min_count] times, [build_vocab] with the tree (and without the
    sampling table and downsampling) returns, and the tree it returns has
    one row for every item of the vocabulary in both matrices. *)
Theorem build_vocab_with_tree (py_pow : Z -> float -> float)
    (sentences : list (list string)) (min_count : Z) (w : string) :
  w <> UNK ->
  0 < occurrences (concat sentences) w ->
  min_count <= occurrences (concat sentences) w ->
  exists r t,
    build_vocab py_pow sentences min_count true false fzero = Ok r
    /\ hs_tree r = Some t
    /\ ns_table r = None
    /\ 2 <= len (words_to_vocabs r)
    /\ len (keys_to_code_keys t) = len (words_to_vocabs r)
    /\ len (keys_to_code_signs t) = len (words_to_vocabs r).
Proof.
  intros Hw Hpos Hmin.
  destruct (build_vocab_total py_pow sentences min_count) as (r0 & H0).
  pose proof (build_vocab_tree_input _ _ _ _ _ _ _ H0) as Hin.
  destruct (build_vocab_inv _ _ _ _ _ _ _ H0)
    as [(Hnd & Hunk & _) [_ Hall]].
  pose proof (scan_corpus_counts sentences) as Hocc.
  assert (Hkw : In w (dict_keys (words_to_vocabs r0))).
  { apply (Hall w (occurrences (concat sentences) w)); [|exact Hmin].
    apply (dict_get_some_in String.eqb String.eqb_eq). rewrite (Hocc w).
    destruct (occurrences (concat sentences) w =? 0) eqn:E;
      [apply Z.eqb_eq in E; lia | reflexivity]. }
  assert (Hn : 2 <= len (words_to_vocabs r0)).
  { pose proof (two_keys_length _ _ _ Hkw Hunk Hw) as H2.
    unfold dict_keys in H2. rewrite length_map in H2. unfold len. lia. }
  assert (Hne : words_to_vocabs r0 <> [])
    by (intros E; rewrite E in Hn; unfold len in Hn; simpl in Hn; lia).
  destruct (huffman_codes_tree _ Hne Hin) as (root & E & Hperm & _).
  cbn zeta in E, Hperm.
  destruct (code_matrices_full _ root Hn Hin Hperm)
    as (t & width & ET & (Lk & Ls & _) & _).
  cbn zeta in ET.
  unfold build_vocab in H0 |- *.
  destruct (build_index sentences min_count) as [st|]; [|discriminate].
  cbn [bind] in H0 |- *.
  destruct (_precalc_downsampling (st_w2v st) fzero) as [w2v|];
    [|discriminate].
  cbn [bind] in H0 |- *. injection H0 as <-.
  cbn [words_to_vocabs] in *.
  unfold _create_binary_tree. rewrite E. cbn [bind]. rewrite ET. cbn [bind].
  eexists _, t. split; [reflexivity|]. cbn [hs_tree ns_table words_to_vocabs].
  split; [reflexivity|]. split; [reflexivity|]. split; [exact Hn|].
  unfold len. rewrite Lk, Ls. now split.
Qed.

Lemma build_vocab_with_tree_witness :
  exists r t,
    build_vocab pow_stub example_corpus 2 true false fzero = Ok r
    /\ hs_tree r = Some t
    /\ ns_table r = None
    /\ 2 <= len (words_to_vocabs r)
    /\ len (keys_to_code_keys t) = len (words_to_vocabs r)
    /\ len (keys_to_code_signs t) = len (words_to_vocabs r).
Proof.
  apply (build_vocab_with_tree pow_stub example_corpus 2 "the"%string).
  - discriminate.
  - vm_compute. reflexivity.
  - vm_compute. discriminate.
Defined.

(** ** The shape of the sampling tables *)

Lemma sweep_climbs (share_at : Z -> result float) (size table_size : Z)
    (rounds : nat) :
  size <= 2 ^ 32 ->
  forall tidx widx d1 table,
    0 <= widx < size ->
    sweep share_at size table_size rounds tidx widx d1 = Ok table ->
    match table with
    | [] => True
    | x :: rest => x = widx /\ climbs widx rest
    end.
Proof.
  intros Hsize.
  induction rounds as [|rounds IH]; intros tidx widx d1 table Hw H;
    cbn [sweep] in H.
  - now injection H as <-.
  - apply bind_ok in H. destruct H as [progress [_ H]].
    apply bind_ok in H. destruct H as [[widx' d1'] [Hadv H]].
    apply bind_ok in H. destruct H as [rest [Hrest H]].
    injection H as <-.
    assert (Hw' : widx' = widx \/ widx' = widx + 1).
    { destruct (PrimFloat.ltb d1 progress).
      - apply bind_ok in Hadv. destruct Hadv as [s [_ Hadv]].
        injection Hadv as <- _. now right.
      - injection Hadv as <- _. now left. }
    split; [apply wrap32_small; unfold is_uint32; lia|].
    apply IH in Hrest; [|destruct (widx' >=? size) eqn:E; lia].
    destruct rest as [|y rest]; [exact I|].
    destruct Hrest as (-> & Hc). split; [|exact Hc].
    destruct (widx' >=? size) eqn:E; [|exact Hw'].
    apply Z.geb_le in E. left. lia.
Qed.

(** X10. When [_make_table] returns, the table has [table_size] entries,
    every entry is a key below [len(k2w)], the first entry is key 0 and
    every entry is its predecessor or its predecessor plus one: the table
    is sorted and no key below its last entry is missing. *)
Theorem make_table_staircase (py_pow : Z -> float -> float)
    (w2v : dict string Vocab) (k2w : dict Z string) (w2k : dict string Z)
    (table_size : Z) (power : float) (table : list Z) :
  len k2w <= 2 ^ 32 ->
  _make_table py_pow w2v k2w w2k table_size power = Ok table ->
  len table = table_size
  /\ Forall (fun x => 0 <= x < len k2w) table
  /\ staircase table.
Proof.
  intros Hsize H. unfold _make_table in H.
  destruct (table_size <? 0) eqn:E; [discriminate|]. apply Z.ltb_ge in E.
  apply bind_ok in H. destruct H as [d1 [Hd1 H]].
  assert (Hpos : 0 <= 0 < len k2w).
  { unfold neg_share, dict_lookup in Hd1.
    destruct k2w; [discriminate|]. unfold len. simpl length. lia. }
  destruct (sweep_valid _ _ _ _ Hsize _ _ _ _ Hpos H) as (Hlen & Hall).
  split; [unfold len; lia|]. split; [exact Hall|].
  pose proof (sweep_climbs _ _ _ _ Hsize _ _ _ _ Hpos H) as Hc.
  unfold staircase. destruct table; [exact I | exact Hc].
Qed.

Lemma make_table_staircase_witness :
  exists table,
    _make_table pow_stub two_words [(0, "a"); (1, "b")]%string
      [("a", 0); ("b", 1)]%string 8 DEFAULT_POWER = Ok table
    /\ len table = 8
    /\ Forall (fun x => 0 <= x < 2) table
    /\ staircase table.
Proof.
  destruct (_make_table pow_stub two_words [(0, "a"); (1, "b")]%string
              [("a", 0); ("b", 1)]%string 8 DEFAULT_POWER) as [table|e] eqn:E;
    [|vm_compute in E; discriminate E].
  exists table. split; [reflexivity|].
  apply (make_table_staircase pow_stub two_words [(0, "a"); (1, "b")]%string
           [("a", 0); ("b", 1)]%string 8 DEFAULT_POWER table).
  - vm_compute. discriminate.
  - exact E.
Defined.

(** X11. What a constructed [PhraseSampler] holds: the list of phrases is
    not empty (on the empty list the constructor raises [IndexError]), the
    table has [table_size] entries, every entry is the position of a
    phrase, the table starts at 0 and climbs by steps of zero or one, and
    [max_phrase_key] is the smaller of the argument and the number of
    phrases. *)
Theorem PhraseSampler_new_invariants (table_size : Z)
    (phrases : list (list Z)) (mw mpk : Z) :
  len phrases <= 2 ^ 32 ->
  (0 <= table_size -> PhraseSampler_new table_size [] mw mpk = Raise IndexError)
  /\ forall self,
       PhraseSampler_new table_size phrases mw mpk = Ok self ->
       phrases <> []
       /\ phrase_list self = phrases
       /\ max_window self = mw
       /\ max_phrase_key self = Z.min (len phrases) mpk
       /\ pt_size self = table_size
       /\ len (phrase_table self) = table_size
       /\ Forall (fun k => 0 <= k < len phrases) (phrase_table self)
       /\ staircase (phrase_table self).
Proof.
  intros Hsize. split.
  - intros Hts. unfold PhraseSampler_new, PhraseSampler_make_table.
    destruct (table_size <? 0) eqn:E; [apply Z.ltb_lt in E; lia|].
    reflexivity.
  - intros self H. unfold PhraseSampler_new in H.
    apply bind_ok in H. destruct H as [table [Ht H]]. injection H as <-.
    cbn [phrase_list max_window max_phrase_key pt_size phrase_table].
    unfold PhraseSampler_make_table in Ht.
    destruct (table_size <? 0) eqn:E; [discriminate|]. apply Z.ltb_ge in E.
    apply bind_ok in Ht. destruct Ht as [d1 [Hd1 Ht]].
    assert (Hne : phrases <> []).
    { intros ->. discriminate Hd1. }
    assert (Hpos : 0 <= 0 < len phrases).
    { destruct phrases; [contradiction|]. unfold len. simpl length. lia. }
    destruct (sweep_valid _ _ _ _ Hsize _ _ _ _ Hpos Ht) as (Hlen & Hall).
    pose proof (sweep_climbs _ _ _ _ Hsize _ _ _ _ Hpos Ht) as Hc.
    assert (Hl : len table = table_size) by (unfold len; lia).
    repeat (split; [first [exact Hne | reflexivity | exact Hl | exact Hall]|]).
    unfold staircase. destruct table; [exact I | exact Hc].
Qed.

Lemma PhraseSampler_new_invariants_witness :
  exists self,
    PhraseSampler_new 8 example_phrases 2 50000 = Ok self
    /\ len (phrase_table self) = 8
    /\ Forall (fun k => 0 <= k < len example_phrases) (phrase_table self)
    /\ staircase (phrase_table self).
Proof.
  destruct (PhraseSampler_new 8 example_phrases 2 50000) as [self|e] eqn:E;
    [|vm_compute in E; discriminate E].
  exists self. split; [reflexivity|].
  assert (Hs : len example_phrases <= 2 ^ 32) by (vm_compute; discriminate).
  destruct (proj2 (PhraseSampler_new_invariants 8 example_phrases 2 50000 Hs)
              self E) as (_ & _ & _ & _ & _ & H1 & H2 & H3).
  split; [exact H1|]. split; [exact H2 | exact H3].
Defined.

(** ** Groups and short phrases *)

(** X12. The group size of lines 398-400 and 423-425 is the largest of 5,
    4, 3, 2, 1 that divides [sample_count]: the groups cover the samples
    exactly. *)
Theorem group_size_divides (sample_count : Z) :
  1 <= group_size sample_count <= 5
  /\ sample_count mod group_size sample_count = 0
  /\ sample_count / group_size sample_count * group_size sample_count
     = sample_count
  /\ forall d,
       group_size sample_count < d <= 5 -> sample_count mod d <> 0.
Proof.
  unfold group_size. cbn [shrink_repeats].
  change (5 - 1) with 4. change (4 - 1) with 3. change (3 - 1) with 2.
  change (2 - 1) with 1.
  assert (Hdiv : forall g, 0 < g -> sample_count mod g = 0 ->
                           sample_count / g * g = sample_count).
  { intros g Hg Hm. pose proof (Z.div_mod sample_count g). lia. }
  destruct (sample_count mod 5 =? 0) eqn:E5.
  { apply Z.eqb_eq in E5. repeat split; try lia; try (now apply Hdiv). }
  destruct (sample_count mod 4 =? 0) eqn:E4.
  { apply Z.eqb_eq in E4. apply Z.eqb_neq in E5.
    repeat split; try lia; try (now apply Hdiv).
    intros d Hd. assert (d = 5) as -> by lia. exact E5. }
  destruct (sample_count mod 3 =? 0) eqn:E3.
  { apply Z.eqb_eq in E3. apply Z.eqb_neq in E5. apply Z.eqb_neq in E4.
    repeat split; try lia; try (now apply Hdiv).
    intros d Hd. assert (d = 4 \/ d = 5) as [-> | ->] by lia; assumption. }
  apply Z.eqb_neq in E5. apply Z.eqb_neq in E4. apply Z.eqb_neq in E3.
  destruct (sample_count mod 2 =? 0) eqn:E2.
  { apply Z.eqb_eq in E2.
    repeat split; try lia; try (now apply Hdiv).
    intros d Hd.
    assert (d = 3 \/ d = 4 \/ d = 5) as [-> | [-> | ->]] by lia; assumption. }
  apply Z.eqb_neq in E2.
  repeat split; try lia; try apply Z.mod_1_r.
  intros d Hd.
  assert (d = 2 \/ d = 3 \/ d = 4 \/ d = 5) as [-> | [-> | [-> | ->]]] by lia;
    assumption.
Qed.

(** X13. A phrase of one word cannot be sampled for n-grams: with one
    round or more to go and a readable pool entry, [fast_seq_sample]
    raises [ZeroDivisionError] at [% (phrase_len - 1)], before it writes
    anything. *)
Theorem fast_seq_sample_one_word (phrase : list Z) (gram_n : Z)
    (pad_key : list Z) (i repeats : Z) (key_seqs : list (list Z))
    (rand_pool : list Z) (ri : Z) :
  len phrase = 1 ->
  1 <= repeats ->
  0 <= ri < len rand_pool ->
  fast_seq_sample phrase gram_n pad_key i repeats key_seqs rand_pool ri
  = Raise ZeroDivisionError.
Proof.
  intros Hlen Hrep Hri. unfold fast_seq_sample.
  destruct (Z.to_nat repeats) as [|rounds] eqn:E; [lia|].
  cbn [fast_seq_loop]. unfold seq_draw.
  destruct (lookup_total IndexError rand_pool ri Hri) as (x & ->).
  cbn [bind]. rewrite Hlen. reflexivity.
Qed.

Lemma fast_seq_sample_one_word_witness :
  fast_seq_sample [7] 5 [0] 0 5 (zeros 5 5) example_pool 1
  = Raise ZeroDivisionError.
Proof.
  apply fast_seq_sample_one_word.
  - reflexivity.
  - lia.
  - vm_compute. split; [discriminate | reflexivity].
Defined.

Lemma resample_stuck (rand_pool : list Z) (fuel : nat) :
  forall ri, exists e, resample fuel rand_pool 0 0 1 ri = Raise e.
Proof.
  induction fuel as [|fuel IH]; intros ri; cbn [resample]; [eauto|].
  destruct (lookup IndexError rand_pool ri) as [x|e]; cbn [bind]; [|eauto].
  unfold py_mod. cbn [Z.eqb bind]. rewrite Z.mod_1_r. cbn [Z.add Z.eqb].
  apply IH.
Qed.

(** X14. A phrase of one word cannot be sampled for pairs: the only
    context position is the anchor itself, so the loop of lines 321-324
    never leaves; [fast_pair_sample] with one round or more to go never
    returns a result (the model stops it with an [IndexError] where the
    pool ends). *)
Theorem fast_pair_sample_one_word (phrase : list Z) (max_window i repeats : Z)
    (anc_keys pos_keys rand_pool : list Z) (ri : Z) :
  len phrase = 1 ->
  1 <= max_window ->
  1 <= repeats ->
  exists e,
    fast_pair_sample phrase max_window i repeats anc_keys pos_keys rand_pool ri
    = Raise e.
Proof.
  intros Hlen Hmw Hrep. unfold fast_pair_sample.
  destruct (Z.to_nat repeats) as [|rounds] eqn:E; [lia|].
  cbn [fast_pair_loop]. unfold pair_draw. rewrite Hlen.
  destruct (lookup IndexError rand_pool ri) as [x|e]; cbn [bind]; [|eauto].
  unfold py_mod at 1. cbn [Z.eqb bind]. rewrite Z.mod_1_r.
  destruct (lookup IndexError rand_pool (wrap32 (ri + 1))) as [y|e];
    cbn [bind]; [|eauto].
  unfold py_mod at 1.
  destruct (max_window =? 0) eqn:E0; [apply Z.eqb_eq in E0; lia|].
  cbn [bind].
  pose proof (Z.mod_pos_bound y max_window) as Hy.
  replace (0 - (y mod max_window + 1) <? 0) with true
    by (symmetry; apply Z.ltb_lt; lia).
  replace (0 + (y mod max_window + 1) >=? 1) with true
    by (symmetry; apply Z.geb_le; lia).
  change (1 - 1 - 0 + 1) with 1.
  destruct (resample_stuck rand_pool (length rand_pool)
              (wrap32 (wrap32 (ri + 1) + 1))) as (e & ->).
  cbn [bind]. eauto.
Qed.

Lemma fast_pair_sample_one_word_witness :
  exists e,
    fast_pair_sample [7] 2 0 5 (repeat 0 5) (repeat 0 5) example_pool 1
    = Raise e.
Proof.
  apply fast_pair_sample_one_word; [reflexivity | lia | lia].
Defined.

(** ** sample_pairs *)

Lemma group_size_pos (sample_count : Z) :
  1 <= group_size sample_count <= 5
  /\ sample_count / group_size sample_count * group_size sample_count
     = sample_count.
Proof.
  unfold group_size. cbn [shrink_repeats].
  assert (Hdiv : forall g, 0 < g -> sample_count mod g = 0 ->
                           sample_count / g * g = sample_count).
  { intros g Hg Hm. pose proof (Z.div_mod sample_count g). lia. }
  destruct (sample_count mod 5 =? 0) eqn:E5;
    [apply Z.eqb_eq in E5; split; [lia | now apply Hdiv]|].
  destruct (sample_count mod (5 - 1) =? 0) eqn:E4;
    [apply Z.eqb_eq in E4; split; [lia | now apply Hdiv]|].
  destruct (sample_count mod (5 - 1 - 1) =? 0) eqn:E3;
    [apply Z.eqb_eq in E3; split; [lia | now apply Hdiv]|].
  destruct (sample_count mod (5 - 1 - 1 - 1) =? 0) eqn:E2;
    [apply Z.eqb_eq in E2; split; [lia | now apply Hdiv]|].
  split; [lia|]. apply Hdiv; [lia|]. apply Z.mod_1_r.
Qed.

Lemma fill_slice_before {A : Type} (a : list A) (i n j : nat) (x : A) :
  (j < i)%nat -> nth_error (fill_slice a i n x) j = nth_error a j.
Proof.
  revert i n j. induction a as [|h t IH]; intros i n j Hj.
  - destruct i, n; reflexivity.
  - destruct i as [|i]; [lia|]. cbn [fill_slice].
    destruct j as [|j]; [reflexivity|]. cbn [nth_error]. apply IH. lia.
Qed.

Lemma fill_slice_in {A : Type} (a : list A) (i n j : nat) (x : A) :
  (i <= j < i + n)%nat -> (j < length a)%nat ->
  nth_error (fill_slice a i n x) j = Some x.
Proof.
  revert i n j. induction a as [|h t IH]; intros i n j Hj Hl;
    [simpl in Hl; lia|].
  destruct i as [|i].
  - destruct n as [|n]; [lia|]. cbn [fill_slice].
    destruct j as [|j]; [reflexivity|]. cbn [nth_error].
    apply IH; simpl in Hl; lia.
  - cbn [fill_slice]. destruct j as [|j]; [lia|]. cbn [nth_error].
    apply IH; simpl in Hl; lia.
Qed.

Lemma lookup_fill_slice_before (a : list Z) (i j : Z) (n : nat) (x : Z) :
  0 <= j < i ->
  lookup IndexError (fill_slice a (Z.to_nat i) n x) j = lookup IndexError a j.
Proof.
  intros Hj. unfold lookup. destruct (j <? 0); [reflexivity|].
  rewrite fill_slice_before by lia. reflexivity.
Qed.

Lemma lookup_fill_slice_in (a : list Z) (i j : Z) (n : nat) (x : Z) :
  0 <= i <= j -> j < i + Z.of_nat n -> j < len a ->
  lookup IndexError (fill_slice a (Z.to_nat i) n x) j = Ok x.
Proof.
  intros Hi Hj Hl. apply lookup_ok. split; [lia|].
  apply fill_slice_in; unfold len in Hl; lia.
Qed.

Lemma pairs_loop_pairs (self : PhraseSampler) (rand_pool : list Z)
    (repeats : Z) (rounds : nat) :
  Forall (fun p => 2 <= len p) (phrase_list self) ->
  1 <= max_window self ->
  0 <= repeats ->
  forall i anc_keys pos_keys phrase_keys ri anc' pos' keys',
    0 <= i ->
    pairs_loop rounds self i repeats anc_keys pos_keys phrase_keys rand_pool ri
    = Ok (anc', pos', keys') ->
    len anc' = len anc_keys
    /\ len pos' = len pos_keys
    /\ len keys' = len phrase_keys
    /\ (forall j, 0 <= j < i ->
          lookup IndexError anc' j = lookup IndexError anc_keys j
          /\ lookup IndexError pos' j = lookup IndexError pos_keys j
          /\ lookup IndexError keys' j = lookup IndexError phrase_keys j)
    /\ forall j,
         i <= j < i + Z.of_nat rounds * repeats ->
         j < len phrase_keys ->
         exists key phrase a c,
           lookup IndexError (phrase_list self) key = Ok phrase
           /\ lookup IndexError keys' j = Ok key
           /\ lookup IndexError anc' j = Ok a
           /\ lookup IndexError pos' j = Ok c
           /\ pair_in phrase (max_window self) a c.
Proof.
  intros HP Hmw Hrep.
  induction rounds as [|rounds IH];
    intros i anc pos pk ri anc' pos' keys' Hi H; cbn [pairs_loop] in H.
  - injection H as <- <- <-. repeat split; auto. intros j Hj. lia.
  - apply bind_ok in H. destruct H as [pt_idx [_ H]].
    apply bind_ok in H. destruct H as [key [_ H]].
    apply bind_ok in H. destruct H as [pk0 [Hpk0 H]].
    apply bind_ok in H. destruct H as [phrase [Hphrase H]].
    apply bind_ok in H. destruct H as [[[anc1 pos1] ri1] [Hfast H]].
    set (pk1 := fill_slice pk (Z.to_nat i) (Z.to_nat repeats) key) in *.
    assert (Lpk1 : len pk1 = len pk)
      by (unfold pk1, len; now rewrite length_fill_slice).
    pose proof (lookup_in _ _ _ _ Hphrase) as Hin.
    assert (Hlen : 2 <= len phrase)
      by (rewrite Forall_forall in HP; now apply HP).
    unfold fast_pair_sample in Hfast.
    destruct (fast_pair_loop_spec phrase (max_window self) i rand_pool
                (Z.to_nat repeats) Hlen Hmw 0 anc pos _ anc1 pos1 ri1
                ltac:(lia) Hfast) as (L1 & L2 & Hout & Hgrp).
    rewrite Z2Nat.id in Hout, Hgrp by exact Hrep.
    destruct (IH (i + repeats) anc1 pos1 pk1 ri1 anc' pos' keys'
                ltac:(lia) H) as (M1 & M2 & M3 & Mout & Min).
    split; [lia|]. split; [lia|]. split; [lia|]. split.
    + intros j Hj. destruct (Mout j ltac:(lia)) as (-> & -> & ->).
      destruct (Hout j ltac:(lia) ltac:(lia)) as (-> & ->).
      split; [reflexivity|]. split; [reflexivity|].
      unfold pk1. apply lookup_fill_slice_before. lia.
    + intros j Hj Hjl.
      destruct (Z.lt_ge_cases j (i + repeats)) as [Hlt|Hge].
      * destruct (Mout j ltac:(lia)) as (-> & -> & ->).
        destruct (Hgrp (j - i) ltac:(lia))
          as (a_idx & red_win & c_idx & Ha & Hr & Hc & Hw & Hne & Ea & Ec).
        replace (i + 0 + (j - i)) with j in Ea, Ec by lia.
        assert (Ekey : pk0 = key).
        { pose proof (lookup_bound _ _ _ _ Hpk0) as Hb.
          unfold pk1 in Hpk0.
          rewrite lookup_fill_slice_in in Hpk0;
            [now injection Hpk0 | lia | lia | lia]. }
        subst pk0.
        exists key, phrase, (nth (Z.to_nat a_idx) phrase 0),
          (nth (Z.to_nat c_idx) phrase 0).
        split; [exact Hphrase|]. split.
        { unfold pk1. apply lookup_fill_slice_in; lia. }
        split; [exact Ea|]. split; [exact Ec|].
        exists a_idx, c_idx. repeat split; auto; lia.
      * apply Min; lia.
Qed.

(** X15. When every phrase of the sampler has two keys or more and
    [max_window] is positive, a sample [sample_pairs] returns has
    [sample_count] anchors, contexts and phrase keys, and at every place
    the anchor and the context are keys of one phrase of the list, at two
    different positions no more than [max_window] apart, and the phrase key
    is the position of that phrase in the list, capped at
    [max_phrase_key]. *)
Theorem sample_pairs_from_phrases (self : PhraseSampler) (sample_count : Z)
    (rand_pool anc_keys pos_keys phrase_keys : list Z) :
  Forall (fun p => 2 <= len p) (phrase_list self) ->
  1 <= max_window self ->
  sample_pairs self sample_count rand_pool
  = Ok (anc_keys, pos_keys, phrase_keys) ->
  len anc_keys = sample_count
  /\ len pos_keys = sample_count
  /\ len phrase_keys = sample_count
  /\ forall j,
       0 <= j < sample_count ->
       exists key phrase a c,
         lookup IndexError (phrase_list self) key = Ok phrase
         /\ lookup IndexError phrase_keys j
            = Ok (wrap32 (Z.min (max_phrase_key self) key))
         /\ lookup IndexError anc_keys j = Ok a
         /\ lookup IndexError pos_keys j = Ok c
         /\ pair_in phrase (max_window self) a c.
Proof.
  intros HP Hmw H. unfold sample_pairs in H.
  destruct (sample_count <? 0) eqn:E; [discriminate|]. apply Z.ltb_ge in E.
  apply bind_ok in H. destruct H as [[[anc pos] pk] [Hloop H]].
  injection H as <- <- <-.
  destruct (group_size_pos sample_count) as (Hg & Hdiv).
  destruct (pairs_loop_pairs self _ (group_size sample_count) _ HP Hmw
              ltac:(lia) 0 _ _ _ 0 anc pos pk ltac:(lia) Hloop)
    as (L1 & L2 & L3 & _ & Hin).
  unfold len in L1, L2, L3. rewrite repeat_length in L1, L2, L3.
  split; [unfold len; lia|]. split; [unfold len; lia|].
  split; [unfold cap_keys, len; rewrite length_map; lia|].
  intros j Hj.
  destruct (Hin j) as (key & phrase & a & c & Hph & Hk & Ha & Hc & Hpair).
  - rewrite Z2Nat.id by (apply Z.div_pos; lia). lia.
  - unfold len. rewrite repeat_length. lia.
  - exists key, phrase, a, c. split; [exact Hph|]. split.
    + apply lookup_ok in Hk. destruct Hk as [Hj0 Hk].
      apply lookup_ok. split; [exact Hj0|].
      unfold cap_keys. rewrite nth_error_map, Hk. reflexivity.
    + split; [exact Ha|]. split; [exact Hc | exact Hpair].
Qed.

Lemma sample_pairs_from_phrases_witness :
  exists self anc_keys pos_keys phrase_keys,
    PhraseSampler_new 8 example_phrases 2 1 = Ok self
    /\ sample_pairs self 2 example_pool = Ok (anc_keys, pos_keys, phrase_keys)
    /\ len anc_keys = 2
    /\ forall j,
         0 <= j < 2 ->
         exists key phrase a c,
           lookup IndexError (phrase_list self) key = Ok phrase
           /\ lookup IndexError phrase_keys j
              = Ok (wrap32 (Z.min (max_phrase_key self) key))
           /\ lookup IndexError anc_keys j = Ok a
           /\ lookup IndexError pos_keys j = Ok c
           /\ pair_in phrase (max_window self) a c.
Proof.
  destruct (PhraseSampler_new 8 example_phrases 2 1) as [self|e] eqn:E;
    [|vm_compute in E; discriminate E].
  destruct (sample_pairs self 2 example_pool) as [[[anc pos] keys]|e] eqn:G.
  2:{ vm_compute in E. injection E as <-. vm_compute in G. discriminate G. }
  exists self, anc, pos, keys. split; [reflexivity|]. split; [exact G|].
  destruct (sample_pairs_from_phrases self 2 example_pool anc pos keys)
    as (H1 & _ & _ & H3).
  - vm_compute in E. injection E as <-.
    repeat constructor; vm_compute; discriminate.
  - vm_compute in E. injection E as <-. vm_compute. discriminate.
  - exact G.
  - split; [exact H1 | exact H3].
Defined.

(** ** sample_ngrams *)

Lemma fill_slice_at {A : Type} (a : list A) (i n : nat) (x : A) :
  (i < length a)%nat -> (0 < n)%nat ->
  nth_error (fill_slice a i n x) i = Some x.
Proof.
  revert i n. induction a as [|h t IH]; intros i n Hi Hn; simpl in Hi; [lia|].
  destruct i as [|i].
  - destruct n as [|n]; [lia|]. reflexivity.
  - cbn [fill_slice nth_error]. apply IH; lia.
Qed.

Lemma firstn_fill_slice {A : Type} (a : list A) (i n : nat) (x : A) :
  (i + n <= length a)%nat ->
  firstn (i + n) (fill_slice a i n x) = firstn i a ++ repeat x n.
Proof.
  revert i n. induction a as [|h t IH]; intros i n Hl.
  - simpl in Hl. assert (i = O) by lia. assert (n = O) by lia. subst.
    reflexivity.
  - destruct i as [|i].
    + destruct n as [|n]; [reflexivity|]. cbn [fill_slice Nat.add firstn repeat app].
      f_equal. apply (IH O n). simpl in Hl. lia.
    + cbn [fill_slice Nat.add firstn app]. f_equal. apply IH. simpl in Hl. lia.
Qed.

Lemma Forall2_map_repeat {A B C : Type} (R : B -> C -> Prop) (f : A -> B)
    (c : C) (l : list A) :
  (forall t, R (f t) c) -> Forall2 R (map f l) (repeat c (length l)).
Proof. intros H. induction l; simpl; constructor; auto. Qed.

Lemma map_wrap32_id (l : list Z) : Forall is_uint32 l -> map wrap32 l = l.
Proof.
  induction 1 as [|x l Hx _ IH]; [reflexivity|].
  cbn [map]. now rewrite IH, wrap32_small.
Qed.

Lemma ngrams_loop_total (self : PhraseSampler) (pad gram_n : Z)
    (rand_pool : list Z) (g : nat) :
  Forall (fun p => 2 <= len p) (phrase_list self) ->
  Forall (fun k => 0 <= k < len (phrase_list self)) (phrase_table self) ->
  Forall (fun x => 0 <= x < len (phrase_table self)) rand_pool ->
  len rand_pool < 2 ^ 32 ->
  0 <= gram_n ->
  (1 <= g)%nat ->
  forall (rounds : nat) (before after : list (list Z)) (pk : list Z) (ri : Z),
    length after = (rounds * g)%nat ->
    Forall (fun row => len row = gram_n) after ->
    length pk = (length before + length after)%nat ->
    0 <= ri ->
    ri + Z.of_nat rounds * (1 + Z.of_nat g) <= len rand_pool ->
    exists seqs' keys',
      ngrams_loop rounds self (len before) (Z.of_nat g) gram_n [pad]
        (before ++ after) pk rand_pool ri
      = Ok (before ++ seqs', firstn (length before) pk ++ keys')
      /\ length seqs' = length after
      /\ Forall2 (fun row key =>
                    exists phrase stop,
                      lookup IndexError (phrase_list self) key = Ok phrase
                      /\ 1 <= stop <= len phrase - 1
                      /\ row = ngram phrase pad gram_n stop)
           seqs' keys'.
Proof.
  intros HP HT Hpool Hsize Hgram Hg.
  induction rounds as [|rounds IH]; intros before after pk ri Hla Hrows Hpk Hri Hend.
  - destruct after; [|discriminate]. exists [], [].
    split; [|split; [reflexivity | constructor]].
    cbn [ngrams_loop]. rewrite !app_nil_r, firstn_all2; [reflexivity|].
    simpl in Hpk. lia.
  - cbn [ngrams_loop].
    assert (Hga : (g <= length after)%nat) by (rewrite Hla; simpl; lia).
    destruct (lookup_total IndexError rand_pool ri) as (x & Ex); [nia|].
    rewrite Ex. cbn [bind].
    assert (Hx : 0 <= x < len (phrase_table self)).
    { rewrite Forall_forall in Hpool. apply Hpool. eapply lookup_in; eauto. }
    rewrite (wrap32_small (ri + 1)) by (unfold is_uint32; nia).
    destruct (lookup_total IndexError (phrase_table self) x Hx) as (key & Ekey).
    rewrite Ekey. cbn [bind].
    assert (Hkey : 0 <= key < len (phrase_list self)).
    { rewrite Forall_forall in HT. apply HT. eapply lookup_in; eauto. }
    assert (Hlb : Z.to_nat (len before) = length before)
      by (unfold len; lia).
    rewrite Hlb, Nat2Z.id.
    assert (Eslice : lookup IndexError (fill_slice pk (length before) g key)
                       (len before) = Ok key).
    { apply lookup_ok. split; [apply len_nonneg|]. rewrite Hlb.
      apply fill_slice_at; lia. }
    rewrite Eslice. cbn [bind].
    destruct (lookup_total IndexError (phrase_list self) key Hkey)
      as (phrase & Ephrase).
    rewrite Ephrase. cbn [bind].
    assert (Hin : In phrase (phrase_list self)) by (eapply lookup_in; eauto).
    assert (Hlen : 2 <= len phrase)
      by (rewrite Forall_forall in HP; now apply HP).
    unfold fast_seq_sample. rewrite Nat2Z.id.
    set (newrows :=
           map (fun t => ngram phrase pad gram_n
                           (stop_of phrase
                              (nth (Z.to_nat (ri + 1 + t)) rand_pool 0)))
             (zrange (Z.of_nat g))).
    assert (Hseq : fast_seq_loop g 0 phrase gram_n [pad]
                     (len before) (before ++ after) rand_pool
                     (ri + 1)
                   = Ok (before ++ newrows ++ skipn g after,
                         ri + 1 + Z.of_nat g)).
    { rewrite <- (firstn_skipn g after) at 1.
      apply fast_seq_loop_spec;
        [exact Hlen | exact Hgram | lia | nia | nia | lia
        | rewrite length_firstn; lia |].
      apply Forall_forall. intros row Hr. rewrite Forall_forall in Hrows.
      apply Hrows. rewrite <- (firstn_skipn g after). apply in_or_app.
      now left. }
    rewrite Hseq. cbn [bind].
    assert (Lnew : length newrows = g).
    { unfold newrows. rewrite length_map, length_zrange. lia. }
    destruct (IH (before ++ newrows) (skipn g after)
                (fill_slice pk (length before) g key) (ri + 1 + Z.of_nat g))
      as (seqs'' & keys'' & EQ & L & F).
    + rewrite length_skipn, Hla. simpl. lia.
    + apply Forall_forall. intros row Hr. rewrite Forall_forall in Hrows.
      apply Hrows. rewrite <- (firstn_skipn g after). apply in_or_app.
      now right.
    + rewrite length_fill_slice, length_app, length_skipn, Lnew. lia.
    + lia.
    + nia.
    + rewrite len_app in EQ.
      replace (len newrows) with (Z.of_nat g) in EQ by (unfold len; lia).
      rewrite <- !app_assoc in EQ. rewrite EQ.
      rewrite length_app, Lnew, firstn_fill_slice by lia.
      exists (newrows ++ seqs''), (repeat key g ++ keys'').
      split; [now rewrite <- app_assoc|]. split.
      * rewrite length_app, L, length_skipn, Lnew. lia.
      * apply Forall2_app; [|exact F].
        assert (Hrep : repeat key g
                       = repeat key (length (zrange (Z.of_nat g))))
          by (rewrite length_zrange; f_equal; lia).
        rewrite Hrep. unfold newrows. apply Forall2_map_repeat. intros t.
        exists phrase, (stop_of phrase (nth (Z.to_nat (ri + 1 + t)) rand_pool 0)).
        split; [exact Ephrase|]. split; [now apply stop_of_range | reflexivity].
Qed.

(** X16. [sample_ngrams] never runs short of random numbers.  For a
    sampler as the constructor leaves it (table entries are positions of
    phrases, [pt_size] is the size of the table) whose phrases all have two
    keys or more, and a pool as [npr.randint(0, high=pt_size,
    size=10*sample_count)] draws it, the call returns [sample_count] rows,
    each the [gram_n]-gram of a phrase of the list that stops after the
    first position of the phrase, padded in front with the pad key, and
    as many phrase keys, each the position of the phrase of its row capped
    at [max_phrase_key]. *)
Theorem sample_ngrams_total (self : PhraseSampler) (sample_count gram_n : Z)
    (pad_key : Z) (rand_pool : list Z) :
  Forall (fun p => 2 <= len p) (phrase_list self) ->
  Forall (fun k => 0 <= k < len (phrase_list self)) (phrase_table self) ->
  pt_size self = len (phrase_table self) ->
  pt_size self <= 2 ^ 32 ->
  0 <= sample_count ->
  10 * sample_count < 2 ^ 32 ->
  0 <= gram_n ->
  len rand_pool = 10 * sample_count ->
  Forall (fun x => 0 <= x < pt_size self) rand_pool ->
  exists key_seqs phrase_keys,
    sample_ngrams self sample_count gram_n pad_key rand_pool
    = Ok (key_seqs, phrase_keys)
    /\ len key_seqs = sample_count
    /\ Forall (fun row => len row = gram_n) key_seqs
    /\ Forall2 (ngram_of (phrase_list self) (wrap32 pad_key) gram_n
                  (max_phrase_key self))
         key_seqs phrase_keys.
Proof.
  intros HP HT Hpt Hsize Hsc Hsc32 Hgram Hlen Hpool.
  unfold sample_ngrams.
  replace ((sample_count <? 0) || (gram_n <? 0)) with false.
  2:{ symmetry. apply orb_false_iff. split; apply Z.ltb_ge; assumption. }
  rewrite map_wrap32_id.
  2:{ eapply Forall_impl; [|exact Hpool]. intros x Hx. cbv beta in Hx.
      unfold is_uint32. lia. }
  destruct (group_size_pos sample_count) as (Hg & Hdiv).
  set (g := group_size sample_count) in *.
  assert (Hq : 0 <= sample_count / g) by (apply Z.div_pos; lia).
  rewrite Hpt in Hpool.
  destruct (ngrams_loop_total self (wrap32 pad_key) gram_n rand_pool
              (Z.to_nat g) HP HT Hpool ltac:(lia) Hgram ltac:(lia)
              (Z.to_nat (sample_count / g)) [] (zeros sample_count gram_n)
              (repeat 0 (Z.to_nat sample_count)) 0)
    as (seqs' & keys' & EQ & L & F).
  - rewrite length_zeros_rows, <- Z2Nat.inj_mul by lia. now rewrite Hdiv.
  - unfold zeros. apply Forall_forall. intros row Hr.
    apply repeat_spec in Hr. subst row. unfold len.
    rewrite repeat_length. lia.
  - rewrite repeat_length, length_zeros_rows. reflexivity.
  - lia.
  - rewrite !Z2Nat.id by lia.
    assert (sample_count / g <= sample_count) by nia. nia.
  - rewrite Z2Nat.id in EQ by lia. cbn [app] in EQ.
    change (len (@nil (list Z))) with 0 in EQ.
    rewrite EQ. cbn [bind].
    cbn [length firstn app].
    exists seqs', (cap_keys (max_phrase_key self) keys').
    split; [reflexivity|]. split.
    + unfold len. rewrite L, length_zeros_rows. lia.
    + split.
      * clear - F Hgram. induction F as [|row key ? ? Hr _ IH]; constructor;
          [|exact IH].
        destruct Hr as (phrase & stop & _ & _ & ->). unfold ngram, len.
        rewrite length_map, length_zrange. lia.
      * clear - F. unfold cap_keys.
        induction F as [|row key ? ? Hr _ IH]; cbn [map]; constructor;
          [|exact IH].
        destruct Hr as (phrase & stop & Hl & Hs & ->).
        exists key, phrase, stop. repeat split; auto; lia.
Qed.

Lemma sample_ngrams_total_witness :
  exists self key_seqs phrase_keys,
    PhraseSampler_new 8 example_phrases 2 50000 = Ok self
    /\ sample_ngrams self 2 3 99 example_pool = Ok (key_seqs, phrase_keys)
    /\ len key_seqs = 2
    /\ Forall (fun row => len row = 3) key_seqs
    /\ Forall2 (ngram_of (phrase_list self) (wrap32 99) 3
                  (max_phrase_key self))
         key_seqs phrase_keys.
Proof.
  destruct (PhraseSampler_new 8 example_phrases 2 50000) as [self|e] eqn:E;
    [|vm_compute in E; discriminate E].
  assert (Es : self = mkPhraseSampler 2 example_phrases
                        (phrase_table self) 2 8).
  { vm_compute in E. injection E as <-. reflexivity. }
  destruct (sample_ngrams_total self 2 3 99 example_pool)
    as (key_seqs & phrase_keys & H).
  - rewrite Es. repeat constructor; vm_compute; discriminate.
  - vm_compute in E. injection E as <-.
    repeat constructor; vm_compute; try discriminate; reflexivity.
  - vm_compute in E. injection E as <-. reflexivity.
  - vm_compute in E. injection E as <-. vm_compute. discriminate.
  - lia.
  - vm_compute. reflexivity.
  - lia.
  - reflexivity.
  - vm_compute in E. injection E as <-.
    repeat constructor; vm_compute; try discriminate; reflexivity.
  - exists self, key_seqs, phrase_keys. split; [reflexivity | exact H].
Defined.

(** ** The unknown word and the guard on [down_sample] *)

(** X17. When the unknown word does not occur in the corpus, [build_vocab]
    adds it after the kept words: it gets the last key,
    [len(words_to_vocabs) - 1], in all three maps. *)
Theorem build_vocab_unk_last (py_pow : Z -> float -> float)
    (sentences : list (list string)) (min_count : Z) (hs ns : bool)
    (ds : float) (r : vocab_result) :
  occurrences (concat sentences) UNK = 0 ->
  build_vocab py_pow sentences min_count hs ns ds = Ok r ->
  dict_get String.eqb (words_to_keys r) UNK
  = Some (len (words_to_vocabs r) - 1)
  /\ dict_get Z.eqb (keys_to_words r) (len (words_to_vocabs r) - 1) = Some UNK
  /\ exists v,
       dict_get String.eqb (words_to_vocabs r) UNK = Some v
       /\ index v = len (words_to_vocabs r) - 1.
Proof.
  intros Hocc H.
  destruct (build_vocab_inv _ _ _ _ _ _ _ H)
    as [(Hnd & Hunk & Hw2k & Hk2w & Hidx & _) _].
  destruct (build_vocab_ok _ _ _ _ _ _ _ H) as (st & Hst & Hp & Ew2k & _).
  assert (Hkey : dict_get String.eqb (words_to_keys r) UNK
                 = Some (len (words_to_vocabs r) - 1)).
  { apply precalc_ok in Hp.
    assert (Elen : len (words_to_vocabs r) = len (st_w2v st)).
    { pose proof (downsampled_keys _ _ _ _ _ Hp) as Hk.
      apply (f_equal (@length string)) in Hk. unfold dict_keys in Hk.
      rewrite !length_map in Hk. unfold len. lia. }
    rewrite Ew2k, Elen. clear - Hocc Hst.
    unfold build_index in Hst.
    destruct (scan_corpus_spec sentences) as (Hrnd & _ & _).
    pose proof (scan_corpus_counts sentences UNK) as Hraw.
    rewrite Hocc in Hraw. cbn [Z.eqb] in Hraw.
    set (raw := fst (scan_corpus sentences)) in *.
    pose proof (index_loop_inv min_count raw Hrnd)
      as (_ & Hincl & _ & _ & _ & Hi & Hpos & _).
    set (st0 := index_loop min_count raw) in *.
    unfold add_unk, dict_mem in Hst. rewrite Hraw in Hst.
    injection Hst as <-. cbn [st_w2k st_w2v].
    rewrite (dict_get_set_same String.eqb String.eqb_eq).
    assert (Hni : ~ In UNK (dict_keys (st_w2v st0))).
    { intros Hin. apply Hincl in Hin.
      apply (dict_get_none String.eqb String.eqb_eq) in Hraw. contradiction. }
    rewrite (dict_set_new String.eqb String.eqb_eq _ _ _ Hni).
    rewrite len_app. change (len [_]) with 1.
    rewrite (zrange_len_eq _ _ _ Hpos Hi). f_equal. lia. }
  split; [exact Hkey|].
  apply (dict_get_some_in String.eqb String.eqb_eq) in Hkey.
  rewrite Hw2k in Hkey. apply in_map_iff in Hkey.
  destruct Hkey as ([w v] & E & Hin). cbn [fst snd] in E.
  injection E as -> Ev.
  split.
  - apply (dict_in_get Z.eqb Zeqb_eq).
    + rewrite Hk2w. unfold dict_keys. rewrite map_map. cbn [fst].
      rewrite Hidx. apply NoDup_zrange.
    + rewrite Hk2w. apply in_map_iff. exists (UNK, v). cbn [fst snd].
      now rewrite Ev.
  - exists v. split; [|exact Ev].
    now apply (dict_in_get String.eqb String.eqb_eq).
Qed.

Lemma build_vocab_unk_last_witness :
  exists r,
    build_vocab pow_stub example_corpus 2 false false fzero = Ok r
    /\ dict_get String.eqb (words_to_keys r) UNK
       = Some (len (words_to_vocabs r) - 1).
Proof.
  destruct (build_vocab pow_stub example_corpus 2 false false fzero)
    as [r|e] eqn:E; [|vm_compute in E; discriminate E].
  exists r. split; [reflexivity|].
  apply (build_vocab_unk_last pow_stub example_corpus 2 false false fzero r).
  - vm_compute. reflexivity.
  - exact E.
Defined.

(** X18. A [down_sample] that is not at least zero (negative, or not a
    number) makes [build_vocab] raise [AssertionError] on every corpus and
    with every choice of tree and table: the corpus is scanned and indexed,
    and the assertion of [_precalc_downsampling] stops the call before
    either is built. *)
Theorem build_vocab_rejects_down_sample (py_pow : Z -> float -> float)
    (sentences : list (list string)) (min_count : Z) (hs ns : bool)
    (ds : float) :
  PrimFloat.leb fzero ds = false ->
  build_vocab py_pow sentences min_count hs ns ds = Raise AssertionError.
Proof.
  intros Hds. unfold build_vocab.
  destruct (build_index_spec sentences min_count) as (st & -> & _).
  cbn [bind]. unfold _precalc_downsampling. rewrite Hds. reflexivity.
Qed.

Lemma build_vocab_rejects_down_sample_witness :
  build_vocab pow_stub example_corpus 2 true true (-1)%float
  = Raise AssertionError.
Proof.
  apply build_vocab_rejects_down_sample. reflexivity.
Defined.

(** ** Negative samples from a built table *)

(** X19. Negative samples drawn from a table [_make_table] built are keys
    of the vocabulary: [sample] returns, for every drawn position, the
    table entry at that position, and each is below [len(k2w)]. *)
Theorem negatives_are_vocabulary_keys (py_pow : Z -> float -> float)
    (w2v : dict string Vocab) (k2w : dict Z string) (w2k : dict string Z)
    (table_size : Z) (power : float) (table : list Z)
    (count0 sample_count requested : Z) (neg_idx : list (list Z)) :
  let self := NegSampler_init table count0 in
  let k := if requested =? 0 then count0 else requested in
  _make_table py_pow w2v k2w w2k table_size power = Ok table ->
  0 < table_size ->
  len k2w <= 2 ^ 32 ->
  0 <= sample_count ->
  0 <= k ->
  randint_matrix (neg_table_size self) sample_count k neg_idx ->
  sample self sample_count requested neg_idx
  = Ok (map (map (fun p => nth (Z.to_nat p) table 0)) neg_idx)
  /\ Forall (Forall (fun key => 0 <= key < len k2w))
       (map (map (fun p => nth (Z.to_nat p) table 0)) neg_idx).
Proof.
  intros self k Ht Hts Hsize Hn Hk [Hrows Hidx].
  assert (Htab : len table = table_size
                 /\ Forall (fun x => 0 <= x < len k2w) table).
  { unfold _make_table in Ht.
    destruct (table_size <? 0); [discriminate|].
    apply bind_ok in Ht. destruct Ht as [d1 [Hd1 Ht]].
    assert (Hpos : 0 <= 0 < len k2w).
    { unfold neg_share, dict_lookup in Hd1.
      destruct k2w; [discriminate|]. unfold len. simpl length. lia. }
    destruct (sweep_valid _ _ _ _ Hsize _ _ _ _ Hpos Ht) as (Hlen & Hall).
    split; [unfold len; lia | exact Hall]. }
  destruct Htab as (Hlen & Hall).
  assert (Hsz : neg_table_size self = len table) by reflexivity.
  assert (Hnth : forall row, In row neg_idx ->
            Forall (fun p => 0 <= nth (Z.to_nat p) table 0 < len k2w) row).
  { intros row Hr. rewrite Forall_forall in Hidx.
    destruct (Hidx row Hr) as [_ Hrow].
    eapply Forall_impl; [|exact Hrow]. intros p Hp. cbv beta in Hp.
    rewrite Forall_forall in Hall. apply Hall. apply nth_In.
    rewrite Hsz in Hp. unfold len in Hp. lia. }
  split.
  - unfold sample. simpl neg_count.
    change (if requested =? 0 then count0 else requested) with k.
    replace ((sample_count <? 0) || (k <? 0)) with false
      by (symmetry; apply orb_false_iff; split; apply Z.ltb_ge; lia).
    replace (neg_table_size self <=? 0) with false
      by (symmetry; apply Z.leb_gt; lia).
    unfold zrange.
    rewrite (neg_columns_spec self (Z.to_nat k) 0).
    + cbn [bind]. f_equal. rewrite map_map. apply map_ext_in. intros row Hr.
      rewrite map_map. apply map_ext_in. intros p Hp.
      apply wrap32_small. specialize (Hnth row Hr).
      rewrite Forall_forall in Hnth. specialize (Hnth p Hp).
      unfold is_uint32. cbn [neg_table self NegSampler_init] in *. lia.
    + eapply Forall_impl; [|exact Hidx]. intros row [Hl Hrow].
      split; [unfold len in Hl; lia|]. exact Hrow.
    + unfold zeros. simpl firstn.
      assert (Hlen' : length neg_idx = Z.to_nat sample_count)
        by (unfold len in Hrows; lia).
      rewrite <- Hlen'. clear. induction neg_idx; simpl; constructor; auto.
  - apply Forall_map, Forall_forall. intros row Hr.
    apply Forall_map. now apply Hnth.
Qed.

Lemma negatives_are_vocabulary_keys_witness :
  exists table,
    _make_table pow_stub two_words [(0, "a"); (1, "b")]%string
      [("a", 0); ("b", 1)]%string 8 DEFAULT_POWER = Ok table
    /\ sample (NegSampler_init table 2) 2 0 [[0; 7]; [3; 5]]
       = Ok (map (map (fun p => nth (Z.to_nat p) table 0)) [[0; 7]; [3; 5]]).
Proof.
  destruct (_make_table pow_stub two_words [(0, "a"); (1, "b")]%string
              [("a", 0); ("b", 1)]%string 8 DEFAULT_POWER) as [table|e] eqn:E;
    [|vm_compute in E; discriminate E].
  exists table. split; [reflexivity|].
  apply (negatives_are_vocabulary_keys pow_stub two_words
           [(0, "a"); (1, "b")]%string [("a", 0); ("b", 1)]%string 8
           DEFAULT_POWER table 2 2 0 [[0; 7]; [3; 5]] E).
  - lia.
  - vm_compute. discriminate.
  - lia.
  - simpl. lia.
  - vm_compute in E. injection E as <-.
    split; [reflexivity|]. repeat constructor; vm_compute; discriminate.
Defined.
